(** * momentGW: moment-constrained GW with periodic boundary conditions

    A shallow embedding of the integral container ([momentGW/pbc/ints.py]),
    the dTDA moment builders ([momentGW/pbc/tda.py]) and the quasiparticle
    self-consistency kernel ([momentGW/qsgw.py]), with the properties of
    the specification stated over it.

    Conventions of the embedding.
    - A complex double is a Gaussian rational [C] (a pair of canonical
      rationals): every statement is one of exact arithmetic.
    - A numpy array is a function from its indices to [C]; its shape is
      carried by the dimensions of the container ([naux_full], [nmo], ...).
      A sum of an [einsum] ranges over exactly these dimensions.
    - A Python exception is the [Err] of the [Result] monad.
    - One process: [mpi_helper.rank = 0], so [allreduce] and [bcast] are the
      identity and [loop(1, mpi=True)] is [loop(1)]. *)

From Stdlib Require Import QArith Qcanon ZArith List Lia Ring String.
From Stdlib Require Qcabs.
From stdpp Require Import gmap strings list pretty.

Local Open Scope Qc_scope.

(* ===================================================================== *)
(** * Part I: definitions                                                 *)
(* ===================================================================== *)

(** ** Complex numbers over the rationals *)

Record C : Type := mkC { re : Qc; im : Qc }.

Definition C0 : C := mkC 0 0.
Definition C1 : C := mkC 1 0.
Definition Cadd (a b : C) : C := mkC (re a + re b) (im a + im b).
Definition Copp (a : C) : C := mkC (- re a) (- im a).
Definition Csub (a b : C) : C := mkC (re a - re b) (im a - im b).
Definition Cmul (a b : C) : C :=
  mkC (re a * re b - im a * im b) (re a * im b + im a * re b).
(** [z.conj()] *)
Definition Cconj (a : C) : C := mkC (re a) (- im a).
(** a real number used as a complex one (numpy's promotion) *)
Definition RtoC (r : Qc) : C := mkC r 0.
(** [block[0] + block[1] * 1.0j] *)
Definition Cri (r i : Qc) : C := mkC r i.
(** multiplication and division by a real *)
Definition Cscale (r : Qc) (a : C) : C := mkC (r * re a) (r * im a).
Definition Cdivr (a : C) (r : Qc) : C := mkC (re a / r) (im a / r).

Definition Ceqb (a b : C) : bool :=
  bool_decide (re a = re b) && bool_decide (im a = im b).

Declare Scope C_scope.
Delimit Scope C_scope with C.
Bind Scope C_scope with C.
Infix "+" := Cadd : C_scope.
Infix "*" := Cmul : C_scope.
Infix "-" := Csub : C_scope.
Notation "- x" := (Copp x) : C_scope.

(** [len(self.kpts)], [2.0] and [0.5] as reals *)
Definition Qc_of_nat (n : nat) : Qc := Q2Qc (inject_Z (Z.of_nat n)).
Definition two : Qc := Q2Qc 2.
Definition half : Qc := Q2Qc (1 # 2).

#[export] Instance Qc_inhabited : Inhabited Qc := populate 0.

(** [scipy.special.binom(n, t)] on natural numbers: Pascal's rule; it is
    [0] for [t > n] *)
Fixpoint binom (n t : nat) : nat :=
  match n, t with
  | _, O => 1%nat
  | O, S _ => 0%nat
  | S n', S t' => (binom n' t' + binom n' t)%nat
  end.

(** [(-1) ** t] *)
Definition sign (t : nat) : Qc := if Nat.even t then 1 else - (1).

(** [e ** z] on floats, for an integer exponent: a negative exponent
    inverts, and [0.0 ** z] is [inf] for a negative [z], which is no number
    here: [None] *)
Definition zpow (e : Qc) (z : Z) : option Qc :=
  match z with
  | Z0 => Some 1
  | Zpos p => Some (e ^ Pos.to_nat p)
  | Zneg p => if bool_decide (e = 0) then None else Some (/ (e ^ Pos.to_nat p))
  end.

(** [np.isclose(a, b)] with the default [rtol = 1e-5] and [atol = 1e-8]:
    [|a - b| <= atol + rtol * |b|].  With [D2 = |a - b|^2] and [B2 = |b|^2]
    the comparison of the two moduli is, without square roots,
    [L <= 0 \/ L^2 <= 4 atol^2 rtol^2 B2] for
    [L = D2 - atol^2 - rtol^2 B2]. *)
Definition rtol : Qc := Q2Qc (1 # 100000).
Definition atol : Qc := Q2Qc (1 # 100000000).
Definition Cnorm2 (a : C) : Qc := re a * re a + im a * im a.
Definition isclose (a b : C) : bool :=
  let D2 := Cnorm2 (Csub a b) in
  let B2 := Cnorm2 b in
  let L := D2 - atol * atol - rtol * rtol * B2 in
  bool_decide (L <= 0) || bool_decide (L * L <= Q2Qc 4 * atol * atol * rtol * rtol * B2).

(** ** Finite sums: the contraction of an [einsum] index *)

Fixpoint csum (n : nat) (f : nat -> C) : C :=
  match n with
  | O => C0
  | S k => (csum k f + f k)%C
  end.

(** a sum over the elements of a list (the poles picked by a mask) *)
Fixpoint csum_list {A : Type} (l : list A) (f : A -> C) : C :=
  match l with
  | [] => C0
  | x :: rest => (f x + csum_list rest f)%C
  end.

(** ** Arrays *)

Definition Arr1 : Type := nat -> C.
Definition Arr2 : Type := nat -> nat -> C.
Definition Arr3 : Type := nat -> nat -> nat -> C.

Definition Arr4 : Type := nat -> nat -> nat -> nat -> C.

Definition zeros1 : Arr1 := fun _ => C0.
Definition zeros2 : Arr2 := fun _ _ => C0.
Definition zeros4 : Arr4 := fun _ _ _ _ => C0.
#[export] Instance Arr1_inhabited : Inhabited Arr1 := populate zeros1.
#[export] Instance Arr2_inhabited : Inhabited Arr2 := populate zeros2.
Definition zeros3 : Arr3 := fun _ _ _ => C0.
Definition arr2_add (a b : Arr2) : Arr2 := fun i j => (a i j + b i j)%C.
Definition arr3_add (a b : Arr3) : Arr3 := fun l i j => (a l i j + b l i j)%C.
Definition arr2_conj (a : Arr2) : Arr2 := fun i j => Cconj (a i j).
(** [a.T] and [a.T.conj()] *)
Definition arr2_T (a : Arr2) : Arr2 := fun i j => a j i.
Definition arr2_H (a : Arr2) : Arr2 := fun i j => Cconj (a j i).
Definition arr2_scale (r : Qc) (a : Arr2) : Arr2 := fun i j => Cscale r (a i j).
Definition arr2_divr (a : Arr2) (r : Qc) : Arr2 := fun i j => Cdivr (a i j) r.
(** [np.dot(a, b)] with contracted dimension [n] *)
Definition arr2_dot (n : nat) (a b : Arr2) : Arr2 :=
  fun i j => csum n (fun k => (a i k * b k j)%C).

(** [np.allclose(a, b)] on arrays of shape [(n, m)] *)
Definition allclose (n m : nat) (a b : Arr2) : bool :=
  forallb (fun i => forallb (fun j => isclose (a i j) (b i j)) (seq 0 m)) (seq 0 n).

(** equality of the entries of two arrays of shape [(n, m)] *)
Definition arr2_eq (n m : nat) (a b : Arr2) : Prop :=
  forall i j, (i < n)%nat -> (j < m)%nat -> a i j = b i j.

(** ** Python exceptions *)

Inductive PyError : Type :=
  | NotImplementedError (msg : string)
  | ValueError (msg : string)
  | LookupError
  | KeyError
  | IndexError
  | TypeError
  | AttributeError
  | LinAlgError.

Inductive Result (A : Type) : Type :=
  | Ok (a : A)
  | Err (e : PyError).
Arguments Ok {A} a.
Arguments Err {A} e.

#[export] Instance Result_ret : MRet Result := fun A a => Ok a.
#[export] Instance Result_bind : MBind Result := fun A B f r =>
  match r with
  | Ok a => f a
  | Err e => Err e
  end.

(** a [for] loop whose body may raise: the first exception ends it *)
Fixpoint for_each {S X : Type} (body : S -> X -> Result S) (xs : list X) (s : S)
  : Result S :=
  match xs with
  | [] => Ok s
  | x :: rest =>
      match body s x with
      | Ok s' => for_each body rest s'
      | Err e => Err e
      end
  end.

(** [d[key]] on a dict: [KeyError] on a missing key *)
Definition getitem {K V : Type} `{Countable K} (d : gmap K V) (k : K) : Result V :=
  match d !! k with
  | Some v => Ok v
  | None => Err KeyError
  end.

(** ** Runs that log what the provider delivers *)

(** what a run does that is seen from outside: the provider delivers a
    block for the pair [(ki, kj)], with its sign; a message goes to the
    logger; the integrals are built ([gw.ao2mo()]); the inner solver is run
    on orbital energies and coefficients ([subgw.kernel(...)]) *)
Inductive Event : Type :=
  | sr_block (ki kj : nat) (sign : Z)
  | log_warn (msg : string)
  | log_info (msg : string)
  | call_ao2mo
  | call_solver (mo_energy : nat -> Qc) (mo_coeff : nat -> nat -> Qc).

(** a computation with the events it caused, in order, up to its end or to
    the exception that ended it *)
Record Run (A : Type) : Type := mkRun {
  run_log : list Event;
  run_res : Result A
}.
Arguments mkRun {A} run_log run_res.
Arguments run_log {A} r.
Arguments run_res {A} r.

#[export] Instance Run_ret : MRet Run := fun A a => mkRun [] (Ok a).
#[export] Instance Run_bind : MBind Run := fun A B f m =>
  match run_res m with
  | Ok a => mkRun (run_log m ++ run_log (f a)) (run_res (f a))
  | Err e => mkRun (run_log m) (Err e)
  end.

(** a computation that causes no event *)
Definition quiet {A : Type} (r : Result A) : Run A := mkRun [] r.

(** an event *)
Definition tell (ev : Event) : Run unit := mkRun [ev] (Ok tt).

Fixpoint for_each_run {S X : Type} (body : S -> X -> Run S) (xs : list X) (s : S)
  : Run S :=
  match xs with
  | [] => mret s
  | x :: rest => body s x ≫= for_each_run body rest
  end.

(** ** The Brillouin-zone mesh *)

(** Modelled from the spec: the class [KPoints] of [momentGW/pbc/kpts.py] is
    not part of the sources.  A mesh is an ordered collection of momentum
    points with a wrap-around map to canonical representatives and a
    [member] lookup that gives the index of a vector, or fails (here [None],
    raised as [LookupError]) when the vector is no mesh point. *)
Record KPoints : Type := {
  kvec : Type;
  kadd : kvec -> kvec -> kvec;
  ksub : kvec -> kvec -> kvec;
  kneg : kvec -> kvec;
  kpoints : list kvec;
  wrap_around : kvec -> kvec;
  member : kvec -> option nat
}.

Definition nkpts (kp : KPoints) : nat := length (kpoints kp).

(** [kpts.member(v)], raising *)
Definition member_exn (kp : KPoints) (v : kvec kp) : Result nat :=
  match member kp v with
  | Some k => Ok k
  | None => Err LookupError
  end.

(** [kpts[k]] *)
Definition kpt_at (kp : KPoints) (k : nat) : Result (kvec kp) :=
  match kpoints kp !! k with
  | Some v => Ok v
  | None => Err IndexError
  end.

(** Modelled from the spec: [loop(1)] as the integral container uses it, the
    indices of the mesh in order. *)
Definition loop1 (kp : KPoints) : list nat := seq 0 (nkpts kp).

(** [enumerate(self.kpts)]: the pairs [(index, point)] *)
Definition enumerate_kpts (kp : KPoints) : list (nat * kvec kp) :=
  imap (fun i v => (i, v)) (kpoints kp).

(** a point [k] is related to a mesh member by the momentum transfer [q] *)
Definition conserving (kp : KPoints) (q k : nat * kvec kp) : bool :=
  bool_decide (is_Some (member kp (wrap_around kp (ksub kp k.2 q.2)))).

(** Modelled from the spec: [loop(2)] and [loop(3)] as the moment builder
    uses them, the tuples of [(index, point)] in product order, "filtered to
    momentum-conserving tuples", the first element being the momentum
    transfer [q]. *)
Definition loop2 (kp : KPoints) : list ((nat * kvec kp) * (nat * kvec kp)) :=
  q ← enumerate_kpts kp;
  k ← enumerate_kpts kp;
  if conserving kp q k then [(q, k)] else [].

Definition loop3 (kp : KPoints)
  : list ((nat * kvec kp) * (nat * kvec kp) * (nat * kvec kp)) :=
  q ← enumerate_kpts kp;
  ka ← enumerate_kpts kp;
  kb ← enumerate_kpts kp;
  if conserving kp q ka && conserving kp q kb then [(q, ka, kb)] else [].

(** ** The dTDA moment builders ([momentGW/pbc/tda.py]) *)

(** An entry of an object array made by [np.zeros(..., dtype=object)]: the
    Python integer [0] it starts with, or the array stored there. *)
Inductive PyObj : Type :=
  | PyInt0
  | NdArr (a : Arr2).

#[export] Instance PyObj_inhabited : Inhabited PyObj := populate PyInt0.

(** [x += y] on such an entry: [0 + y] is [y] *)
Definition obj_iadd (x : PyObj) (y : Arr2) : PyObj :=
  match x with
  | PyInt0 => NdArr y
  | NdArr a => NdArr (arr2_add a y)
  end.

(** [x * d.ravel()[None]]: every row multiplied elementwise by the vector *)
Definition arr2_mul_row (a : Arr2) (d : list Qc) : Arr2 :=
  fun l x => (a l x * RtoC (d !!! x))%C.

Definition obj_mul_row (x : PyObj) (d : list Qc) : Arr2 :=
  match x with
  | PyInt0 => arr2_mul_row zeros2 d
  | NdArr a => arr2_mul_row a d
  end.

(** [e[occ > 0]] and [e[occ == 0]]: selection by a boolean mask *)
Definition mask_sel {A : Type} (xs : list A) (occ : list Qc) (p : Qc -> bool) : list A :=
  (filter (fun xo => p xo.2 = true) (zip xs occ)).*1.
Definition is_occ (o : Qc) : bool := bool_decide (0 < o).
Definition is_vir (o : Qc) : bool := bool_decide (o = 0).

(** [lib.direct_sum("a-i->ia", ea, ei).ravel()] *)
Definition direct_sum_ai (ea ei : list Qc) : list Qc :=
  i ← ei; a ← ea; [a - i].

Module TDA.

(** the fields of a [TDA] object that the builders read *)
Record t : Type := {
  kpts : KPoints;
  nmom_max : nat;
  nmo : nat;
  naux : nat -> nat;
  Lia : gmap (nat * nat) Arr2;
  Lai : gmap (nat * nat) Arr2;
  Lpx : gmap (nat * nat) Arr3;
  mo_energy_g : nat -> list Qc;
  mo_occ_g : nat -> list Qc;
  mo_energy_w : nat -> list Qc;
  mo_occ_w : nat -> list Qc
}.

Definition nk (self : t) : Qc := Qc_of_nat (nkpts (kpts self)).

(** the property [nov]: [nocc_w[ki] * nvir_w[ka]] *)
Definition nov (self : t) (ki ka : nat) : nat :=
  (length (filter (fun o => is_occ o = true) (mo_occ_w self ki))
   * length (filter (fun o => is_vir o = true) (mo_occ_w self ka)))%nat.

(** [kpts.member(kpts.wrap_around(kptb - qpt))] *)
Definition related (self : t) (qpt kptb : kvec (kpts self)) : Result nat :=
  member_exn (kpts self) (wrap_around (kpts self) (ksub (kpts self) kptb qpt)).

(** the object array [moments], indexed by [(q, kb, order)] *)
Abbreviation Moments := (gmap (nat * nat * nat) PyObj).

(** [np.linalg.multi_dot((m, a, b))]: a 0-dimensional first operand is
    refused; the product is taken as [(m a) b] *)
Definition multi_dot3 (n1 n2 : nat) (m : PyObj) (a b : Arr2) : Result Arr2 :=
  match m with
  | PyInt0 => Err LinAlgError
  | NdArr x => Ok (arr2_dot n2 (arr2_dot n1 x a) b)
  end.

Section build_dd_moments.
Variable self : t.
Abbreviation kp := (kpts self).
Abbreviation pt := (nat * kvec (kpts self))%type.

(** the body of the loop of the zeroth moment *)
Definition zeroth_body (m : Moments) (x : pt * pt) : Result Moments :=
  let '((q, qpt), (kb, kptb)) := x in
  kj ← related self qpt kptb;
  lia ← getitem (Lia self) (kj, kb);
  mret (<[(q, kb, 0%nat) :=
           obj_iadd (m !!! (q, kb, 0%nat)) (arr2_divr lia (nk self))]> m).

(** the body of the first loop of order [i]: the energy differences *)
Definition energy_body (i : nat) (m : Moments) (x : pt * pt) : Result Moments :=
  let '((q, qpt), (kb, kptb)) := x in
  kj ← related self qpt kptb;
  let d := direct_sum_ai
             (mask_sel (mo_energy_w self kb) (mo_occ_w self kb) is_vir)
             (mask_sel (mo_energy_w self kj) (mo_occ_w self kj) is_occ) in
  mret (<[(q, kb, i) :=
           obj_iadd (m !!! (q, kb, i))
                    (obj_mul_row (m !!! (q, kb, (i - 1)%nat)) d)]> m).

(** the body of the second loop of order [i]: the coupling *)
Definition coupling_body (i : nat) (m : Moments) (x : pt * pt * pt)
  : Result Moments :=
  let '((q, qpt), (ka, kpta), (kb, kptb)) := x in
  ki ← related self qpt kpta;
  kj ← related self qpt kptb;
  lia ← getitem (Lia self) (ki, ka);
  lai ← getitem (Lai self) (kj, kb);
  prod ← multi_dot3 (nov self ki ka) (naux self q)
                    (m !!! (q, ka, (i - 1)%nat)) (arr2_H lia) (arr2_conj lai);
  mret (<[(q, kb, i) :=
           obj_iadd (m !!! (q, kb, i))
                    (arr2_divr (arr2_scale two prod) (nk self))]> m).

Definition order_body (m : Moments) (i : nat) : Result Moments :=
  m1 ← for_each (energy_body i) (loop2 kp) m;
  for_each (coupling_body i) (loop3 kp) m1.

Definition build_dd_moments : Result Moments :=
  m0 ← for_each zeroth_body (loop2 kp) ∅;
  for_each order_body (seq 1 (nmom_max self)) m0.

End build_dd_moments.

(** [build_dd_moments_exact]: [raise NotImplementedError] *)
Definition build_dd_moments_exact (self : t) : Result Moments :=
  Err (NotImplementedError "").

(** *** [build_se_moments], with [diagonal_se = False] *)

(** A matrix of complex floats as the convolution leaves it: its entries,
    or [nan] in every entry (of which there is one at least). *)
Inductive FMat : Type :=
  | Finite (a : Arr2)
  | NaN.

#[global] Instance FMat_inhabited : Inhabited FMat := populate (Finite zeros2).

(** [x += y]: [nan] stays *)
Definition fmat_add (x y : FMat) : FMat :=
  match x, y with
  | Finite a, Finite b => Finite (arr2_add a b)
  | _, _ => NaN
  end.

Abbreviation Eta := (gmap (nat * nat) Arr4).
Abbreviation SEMoments := (gmap (nat * nat) FMat).

(** [np.dot(m, a)] for an entry of the response moments: the integer [0]
    multiplies as a scalar *)
Definition obj_dot (n : nat) (m : PyObj) (a : Arr2) : Arr2 :=
  match m with
  | PyInt0 => arr2_scale 0 a
  | NdArr x => arr2_dot n x a
  end.

(** the poles of the g-basis at [kx] picked by a mask: energy and index *)
Definition poles (self : t) (kx : nat) (p : Qc -> bool) : list (Qc * nat) :=
  mask_sel (zip (mo_energy_g self kx) (seq 0 (length (mo_energy_g self kx))))
           (mo_occ_g self kx) p.

(** [fp = binom(n, moms)] and [fh = fp * (-1) ** moms] *)
Definition fp (n t : nat) : Qc := Qc_of_nat (binom n t).
Definition fh (n t : nat) : Qc := fp n t * sign t.

(** some entry of [np.power.outer(e, n - moms)] is [inf]: a pole of energy
    [0.0] under a negative exponent *)
Definition inf_power (self : t) (ps : list (Qc * nat)) (n : nat) : bool :=
  existsb (fun t : nat =>
             existsb (fun ex : Qc * nat =>
                        bool_decide (zpow ex.1 (Z.of_nat n - Z.of_nat t) = None)) ps)
          (seq 0 (S (nmom_max self))).

(** [einsum("t,kt,ktpq->pq", f, np.power.outer(e, n - moms), eta[mask])] for
    [f = fp] and for [f = fh].  The exponent of a power is negative for
    [t > n], where [f[t] = 0.0]: a power [inf] meets the weight [0.0], their
    product is [nan], and the sums over [t] and over the poles carry it to
    every entry of the result. *)
Definition se_term (self : t) (f : nat -> nat -> Qc) (ps : list (Qc * nat))
    (eta_kq : Arr4) (n : nat) : FMat :=
  if bool_decide (0 < nmo self)%nat && inf_power self ps n then NaN
  else Finite (fun p q =>
    csum (S (nmom_max self)) (fun t =>
      csum_list ps (fun ex =>
        Cscale (f n t * default 0 (zpow ex.1 (Z.of_nat n - Z.of_nat t)))
               (eta_kq ex.2 t p q)))).

Section build_se_moments.
Variable self : t.
Variable moments_dd : Moments.
Abbreviation kp := (kpts self).
Abbreviation pt := (nat * kvec (kpts self))%type.

(** [eta_aux += np.dot(moments_dd[q, kb, n], Lia[kj, kb].T.conj())] *)
Definition eta_aux_body (n : nat) (q : pt) (acc : PyObj) (kb : pt) : Result PyObj :=
  kj ← related self q.2 kb.2;
  lia ← getitem (Lia self) (kj, kb.1);
  mret (obj_iadd acc (obj_dot (nov self kj kb.1) (moments_dd !!! (q.1, kb.1, n))
                              (arr2_H lia))).

(** [einsum("Pp,Qq,PQ->pq", Lp, Lp.conj(), eta_aux) * 2.0 / nkpts] for
    [Lp = Lpx[kp, kx][:, :, x]] *)
Definition rotate (na : nat) (lpx : Arr3) (x : nat) (eta_aux : Arr2) : Arr2 :=
  arr2_divr
    (arr2_scale two
       (fun p q => csum na (fun P => csum na (fun Q =>
          (lpx P p x * Cconj (lpx Q q x) * eta_aux P Q)%C))))
    (nk self).

(** [eta[kp, q][x, n] += ...] *)
Definition eta_x_body (n : nat) (q k : pt) (kx : nat) (eta_aux : Arr2)
    (eta : Eta) (x : nat) : Result Eta :=
  lpx ← getitem (Lpx self) (k.1, kx);
  e ← getitem eta (k.1, q.1);
  let r := rotate (naux self q.1) lpx x eta_aux in
  mret (<[(k.1, q.1) :=
           fun x' n' p q' =>
             if bool_decide (x' = x /\ n' = n) then (e x' n' p q' + r p q')%C
             else e x' n' p q']> eta).

Definition eta_kp_body (n : nat) (q : pt) (eta_aux : Arr2) (eta : Eta) (k : pt)
  : Result Eta :=
  kx ← related self q.2 k.2;
  let eta1 := match eta !! (k.1, q.1) with
              | Some _ => eta
              | None => <[(k.1, q.1) := zeros4]> eta
              end in
  for_each (eta_x_body n q k kx eta_aux) (seq 0 (length (mo_energy_g self kx))) eta1.

Definition eta_q_body (n : nat) (eta : Eta) (q : pt) : Result Eta :=
  eta_aux ← for_each (eta_aux_body n q) (enumerate_kpts kp) PyInt0;
  for_each (eta_kp_body n q
              (match eta_aux with PyInt0 => zeros2 | NdArr a => a end))
           (enumerate_kpts kp) eta.

Definition eta_n_body (eta : Eta) (n : nat) : Result Eta :=
  for_each (eta_q_body n) (enumerate_kpts kp) eta.

(** the first stage: the moments in (aux|aux), rotated to (mo|mo) *)
Definition rotate_dd_moments : Result Eta :=
  for_each eta_n_body (seq 0 (S (nmom_max self))) ∅.

(** the second stage: the convolution over the poles *)
Definition convolve_body (eta : Eta) (n : nat) (st : SEMoments * SEMoments)
    (x : pt * pt) : Result (SEMoments * SEMoments) :=
  let '((q, qpt), (k, kptp)) := x in
  kx ← related self qpt kptp;
  e ← getitem eta (k, q);
  let to := se_term self fh (poles self kx is_occ) e n in
  let tv := se_term self fp (poles self kx is_vir) e n in
  mret (<[(k, n) := fmat_add (st.1 !!! (k, n)) to]> st.1,
        <[(k, n) := fmat_add (st.2 !!! (k, n)) tv]> st.2).

Definition convolve_n_body (eta : Eta) (st : SEMoments * SEMoments) (n : nat)
  : Result (SEMoments * SEMoments) :=
  for_each (convolve_body eta n) (loop2 kp) st.

Definition construct_se_moments (eta : Eta) : Result (SEMoments * SEMoments) :=
  for_each (convolve_n_body eta) (seq 0 (S (nmom_max self))) (∅, ∅).

(** the third stage: the Hermiticity check and the symmetrisation *)

(** [np.allclose(m, m.T.conj())]: [nan] is close to nothing *)
Definition close_to_adjoint (m : FMat) : bool :=
  match m with
  | Finite a => allclose (nmo self) (nmo self) a (arr2_H a)
  | NaN => false
  end.

(** [0.5 * (m + m.T.conj())] *)
Definition symmetrize (m : FMat) : FMat :=
  match m with
  | Finite a => Finite (arr2_scale half (arr2_add a (arr2_H a)))
  | NaN => NaN
  end.

Definition hermitian_body (st : SEMoments * SEMoments) (kn : nat * nat)
  : Result (SEMoments * SEMoments) :=
  let mo := st.1 !!! kn in
  let mv := st.2 !!! kn in
  if negb (close_to_adjoint mo)
  then Err (ValueError "moments_occ not hermitian")
  else if negb (close_to_adjoint mv)
  then Err (ValueError "moments_vir not hermitian")
  else mret (<[kn := symmetrize mo]> st.1, <[kn := symmetrize mv]> st.2).

(** the pairs [(k, n)] of the two nested loops, in order *)
Definition kn_pairs : list (nat * nat) :=
  k ← seq 0 (nkpts kp); n ← seq 0 (S (nmom_max self)); [(k, n)].

Definition check_hermitian (st : SEMoments * SEMoments)
  : Result (SEMoments * SEMoments) :=
  for_each hermitian_body kn_pairs st.

Definition build_se_moments : Result (SEMoments * SEMoments) :=
  eta ← rotate_dd_moments;
  st ← construct_se_moments eta;
  check_hermitian st.

End build_se_moments.

End TDA.

(** ** Loops of in-place additions into an object array *)

Definition ok_val {A : Type} (r : Result A) : option A :=
  match r with
  | Ok a => Some a
  | Err _ => None
  end.

Section accumulate.
Context {K : Type} `{Countable K} {X V A : Type} `{Inhabited V}.
Variables (iadd : V -> A -> V) (key : X -> K) (val : gmap K V -> X -> Result A).

(** the shape of a loop body: compute an array, add it to one entry *)
Definition acc_body (m : gmap K V) (x : X) : Result (gmap K V) :=
  v ← val m x;
  mret (<[key x := iadd (m !!! key x) v]> m).

(** the arrays that the elements [xs] add to the entry [k], in order *)
Definition contribs (m : gmap K V) (k : K) (xs : list X) : list A :=
  omap (fun x => if decide (key x = k) then ok_val (val m x) else None) xs.
End accumulate.

(** ** The integral container ([momentGW/pbc/ints.py]) *)

(** One item of [with_df.sr_loop((ki, kj), compact=False)]: the real and the
    imaginary part of [rows] auxiliary rows, and the sign that is [-1] for a
    low-dimensional block. *)
Record Chunk : Type := {
  chunk_rows : nat;
  chunk_re : nat -> nat -> nat -> Qc;
  chunk_im : nat -> nat -> nat -> Qc;
  chunk_sign : Z
}.

(** the orbital blocks of a compression key: ["o"], ["v"], ["i"], ["a"] *)
Inductive Orb : Type := orb_o | orb_v | orb_i | orb_a.

(** a rotation [rot[q]]: its columns, so that [shape[-1]] is their number *)
Abbreviation Rot := (list Arr1).

Definition rot_entry (r : Rot) (l c : nat) : C := (r !!! c) l.

(** [np.eye(n)] *)
Definition eye (n : nat) : Rot :=
  map (fun j : nat => fun l : nat => if bool_decide (l = j) then C1 else C0) (seq 0 n).

(** [einsum("Lpq,pi,qj->Lij", b, ci.conj(), cj)] over [n] orbitals *)
Definition einsum_Lpq_pi_qj (n : nat) (b : Arr3) (ci cj : Arr2) : Arr3 :=
  fun l i j => csum n (fun p => csum n (fun q =>
    (b l p q * Cconj (ci p i) * cj q j)%C)).

(** [lib.prange(start, stop, step)]: the blocks [(p0, p1)] *)
Definition prange (start stop step : nat) : list (nat * nat) :=
  map (fun i => ((start + i * step)%nat, Nat.min (start + (i + 1) * step) stop))
      (seq 0 ((stop - start + step - 1) / step)).

Inductive Basis : Type := ao | mo.

Module KIntegrals.

(** the four families of [self._blocks]; [None] before they are built *)
Record Blocks : Type := {
  Lpq : option (gmap (nat * nat) Arr3);
  Lpx : option (gmap (nat * nat) Arr3);
  Lia : option (gmap (nat * nat) Arr2);
  Lai : option (gmap (nat * nat) Arr2)
}.

(** a [KIntegrals] object.  [compression] is
    [sorted(self._parse_compression())] and [eigh] is [np.linalg.eigh], both
    from outside these sources; [madelung_value] is what
    [tools.pbc.madelung] returns for the cell and [ovlp_ao] the overlap
    matrices of the cell. *)
Record t : Type := {
  kpts : KPoints;
  with_df : nat -> nat -> list Chunk;
  naux_full : nat;
  nmo : nat;
  nmo_g : nat -> nat;
  mo_coeff : nat -> Arr2;
  mo_coeff_g : nat -> Arr2;
  mo_coeff_w : nat -> Arr2;
  mo_occ : nat -> list Qc;
  mo_occ_w : nat -> list Qc;
  compression : list (Orb * Orb);
  compression_tol : Qc;
  store_full : bool;
  eigh : Arr2 -> list (Qc * Arr1);
  madelung_value : Qc;
  ovlp_ao : nat -> Arr2;
  _rot : option (list (option Rot));
  _blocks : Blocks;
  _madelung : option Qc;
  _madeling : option Qc
}.

Definition set_rot (self : t) (r : option (list (option Rot))) : t :=
  {| kpts := kpts self; with_df := with_df self; naux_full := naux_full self;
     nmo := nmo self; nmo_g := nmo_g self; mo_coeff := mo_coeff self;
     mo_coeff_g := mo_coeff_g self; mo_coeff_w := mo_coeff_w self;
     mo_occ := mo_occ self; mo_occ_w := mo_occ_w self;
     compression := compression self; compression_tol := compression_tol self;
     store_full := store_full self; eigh := eigh self;
     madelung_value := madelung_value self; ovlp_ao := ovlp_ao self;
     _rot := r; _blocks := _blocks self;
     _madelung := _madelung self; _madeling := _madeling self |}.

Definition set_blocks (self : t) (b : Blocks) : t :=
  {| kpts := kpts self; with_df := with_df self; naux_full := naux_full self;
     nmo := nmo self; nmo_g := nmo_g self; mo_coeff := mo_coeff self;
     mo_coeff_g := mo_coeff_g self; mo_coeff_w := mo_coeff_w self;
     mo_occ := mo_occ self; mo_occ_w := mo_occ_w self;
     compression := compression self; compression_tol := compression_tol self;
     store_full := store_full self; eigh := eigh self;
     madelung_value := madelung_value self; ovlp_ao := ovlp_ao self;
     _rot := _rot self; _blocks := b;
     _madelung := _madelung self; _madeling := _madeling self |}.

Definition set_madeling (self : t) (v : option Qc) : t :=
  {| kpts := kpts self; with_df := with_df self; naux_full := naux_full self;
     nmo := nmo self; nmo_g := nmo_g self; mo_coeff := mo_coeff self;
     mo_coeff_g := mo_coeff_g self; mo_coeff_w := mo_coeff_w self;
     mo_occ := mo_occ self; mo_occ_w := mo_occ_w self;
     compression := compression self; compression_tol := compression_tol self;
     store_full := store_full self; eigh := eigh self;
     madelung_value := madelung_value self; ovlp_ao := ovlp_ao self;
     _rot := _rot self; _blocks := _blocks self;
     _madelung := _madelung self; _madeling := v |}.

Definition set_store_full (self : t) (b : bool) : t :=
  {| kpts := kpts self; with_df := with_df self; naux_full := naux_full self;
     nmo := nmo self; nmo_g := nmo_g self; mo_coeff := mo_coeff self;
     mo_coeff_g := mo_coeff_g self; mo_coeff_w := mo_coeff_w self;
     mo_occ := mo_occ self; mo_occ_w := mo_occ_w self;
     compression := compression self; compression_tol := compression_tol self;
     store_full := b; eigh := eigh self;
     madelung_value := madelung_value self; ovlp_ao := ovlp_ao self;
     _rot := _rot self; _blocks := _blocks self;
     _madelung := _madelung self; _madeling := _madeling self |}.

Definition nk (self : t) : Qc := Qc_of_nat (nkpts (kpts self)).

(** the properties [nocc_w] and [nvir_w] *)
Definition nocc_w (self : t) (k : nat) : nat :=
  length (filter (fun o => is_occ o = true) (mo_occ_w self k)).
Definition nvir_w (self : t) (k : nat) : nat :=
  length (filter (fun o => is_vir o = true) (mo_occ_w self k)).

(** the property [naux]: the number of auxiliary functions after the
    compression, for every momentum transfer *)
Definition naux (self : t) : list nat :=
  match _rot self with
  | None => replicate (nkpts (kpts self)) (naux_full self)
  | Some rot =>
      (fun c : option Rot =>
         match c with
         | Some r => length r
         | None => naux_full self
         end) <$> rot
  end.

Definition naux_at (self : t) (q : nat) : Result nat :=
  match naux self !! q with
  | Some n => Ok n
  | None => Err IndexError
  end.

(** the property [madelung] with its cache: the value returned and the
    object after the read *)
Definition madelung (self : t) : option Qc * t :=
  let self' := match _madelung self with
               | None => set_madeling self (Some (madelung_value self))
               | Some _ => self
               end in
  (_madelung self', self').

(** *** Reading the provider *)

(** the head of every loop over [sr_loop]: the test of the sign, the
    complex block, its reshape to [naux_full] rows, the new [(b0, b1)] *)
Definition next_block (self : t) (b1 : nat) (c : Chunk) : Result (nat * nat * Arr3) :=
  if bool_decide (chunk_sign c = (-1)%Z)
  then Err (NotImplementedError "Low dimensional integrals")
  else if bool_decide (chunk_rows c = naux_full self)
  then Ok (b1, (b1 + naux_full self)%nat,
           fun l p q => Cri (chunk_re c l p q) (chunk_im c l p q))
  else Err (ValueError "cannot reshape array").

(** an item of [sr_loop((ki, kj))] arrives: the event, then the head of the
    loop body *)
Definition yield_block (self : t) (ki kj : nat) (b1 : nat) (c : Chunk)
  : Run (nat * nat * Arr3) :=
  mkRun [sr_block ki kj (chunk_sign c)] (next_block self b1 c).

(** The slice [x[b0:b1]] of an array [x] of [naux_full] rows, for the
    [b0, b1 = b1, b1 + naux_full] of the loops over the blocks: numpy ends
    the slice with the array, so it has the [naux_full] rows of the block
    when [b1 <= naux_full], and no row otherwise. *)

(** a contraction over the auxiliary index of a block with [x[b0:b1]]:
    numpy's [einsum] takes operands of as many rows, and repeats the single
    row of a block of one row as often as the slice has rows *)
Definition check_slice (self : t) (b1 : nat) : Result unit :=
  if bool_decide (b1 <= naux_full self \/ naux_full self = 1)%nat then Ok tt
  else Err (ValueError "operands could not be broadcast together").

(** [x[b0:b1] = y] and [x[b0:b1] += y], where [y] has the rows of the
    block: numpy accepts a slice with as many rows, and broadcasts a single
    row to any slice *)
Definition check_assign (self : t) (b1 : nat) : Result unit :=
  if bool_decide (b1 <= naux_full self \/ naux_full self = 1)%nat then Ok tt
  else Err (ValueError "could not broadcast").

(** [x[b0:b1] = y] and [x[b0:b1] += y] on the first index of an array of
    [n] rows *)
Definition set_rows3 (n b0 b1 : nat) (x y : Arr3) : Arr3 :=
  fun l p q => if bool_decide (b0 <= l < Nat.min b1 n)%nat
               then y (l - b0)%nat p q else x l p q.
Definition add_rows1 (n b0 b1 : nat) (x y : Arr1) : Arr1 :=
  fun l => if bool_decide (b0 <= l < Nat.min b1 n)%nat
           then (x l + y (l - b0)%nat)%C else x l.

(** [x[b0:b1]] as an operand of a contraction with a block, for an array
    [x] of [n] rows: the rows of the slice; where the slice has ended there
    is no row, and nothing to add to the sum *)
Definition slice1 (n b0 : nat) (x : Arr1) : Arr1 :=
  fun l => if bool_decide (b0 + l < n)%nat then x (b0 + l)%nat else C0.
Definition slice2 (n b0 : nat) (x : Arr2) : Arr2 :=
  fun l c => if bool_decide (b0 + l < n)%nat then x (b0 + l)%nat c else C0.
Definition slice3 (n b0 : nat) (x : Arr3) : Arr3 :=
  fun l p q => if bool_decide (b0 + l < n)%nat then x (b0 + l)%nat p q else C0.

(** [tmp.reshape(n, -1)] of an array with [n] rows: numpy cannot tell the
    other dimension of an array without elements *)
Definition reshape_rows (n : nat) (tmp : Arr2) : Result Arr2 :=
  if bool_decide (n = 0%nat) then Err (ValueError "cannot reshape array of size 0")
  else Ok tmp.

(** [x += y] for a matrix [x] of shape [sx] and a matrix [y] of shape [sy]:
    numpy adds entry by entry where the shapes agree, repeats the single row
    or the single column of [y], and raises otherwise *)
Definition iadd2 (sx sy : nat * nat) (x y : Arr2) : Result Arr2 :=
  if bool_decide ((sy.1 = sx.1 \/ sy.1 = 1%nat) /\ (sy.2 = sx.2 \/ sy.2 = 1%nat))
  then Ok (fun l c => (x l c + y (if bool_decide (sy.1 = sx.1) then l else 0%nat)
                                 (if bool_decide (sy.2 = sx.2) then c else 0%nat))%C)
  else Err (ValueError "operands could not be broadcast together").

(** *** [get_compression_metric] *)

(** [c[:, mask]]: the selected columns and their number *)
Definition select_cols (c : Arr2) (occ : list Qc) (p : Qc -> bool) : Arr2 * nat :=
  let idx := mask_sel (seq 0 (length occ)) occ p in
  (fun r i => c r (idx !!! i), length idx).

Definition orbitals (self : t) (o : Orb) (k : nat) : Arr2 * nat :=
  match o with
  | orb_o => select_cols (mo_coeff self k) (mo_occ self k) is_occ
  | orb_v => select_cols (mo_coeff self k) (mo_occ self k) is_vir
  | orb_i => select_cols (mo_coeff_w self k) (mo_occ_w self k) is_occ
  | orb_a => select_cols (mo_coeff_w self k) (mo_occ_w self k) is_vir
  end.

(** [loop(2)] as this file uses it: the indices of the tuples *)
Definition loop2_idx (kp : KPoints) : list (nat * nat) :=
  (fun x : (nat * kvec kp) * (nat * kvec kp) => (x.1.1, x.2.1)) <$> loop2 kp.

Section compression.
Variable self : t.

(** [Lxy[b0:b1] = einsum(...).reshape(b1 - b0, -1)] *)
Definition metric_chunk (key : Orb * Orb) (ki kj : nat) (st : nat * Arr2) (c : Chunk)
  : Run (nat * Arr2) :=
  '(b0, b1, block) ← yield_block self ki kj st.1 c;
  let ci := orbitals self key.1 ki in
  let cj := orbitals self key.2 kj in
  let tmp := einsum_Lpq_pi_qj (nmo self) block ci.1 cj.1 in
  tmp ← quiet (reshape_rows (b1 - b0)
                 (fun l x => tmp l (x / cj.2)%nat (x mod cj.2)%nat));
  _ ← quiet (check_assign self b1);
  mret (b1, fun l x => if bool_decide (b0 <= l < Nat.min b1 (naux_full self))%nat
                       then tmp (l - b0)%nat x
                       else st.2 l x).

(** [prod[q] += np.dot(Lxy, Lxy.T.conj()) / len(self.kpts)] *)
Definition metric_body (key : Orb * Orb) (prod : gmap nat Arr2) (x : nat * nat)
  : Run (gmap nat Arr2) :=
  let '(q, ki) := x in
  vki ← quiet (kpt_at (kpts self) ki);
  vq ← quiet (kpt_at (kpts self) q);
  kj ← quiet (member_exn (kpts self)
                (wrap_around (kpts self) (ksub (kpts self) vki vq)));
  '(_, Lxy) ← for_each_run (metric_chunk key ki kj) (with_df self ki kj)
                           (0%nat, zeros2);
  let nxy := ((orbitals self key.1 ki).2 * (orbitals self key.2 kj).2)%nat in
  mret (<[q := arr2_add (prod !!! q)
                 (arr2_divr (arr2_dot nxy Lxy (arr2_H Lxy)) (nk self))]> prod).

Definition metric_key (prod : gmap nat Arr2) (key : Orb * Orb) : Run (gmap nat Arr2) :=
  for_each_run (metric_body key) (loop2_idx (kpts self)) prod.

(** the accumulated metric [prod] *)
Definition compression_metric : Run (gmap nat Arr2) :=
  for_each_run metric_key (compression self) ∅.

(** [e, v = eigh(prod[q]); mask = np.abs(e) > tol; v[:, mask]] *)
Definition retained (m : Arr2) : Rot :=
  (filter (fun ev : Qc * Arr1 => compression_tol self < Qcabs.Qcabs ev.1) (eigh self m)).*2.

(** the last loop: a rotation of full rank is replaced by [None] *)
Definition truncate (r : Rot) : option Rot :=
  if bool_decide (length r = naux_full self) then None else Some r.

Definition get_compression_metric : Run (option (list (option Rot))) :=
  match compression self with
  | [] => mret None
  | _ =>
      prod ← compression_metric;
      mret (Some ((fun q => truncate (retained (prod !!! q))) <$> loop1 (kpts self)))
  end.

End compression.

(** *** [transform] *)

(** the dictionaries [Lpq], [Lpx], [Lia], [Lai] under construction and the
    variable [q], which the body of the inner loop reassigns *)
Record TState : Type := {
  tq : nat;
  tLpq : gmap (nat * nat) Arr3;
  tLpx : gmap (nat * nat) Arr3;
  tLia : gmap (nat * nat) Arr2;
  tLai : gmap (nat * nat) Arr2
}.

Definition set_q (st : TState) (q : nat) : TState :=
  {| tq := q; tLpq := tLpq st; tLpx := tLpx st; tLia := tLia st; tLai := tLai st |}.

(** [for q in loop(1): if rot[q] is None: rot[q] = np.eye(naux_full)], in
    place on the array of rotations *)
Definition fill_rot (self : t) (rot : list (option Rot)) : list (option Rot) :=
  imap (fun i c => if bool_decide (i < nkpts (kpts self))%nat
                   then Some (default (eye (naux_full self)) c) else c) rot.

(** [rot[q]] in the loops: the identity of the [defaultdict] when there is
    no compression *)
Definition rot_get (self : t) (q : nat) : Result Rot :=
  match _rot self with
  | None => Ok (eye (naux_full self))
  | Some l =>
      match l !! q with
      | Some (Some r) => Ok r
      | Some None => Err TypeError
      | None => Err IndexError
      end
  end.

(** [einsum("L...,LQ->Q...", block, rot[q][b0:b1].conj())] *)
Definition compress (self : t) (block : Arr3) (r : Rot) (b0 : nat) : Arr3 :=
  fun Q p q => csum (naux_full self) (fun l =>
    (block l p q * Cconj (slice2 (naux_full self) b0 (rot_entry r) l Q))%C).

(** [c[:, :n]] and [c[:, n:]] *)
Definition cols_upto (c : Arr2) : Arr2 := c.
Definition cols_from (n : nat) (c : Arr2) : Arr2 := fun p a => c p (n + a)%nat.

(** [tmp.reshape(naux, -1)] of [tmp[L, i, a]] with [nv] values of [a], and
    the same after [tmp.swapaxes(1, 2)] of [tmp[L, a, i]] *)
Definition flatten_ia (nv : nat) (tmp : Arr3) : Arr2 :=
  fun l x => tmp l (x / nv)%nat (x mod nv)%nat.
Definition flatten_ai (nv : nat) (tmp : Arr3) : Arr2 :=
  fun l x => tmp l (x mod nv)%nat (x / nv)%nat.

Section transform.
Variable self : t.
Variables do_Lpq do_Lpx do_Lia : bool.

(** the body of the first loop over the blocks of the pair [(ki, kj)] *)
Definition pass_chunk (q ki kj : nat) (st : nat * Arr3 * Arr3 * Arr2) (c : Chunk)
  : Run (nat * Arr3 * Arr3 * Arr2) :=
  let '(b1_old, Lpq_k, Lpx_k, Lia_k) := st in
  '(b0, b1, block) ← yield_block self ki kj b1_old c;
  Lpq_k' ← quiet (if do_Lpq
                  then (_ ← check_assign self b1;
                        mret (set_rows3 (naux_full self) b0 b1 Lpq_k
                                (einsum_Lpq_pi_qj (nmo self) block
                                   (mo_coeff self ki) (mo_coeff self kj))))
                  else mret Lpq_k);
  r ← quiet (rot_get self q);
  _ ← quiet (check_slice self b1);
  let block_comp := compress self block r b0 in
  let Lpx_k' :=
    if do_Lpx
    then arr3_add Lpx_k (einsum_Lpq_pi_qj (nmo self) block_comp
                           (mo_coeff self ki) (mo_coeff_g self kj))
    else Lpx_k in
  Lia_k' ← quiet (if do_Lia
                  then (n ← naux_at self q;
                        tmp ← reshape_rows n
                                (flatten_ia (nvir_w self kj)
                                   (einsum_Lpq_pi_qj (nmo self) block_comp
                                      (cols_upto (mo_coeff_w self ki))
                                      (cols_from (nocc_w self kj) (mo_coeff_w self kj))));
                        mret (arr2_add Lia_k tmp))
                  else mret Lia_k);
  mret (b1, Lpq_k', Lpx_k', Lia_k').

(** the body of the second loop, over the blocks of the pair [(kj, ki)]:
    [q] is the inverted transfer, and [Lai_k] has the [n0] rows and the
    [nocc_w[kj] * nvir_w[ki]] columns that it was given before the
    inversion, where [tmp] has [naux[q]] rows and [nocc_w[ki] * nvir_w[kj]]
    columns *)
Definition lai_chunk (n0 q ki kj : nat) (st : nat * Arr2) (c : Chunk)
  : Run (nat * Arr2) :=
  '(b0, b1, block) ← yield_block self kj ki st.1 c;
  r ← quiet (rot_get self q);
  _ ← quiet (check_slice self b1);
  let block_comp := compress self block r b0 in
  n ← quiet (naux_at self q);
  tmp ← quiet (reshape_rows n
                 (flatten_ai (nvir_w self kj)
                    (einsum_Lpq_pi_qj (nmo self) block_comp
                       (cols_from (nocc_w self kj) (mo_coeff_w self kj))
                       (cols_upto (mo_coeff_w self ki)))));
  Lai_k ← quiet (iadd2 (n0, (nocc_w self kj * nvir_w self ki)%nat)
                       (n, (nocc_w self ki * nvir_w self kj)%nat) st.2 tmp);
  mret (b1, Lai_k).

(** the rest of the body of the loop over [ki] when [do_Lia] holds: the
    inversion of [q], which stays in the state, and the [Lai] block *)
Definition lai_part (n0 : nat) (vq : kvec (kpts self)) (ki kj : nat)
    (Lpq1 Lpx1 : gmap (nat * nat) Arr3) (Lia1 Lai0 : gmap (nat * nat) Arr2)
  : Run TState :=
  q' ← quiet (member_exn (kpts self)
                (wrap_around (kpts self) (kneg (kpts self) vq)));
  '(_, Lai_k) ← for_each_run (lai_chunk n0 q' ki kj) (with_df self kj ki) (0%nat, zeros2);
  mret {| tq := q'; tLpq := Lpq1; tLpx := Lpx1; tLia := Lia1;
          tLai := <[(ki, kj) := Lai_k]> Lai0 |}.

(** the body of the loop over [ki]; [q] is read from, and written to, the
    state *)
Definition transform_pass (st : TState) (ki : nat) : Run TState :=
  let q := tq st in
  vq ← quiet (kpt_at (kpts self) q);
  vki ← quiet (kpt_at (kpts self) ki);
  kj ← quiet (member_exn (kpts self)
                (wrap_around (kpts self) (kadd (kpts self) vq vki)));
  n0 ← quiet (if do_Lpx || do_Lia then naux_at self q else mret 0%nat);
  '(_, Lpq_k, Lpx_k, Lia_k) ←
    for_each_run (pass_chunk q ki kj) (with_df self ki kj)
                 (0%nat, zeros3, zeros3, zeros2);
  let Lpq1 := if do_Lpq then <[(ki, kj) := Lpq_k]> (tLpq st) else tLpq st in
  let Lpx1 := if do_Lpx then <[(ki, kj) := Lpx_k]> (tLpx st) else tLpx st in
  if do_Lia
  then lai_part n0 vq ki kj Lpq1 Lpx1 (<[(ki, kj) := Lia_k]> (tLia st)) (tLai st)
  else mret {| tq := q; tLpq := Lpq1; tLpx := Lpx1; tLia := tLia st; tLai := tLai st |}.

(** the body of the loop over [q] *)
Definition transform_q (st : TState) (q : nat) : Run TState :=
  for_each_run transform_pass (loop1 (kpts self)) (set_q st q).

Definition transform_loops : Run TState :=
  for_each_run transform_q (loop1 (kpts self))
    {| tq := 0%nat; tLpq := ∅; tLpx := ∅; tLia := ∅; tLai := ∅ |}.

End transform.

(** the end of [transform]: the loops, then the families are stored *)
Definition transform_store (self1 : t) (dq do_Lpx do_Lia : bool) : t * Run unit :=
  if negb (dq || do_Lpx || do_Lia) then (self1, mret tt)
  else
    let r := transform_loops self1 dq do_Lpx do_Lia in
    match run_res r with
    | Err e => (self1, mkRun (run_log r) (Err e))
    | Ok st =>
        (set_blocks self1
           {| Lpq := if dq then Some (tLpq st) else Lpq (_blocks self1);
              Lpx := if do_Lpx then Some (tLpx st) else Lpx (_blocks self1);
              Lia := if do_Lia then Some (tLia st) else Lia (_blocks self1);
              Lai := if do_Lia then Some (tLai st) else Lai (_blocks self1) |},
         mkRun (run_log r) (Ok tt))
    end.

(** [transform(do_Lpq, do_Lpx, do_Lia)]: the object after the call, and the
    run of the call *)
Definition transform (self : t) (do_Lpq : option bool) (do_Lpx do_Lia : bool)
  : t * Run unit :=
  let dq := default (store_full self) do_Lpq in
  let m := match _rot self with
           | None => get_compression_metric self
           | Some r => mret (Some r)
           end in
  match run_res m with
  | Err e => (self, mkRun (run_log m) (Err e))
  | Ok None =>
      let '(self', r) := transform_store (set_rot self None) dq do_Lpx do_Lia in
      (self', mkRun (run_log m ++ run_log r) (run_res r))
  | Ok (Some rot) =>
      let self1 := set_rot self (Some (fill_rot self rot)) in
      if bool_decide (length rot < nkpts (kpts self))%nat
      then (self1, mkRun (run_log m) (Err IndexError))
      else
        let '(self', r) := transform_store self1 dq do_Lpx do_Lia in
        (self', mkRun (run_log m ++ run_log r) (run_res r))
  end.

(** *** [get_j] and [get_k] *)

(** [einsum("Lpq,pq->L", b, d)] *)
Definition einsum_Lpq_pq (n : nat) (b : Arr3) (d : Arr2) : Arr1 :=
  fun l => csum n (fun p => csum n (fun q => (b l p q * d p q)%C)).

(** [einsum("Lpq,L->pq", b, v)] over [na] auxiliary functions *)
Definition einsum_Lpq_L (na : nat) (b : Arr3) (v : Arr1) : Arr2 :=
  fun p q => csum na (fun l => (b l p q * v l)%C).

(** [einsum("Lpq,qr->Lrp", b, d)] *)
Definition einsum_Lpq_qr (n : nat) (b : Arr3) (d : Arr2) : Arr3 :=
  fun l r p => csum n (fun q => (b l p q * d q r)%C).

(** [einsum("Lrp,Lrs->ps", x, y)] over [na] auxiliary functions *)
Definition einsum_Lrp_Lrs (na n : nat) (x y : Arr3) : Arr2 :=
  fun p s => csum na (fun l => csum n (fun r => (x l r p * y l r s)%C)).

(** [einsum("kij,kpi,kqj->kpq", dm, c, c.conj())] at one [k] *)
Definition mo_to_ao (n : nat) (d c : Arr2) : Arr2 :=
  fun p q => csum n (fun i => csum n (fun j => (d i j * c p i * Cconj (c q j))%C)).

(** [einsum("kpq,kpi,kqj->kij", v, c.conj(), c)] at one [k] *)
Definition ao_to_mo (n : nat) (v c : Arr2) : Arr2 :=
  fun i j => csum n (fun p => csum n (fun q => (v p q * Cconj (c p i) * c q j)%C)).

(** [x[p0:p1]] on the first index *)
Definition rows1 (p0 : nat) (x : Arr1) : Arr1 := fun l => x (p0 + l)%nat.
Definition rows3 (p0 : nat) (x : Arr3) : Arr3 := fun l p q => x (p0 + l)%nat p q.

Definition arr1_add (a b : Arr1) : Arr1 := fun l => (a l + b l)%C.

(** the pairs of two nested loops over the mesh, the first index outer *)
Definition loop11 (kp : KPoints) : list (nat * nat) :=
  a ← loop1 kp; b ← loop1 kp; [(a, b)].

(** the property [Lpq] *)
Definition Lpq_prop (self : t) : Result (gmap (nat * nat) Arr3) :=
  match Lpq (_blocks self) with
  | Some d => Ok d
  | None => Err KeyError
  end.

Section get_jk.
Variable self : t.
Variable dm : nat -> Arr2.

(** **** [get_j], the path over the stored tensor *)

Definition j_fast_buf (buf : Arr1) (kk : nat) : Result Arr1 :=
  lpq ← Lpq_prop self;
  b ← getitem lpq (kk, kk);
  mret (arr1_add buf (einsum_Lpq_pq (nmo self) b (arr2_conj (dm kk)))).

Definition j_fast_vj (buf : Arr1) (_ : gmap nat Arr2) (ki : nat) : Result Arr2 :=
  lpq ← Lpq_prop self;
  b ← getitem lpq (ki, ki);
  mret (einsum_Lpq_L (naux_full self) b buf).

Definition get_j_fast : Result (gmap nat Arr2) :=
  buf ← for_each j_fast_buf (loop1 (kpts self)) zeros1;
  for_each (acc_body arr2_add (fun ki : nat => ki) (j_fast_vj buf))
           (loop1 (kpts self)) ∅.

(** **** [get_j], the path that reads the provider again *)

(** [buf[b0:b1] += einsum("Lpq,pq->L", block, dm[kk].conj())] *)
Definition j_stream_buf_chunk (d : Arr2) (st : nat * Arr1) (c : Chunk)
  : Result (nat * Arr1) :=
  '(b0, b1, block) ← next_block self st.1 c;
  _ ← check_assign self b1;
  mret (b1, add_rows1 (naux_full self) b0 b1 st.2
              (einsum_Lpq_pq (nmo self) block (arr2_conj d))).

Definition j_stream_buf (d : nat -> Arr2) (buf : Arr1) (kk : nat) : Result Arr1 :=
  '(_, buf') ← for_each (j_stream_buf_chunk (d kk)) (with_df self kk kk) (0%nat, buf);
  mret buf'.

(** [vj[ki] += einsum("Lpq,L->pq", block, buf[b0:b1])] *)
Definition j_stream_vj_chunk (buf : Arr1) (st : nat * Arr2) (c : Chunk)
  : Result (nat * Arr2) :=
  '(b0, b1, block) ← next_block self st.1 c;
  _ ← check_slice self b1;
  mret (b1, arr2_add st.2
              (einsum_Lpq_L (naux_full self) block (slice1 (naux_full self) b0 buf))).

Definition j_stream_vj (buf : Arr1) (vj : gmap nat Arr2) (ki : nat)
  : Result (gmap nat Arr2) :=
  '(_, v) ← for_each (j_stream_vj_chunk buf) (with_df self ki ki) (0%nat, vj !!! ki);
  mret (<[ki := v]> vj).

Definition get_j_stream (basis : Basis) : Result (gmap nat Arr2) :=
  let d := match basis with
           | mo => fun k => mo_to_ao (nmo self) (dm k) (mo_coeff self k)
           | ao => dm
           end in
  buf ← for_each (j_stream_buf d) (loop1 (kpts self)) zeros1;
  for_each (j_stream_vj buf) (loop1 (kpts self)) ∅.

(** [get_j(dm, basis)]: the matrix at every momentum point *)
Definition get_j (basis : Basis) : Result (nat -> Arr2) :=
  match store_full self, basis with
  | true, mo =>
      vj ← get_j_fast;
      mret (fun k => arr2_divr (vj !!! k) (nk self))
  | _, mo =>
      vj ← get_j_stream mo;
      mret (fun k => arr2_divr (ao_to_mo (nmo self) (vj !!! k) (mo_coeff self k))
                               (nk self))
  | _, ao =>
      vj ← get_j_stream ao;
      mret (fun k => arr2_divr (vj !!! k) (nk self))
  end.

(** **** [get_k], the path over the stored tensor *)

(** [buf[kk, ki] = einsum("Lpq,qr->Lrp", Lpq[ki, kk][p0:p1], dm[kk])] *)
Definition k_fast_buf (p0 : nat) (_ : gmap (nat * nat) Arr3) (x : nat * nat)
  : Result Arr3 :=
  let '(ki, kk) := x in
  lpq ← Lpq_prop self;
  b ← getitem lpq (ki, kk);
  mret (einsum_Lpq_qr (nmo self) (rows3 p0 b) (dm kk)).

(** [vk[ki] += einsum("Lrp,Lrs->ps", buf[kk, ki], Lpq[kk, ki][p0:p1])] *)
Definition k_fast_vk (p0 p1 : nat) (buf : gmap (nat * nat) Arr3)
    (_ : gmap nat Arr2) (x : nat * nat) : Result Arr2 :=
  let '(ki, kk) := x in
  lpq ← Lpq_prop self;
  b ← getitem lpq (kk, ki);
  mret (einsum_Lrp_Lrs (p1 - p0) (nmo self) (buf !!! (kk, ki)) (rows3 p0 b)).

Definition k_fast_block (vk : gmap nat Arr2) (p : nat * nat)
  : Result (gmap nat Arr2) :=
  let '(p0, p1) := p in
  buf ← for_each (acc_body (fun _ new : Arr3 => new)
                           (fun x : nat * nat => (x.2, x.1)) (k_fast_buf p0))
                 (loop11 (kpts self)) ∅;
  for_each (acc_body arr2_add (fun x : nat * nat => x.1) (k_fast_vk p0 p1 buf))
           (loop11 (kpts self)) vk.

Definition get_k_fast : Result (gmap nat Arr2) :=
  for_each k_fast_block (prange 0 (naux_full self) 240) ∅.

(** **** [get_k], the path that reads the provider again *)

(** [buf[ki, b0:b1] = einsum("Lpq,qr->Lrp", block, dm[kk])] *)
Definition k_stream_buf_chunk (d : Arr2) (st : nat * Arr3) (c : Chunk)
  : Result (nat * Arr3) :=
  '(b0, b1, block) ← next_block self st.1 c;
  _ ← check_assign self b1;
  mret (b1, set_rows3 (naux_full self) b0 b1 st.2 (einsum_Lpq_qr (nmo self) block d)).

Definition k_stream_buf (d : nat -> Arr2) (kk : nat) (buf : gmap nat Arr3) (ki : nat)
  : Result (gmap nat Arr3) :=
  '(_, b) ← for_each (k_stream_buf_chunk (d kk)) (with_df self ki kk)
                     (0%nat, buf !!! ki);
  mret (<[ki := b]> buf).

(** [vk[ki] += einsum("Lrp,Lrs->ps", buf[ki, b0:b1], block)] *)
Definition k_stream_vk_chunk (bufi : Arr3) (st : nat * Arr2) (c : Chunk)
  : Result (nat * Arr2) :=
  '(b0, b1, block) ← next_block self st.1 c;
  _ ← check_slice self b1;
  mret (b1, arr2_add st.2
              (einsum_Lrp_Lrs (naux_full self) (nmo self)
                 (slice3 (naux_full self) b0 bufi) block)).

Definition k_stream_vk (buf : gmap nat Arr3) (kk : nat) (vk : gmap nat Arr2) (ki : nat)
  : Result (gmap nat Arr2) :=
  '(_, v) ← for_each (k_stream_vk_chunk (buf !!! ki)) (with_df self kk ki)
                     (0%nat, vk !!! ki);
  mret (<[ki := v]> vk).

Definition k_stream_kk (d : nat -> Arr2) (vk : gmap nat Arr2) (kk : nat)
  : Result (gmap nat Arr2) :=
  buf ← for_each (k_stream_buf d kk) (loop1 (kpts self)) ∅;
  for_each (k_stream_vk buf kk) (loop1 (kpts self)) vk.

Definition get_k_stream (basis : Basis) : Result (gmap nat Arr2) :=
  let d := match basis with
           | mo => fun k => mo_to_ao (nmo self) (dm k) (mo_coeff self k)
           | ao => dm
           end in
  for_each (k_stream_kk d) (loop1 (kpts self)) ∅.

(** [get_ewald(dm, basis)]: with [basis="mo"] the overlap is a
    [defaultdict], which has no [conj] *)
Definition get_ewald (d : nat -> Arr2) (basis : Basis) : Result (nat -> Arr2) :=
  match basis with
  | mo => Err AttributeError
  | ao => Ok (fun k => ao_to_mo (nmo self) (d k) (ovlp_ao self k))
  end.

(** [get_k(dm, basis, ewald)] *)
Definition get_k (basis : Basis) (ewald : bool) : Result (nat -> Arr2) :=
  '(vk, d) ←
    match store_full self, basis with
    | true, mo =>
        vk ← get_k_fast;
        mret (fun k => arr2_divr (vk !!! k) (nk self), dm)
    | _, mo =>
        vk ← get_k_stream mo;
        mret (fun k => arr2_divr (ao_to_mo (nmo self) (vk !!! k) (mo_coeff self k))
                                 (nk self),
              fun k => mo_to_ao (nmo self) (dm k) (mo_coeff self k))
    | _, ao =>
        vk ← get_k_stream ao;
        mret (fun k => arr2_divr (vk !!! k) (nk self), dm)
    end;
  if ewald
  then (ew ← get_ewald d basis; mret (fun k => arr2_add (vk k) (ew k)))
  else mret vk.

End get_jk.

End KIntegrals.

(** ** The quasiparticle self-consistency kernel ([momentGW/qsgw.py]) *)

Abbreviation RVec := (nat -> Qc).
Abbreviation RMat := (nat -> nat -> Qc).

Definition Qcmax (a b : Qc) : Qc := if bool_decide (a <= b) then b else a.

(** [np.max(np.abs(a - b))] on matrices of shape [(n, n)] *)
Definition max_abs_diff (n : nat) (a b : RMat) : Qc :=
  foldr Qcmax 0
    (i ← seq 0 n; j ← seq 0 n; [Qcabs.Qcabs (a i j - b i j)]).

Module qsGW.

(** The [gw] object as the kernel sees it: its options, and what it gets
    from its collaborators (the mean field, the integrals, the inner solver,
    the pole representation, DIIS, [numpy]), whose arithmetic plays no part
    below.  [build_static_potential] and [project_basis] are among them. *)
Record t : Type := {
  name : string;
  polarizability : string;
  max_cycle : nat;
  max_cycle_qp : nat;
  conv_tol_qp : Qc;
  nmo : nat;
  Integrals : Type;
  Greens : Type;
  SelfEnergy : Type;
  Moments : Type;
  Diis : Type;
  ao2mo : Integrals;
  get_ovlp : RMat;
  get_hcore : RMat;
  make_rdm1 : RMat -> RMat;
  matmul : RMat -> RMat -> RMat;
  transpose : RMat -> RMat;
  mat_add : RMat -> RMat -> RMat;
  new_diis : Diis;
  diis_update : Diis -> RMat -> Diis * RMat;
  solver_kernel : RVec -> RMat -> nat -> option Integrals -> bool * Greens * SelfEnergy;
  self_energy_to_moments : SelfEnergy -> nat -> Moments * Moments;
  build_static_potential : RVec -> SelfEnergy -> RMat;
  project_basis : RMat -> RMat -> RMat -> RMat -> RMat;
  project_moments : Moments -> RMat -> RMat -> RMat -> Moments;
  get_fock : Integrals -> RMat -> RMat -> RMat;
  eigh : RMat -> RVec * RMat;
  check_convergence : RVec -> RVec -> Moments -> Moments -> Moments -> Moments -> bool
}.

(** the variables that the Fock loop updates *)
Record FockState (gw : t) : Type := {
  fs_dm : RMat;
  fs_mo_energy : RVec;
  fs_mo_coeff : RMat;
  fs_diis : Diis gw
}.
Arguments fs_dm {gw} f.
Arguments fs_mo_energy {gw} f.
Arguments fs_mo_coeff {gw} f.
Arguments fs_diis {gw} f.

Section kernel.
Variable gw : t.
Variable nmom_max : nat.

(** one pass of the body of the loop over [qp_cycle]: the new variables and
    [error] *)
Definition fock_iter (integrals : Integrals gw) (h1e se_qp mo_coeff_ref : RMat)
    (st : FockState gw) : FockState gw * Qc :=
  let fock := get_fock gw integrals (fs_dm st) h1e in
  let fock_eff := mat_add gw fock se_qp in
  let '(diis, fock_eff) := diis_update gw (fs_diis st) fock_eff in
  let '(mo_energy, u) := eigh gw fock_eff in
  let mo_coeff := matmul gw mo_coeff_ref u in
  let dm := make_rdm1 gw u in
  ({| fs_dm := dm; fs_mo_energy := mo_energy; fs_mo_coeff := mo_coeff;
      fs_diis := diis |},
   max_abs_diff (nmo gw) dm (fs_dm st)).

(** [for qp_cycle in range(1, max_cycle_qp + 1): ...; if error <
    conv_tol_qp: conv_qp = True; break]: the variables at the exit and
    [conv_qp] *)
Fixpoint fock_loop (integrals : Integrals gw) (h1e se_qp mo_coeff_ref : RMat)
    (cycles : list nat) (st : FockState gw) : FockState gw * bool :=
  match cycles with
  | [] => (st, false)
  | _ :: rest =>
      let '(st', error) := fock_iter integrals h1e se_qp mo_coeff_ref st in
      if bool_decide (error < conv_tol_qp gw) then (st', true)
      else fock_loop integrals h1e se_qp mo_coeff_ref rest st'
  end.

(** the variables of the loop over [cycle] *)
Record CycleState : Type := {
  cs_mo_energy : RVec;
  cs_mo_coeff : RMat;
  cs_dm : RMat;
  cs_diis : Diis gw;
  cs_gf : Greens gw;
  cs_se : SelfEnergy gw;
  cs_th : Moments gw;
  cs_tp : Moments gw
}.

(** the static potential of a cycle, after [diis.update] *)
Definition static_potential (ovlp mo_coeff_ref : RMat) (st : CycleState)
  : Diis gw * RMat :=
  let se_qp := build_static_potential gw (cs_mo_energy st) (cs_se st) in
  let se_qp := project_basis gw se_qp ovlp (cs_mo_coeff st) mo_coeff_ref in
  diis_update gw (cs_diis st) se_qp.

(** the Fock loop of a cycle *)
Definition cycle_fock (integrals : Integrals gw) (ovlp h1e mo_coeff_ref : RMat)
    (st : CycleState) : FockState gw * bool :=
  fock_loop integrals h1e (static_potential ovlp mo_coeff_ref st).2 mo_coeff_ref
    (seq 1 (max_cycle_qp gw))
    {| fs_dm := cs_dm st; fs_mo_energy := cs_mo_energy st;
       fs_mo_coeff := cs_mo_coeff st; fs_diis := new_diis gw |}.

(** the body of the loop over [cycle]: the new variables and [conv] *)
Definition cycle_body (integrals : Integrals gw) (ovlp h1e mo_coeff_ref : RMat)
    (st : CycleState) : Run (CycleState * bool) :=
  let diis := (static_potential ovlp mo_coeff_ref st).1 in
  let mo_energy_prev := cs_mo_energy st in
  let fs := (cycle_fock integrals ovlp h1e mo_coeff_ref st).1 in
  let conv_qp := (cycle_fock integrals ovlp h1e mo_coeff_ref st).2 in
  _ ← tell (log_info (if conv_qp then "QP loop converged."
                      else "QP loop failed to converge."));
  _ ← tell (call_solver (fs_mo_energy fs) (fs_mo_coeff fs));
  let '(_, gf, se) :=
    solver_kernel gw (fs_mo_energy fs) (fs_mo_coeff fs) nmom_max None in
  let '(th, tp) := self_energy_to_moments gw se nmom_max in
  let th := project_moments gw th ovlp (fs_mo_coeff fs) mo_coeff_ref in
  let tp := project_moments gw tp ovlp (fs_mo_coeff fs) mo_coeff_ref in
  let conv := check_convergence gw (fs_mo_energy fs) mo_energy_prev
                th (cs_th st) tp (cs_tp st) in
  mret ({| cs_mo_energy := fs_mo_energy fs; cs_mo_coeff := fs_mo_coeff fs;
           cs_dm := fs_dm fs; cs_diis := diis; cs_gf := gf; cs_se := se;
           cs_th := th; cs_tp := tp |}, conv).

(** [for cycle in range(1, max_cycle + 1): ...; if conv: break] *)
Fixpoint cycle_loop (integrals : Integrals gw) (ovlp h1e mo_coeff_ref : RMat)
    (cycles : list nat) (st : CycleState) : Run (CycleState * bool) :=
  match cycles with
  | [] => mret (st, false)
  | _ :: rest =>
      cycle_body integrals ovlp h1e mo_coeff_ref st ≫=
        (fun r : CycleState * bool =>
           if r.2 then quiet (Ok (r.1, true))
           else cycle_loop integrals ovlp h1e mo_coeff_ref rest r.1)
  end.

(** [kernel(gw, nmom_max, mo_energy, mo_coeff, integrals=integrals)] *)
Definition kernel (mo_energy : RVec) (mo_coeff : RMat)
    (integrals : option (Integrals gw))
  : Run (bool * Greens gw * SelfEnergy gw * RVec) :=
  _ ← tell (log_warn "qsGW is untested!");
  if bool_decide (polarizability gw = "drpa-exact")
  then quiet (Err (NotImplementedError
                     (name gw ++ " for polarizability=" ++ polarizability gw)))
  else
    integrals ← match integrals with
                | None => (_ ← tell call_ao2mo; mret (ao2mo gw))
                | Some i => mret i
                end;
    let mo_coeff_ref := mo_coeff in
    let ovlp := get_ovlp gw in
    let sc := matmul gw ovlp mo_coeff in
    let dm := make_rdm1 gw mo_coeff in
    let dm := matmul gw (matmul gw (transpose gw sc) dm) sc in
    let h1e := get_hcore gw in
    let h1e := matmul gw (matmul gw (transpose gw mo_coeff) h1e) mo_coeff in
    _ ← tell (call_solver mo_energy mo_coeff);
    let '(_, gf, se) := solver_kernel gw mo_energy mo_coeff nmom_max (Some integrals) in
    let '(th, tp) := self_energy_to_moments gw se nmom_max in
    cycle_loop integrals ovlp h1e mo_coeff_ref (seq 1 (max_cycle gw))
      {| cs_mo_energy := mo_energy; cs_mo_coeff := mo_coeff;
         cs_dm := dm; cs_diis := new_diis gw; cs_gf := gf;
         cs_se := se; cs_th := th; cs_tp := tp |} ≫=
      (fun r : CycleState * bool =>
         mret (r.2, cs_gf r.1, cs_se r.1, cs_mo_energy r.1)).

(** the variables after [k] passes of the Fock loop that none has left, and
    the [error] of the pass [k >= 1] *)
Fixpoint fock_iterate (integrals : Integrals gw) (h1e se_qp mo_coeff_ref : RMat)
    (k : nat) (st : FockState gw) : FockState gw :=
  match k with
  | O => st
  | S k' => (fock_iter integrals h1e se_qp mo_coeff_ref
               (fock_iterate integrals h1e se_qp mo_coeff_ref k' st)).1
  end.

Definition fock_error (integrals : Integrals gw) (h1e se_qp mo_coeff_ref : RMat)
    (k : nat) (st : FockState gw) : Qc :=
  (fock_iter integrals h1e se_qp mo_coeff_ref
     (fock_iterate integrals h1e se_qp mo_coeff_ref (k - 1) st)).2.

End kernel.

End qsGW.

(** ** The matrices of the quasiparticle self-consistency ([momentGW/qsgw.py]) *)

(** a finite sum of reals: the contraction of an [einsum] index of real
    arrays *)
Fixpoint qsum (n : nat) (f : nat -> Qc) : Qc :=
  match n with
  | O => 0
  | S k => qsum k f + f k
  end.

Module qsGW_methods.

(** [np.linalg.multi_dot((mo1.T, ovlp, mo2))] over [nao] atomic orbitals,
    as [(mo1.T @ ovlp) @ mo2]; [multi_dot] chooses the order of the two
    products by their cost *)
Definition multi_dot_T (nao : nat) (mo1 ovlp mo2 : RMat) : RMat :=
  fun p i => qsum nao (fun b => qsum nao (fun a => mo1 a p * ovlp a b) * mo2 b i).

(** [project_basis(matrix, ovlp, mo1, mo2)] on a matrix over the [n1]
    orbitals of [mo1]:
    [einsum("...pq,pi,qj->...ij", matrix, proj, proj)] *)
Definition project_basis (nao n1 : nat) (matrix ovlp mo1 mo2 : RMat) : RMat :=
  let proj := multi_dot_T nao mo1 ovlp mo2 in
  fun i j => qsum n1 (fun p => qsum n1 (fun q => matrix p q * proj p i * proj q j)).


End qsGW_methods.

(** ** The base class of the periodic solvers ([momentGW/pbc/base.py]) *)

Module BaseKGW.

(** a Green's function at one momentum point as [_gf_to_mo_energy] reads
    it: [gf.energy] and the rows of [gf.coupling] *)
Record Greens : Type := {
  energy : list Qc;
  coupling : list (list C)
}.










End BaseKGW.

(** the first index of a largest value of [l] *)
Definition first_max (l : list Qc) (a : nat) : Prop :=
  exists v, l !! a = Some v /\
    (forall j x, l !! j = Some x -> x <= v) /\
    (forall j x, l !! j = Some x -> (j < a)%nat -> x < v).



(** ** Counting what a run of the kernel does *)


Definition is_call_ao2mo (ev : Event) : bool :=
  match ev with
  | call_ao2mo => true
  | _ => false
  end.


(** the number of calls of [gw.ao2mo()] in a log *)
Definition ao2mo_calls (log : list Event) : nat :=
  length (filter (fun ev => is_call_ao2mo ev = true) log).

(** ** The integral container as the specification words it *)

(** the event of a low-dimensional block: [block[2] == -1] *)
Definition low_dimensional (ev : Event) : Prop :=
  match ev with
  | sr_block _ _ sign => sign = (-1)%Z
  | _ => False
  end.

(** a run stops at a low-dimensional block: its log has none, or it has one,
    the last event, and the run ends there with the [NotImplementedError]
    that the specification names [UnsupportedIntegralError] *)
Definition prompt {A : Type} (r : Run A) : Prop :=
  Forall (fun ev => ~ low_dimensional ev) (run_log r) \/
  exists l ev, run_log r = l ++ [ev] /\
    Forall (fun ev => ~ low_dimensional ev) l /\ low_dimensional ev /\
    run_res r = Err (NotImplementedError "Low dimensional integrals").

(** the calls that change a [KIntegrals] object *)
Inductive Call : Type :=
  | call_transform (do_Lpq : option bool) (do_Lpx do_Lia : bool)
  | read_madelung.

(** a sequence of calls on an object: the values that the reads of
    [madelung] return, in order, and the object at the end *)
Fixpoint calls (self : KIntegrals.t) (cs : list Call) : list (option Qc) * KIntegrals.t :=
  match cs with
  | [] => ([], self)
  | call_transform a b c :: rest => calls (KIntegrals.transform self a b c).1 rest
  | read_madelung :: rest =>
      let '(v, self') := KIntegrals.madelung self in
      let '(vs, self'') := calls self' rest in
      (v :: vs, self'')
  end.

(** the complex entries of a block *)
Definition chunk_block (c : Chunk) : Arr3 :=
  fun l p q => Cri (chunk_re c l p q) (chunk_im c l p q).

(** the tensor [(L|pq)] of the pair [(ki, kj)] as the provider holds it: its
    first block, and zero where it delivers none *)
Definition stream_block (self : KIntegrals.t) (ki kj : nat) : Arr3 :=
  match KIntegrals.with_df self ki kj with
  | c :: _ => chunk_block c
  | [] => zeros3
  end.

(** a block of [naux_full] rows that is not low-dimensional *)
Definition chunk_ok (self : KIntegrals.t) (c : Chunk) : Prop :=
  chunk_sign c <> (-1)%Z /\ chunk_rows c = KIntegrals.naux_full self.

(** the provider delivers the pair [(ki, kj)] in such blocks, and in one
    block at most unless there is one auxiliary function or none *)
Definition stream_ok (self : KIntegrals.t) (ki kj : nat) : Prop :=
  Forall (chunk_ok self) (KIntegrals.with_df self ki kj) /\
  ((length (KIntegrals.with_df self ki kj) <= 1)%nat \/
   (KIntegrals.naux_full self <= 1)%nat).

Section coulomb_exchange_spec.
Variable self : KIntegrals.t.
Variable dm : nat -> Arr2.

(** the full uncompressed tensor in the orbital basis *)
Definition Lpq_mo (ki kj : nat) : Arr3 :=
  einsum_Lpq_pi_qj (KIntegrals.nmo self) (stream_block self ki kj)
    (KIntegrals.mo_coeff self ki) (KIntegrals.mo_coeff self kj).

(** the Coulomb matrix: the direct contraction of the tensor with the
    density matrix, normalized by the number of mesh points *)
Definition coulomb_spec (k : nat) : Arr2 := fun i j =>
  Cdivr
    (csum (KIntegrals.naux_full self) (fun l =>
       (Lpq_mo k k l i j *
        csum (nkpts (KIntegrals.kpts self)) (fun kk =>
          csum (KIntegrals.nmo self) (fun a => csum (KIntegrals.nmo self) (fun b =>
            Lpq_mo kk kk l a b * Cconj (dm kk a b)))))%C))
    (KIntegrals.nk self).

(** the exchange matrix, likewise *)
Definition exchange_spec (k : nat) : Arr2 := fun i j =>
  Cdivr
    (csum (nkpts (KIntegrals.kpts self)) (fun kk =>
       csum (KIntegrals.naux_full self) (fun l =>
         csum (KIntegrals.nmo self) (fun b =>
           (csum (KIntegrals.nmo self) (fun a => Lpq_mo k kk l i a * dm kk a b)
            * Lpq_mo kk k l b j)%C))))
    (KIntegrals.nk self).

End coulomb_exchange_spec.

(** every stored block of [Lpq] is the tensor of its pair, which the
    provider delivers in blocks that the loops accept *)
Definition Lpq_stored (self : KIntegrals.t) (d : gmap (nat * nat) Arr3) : Prop :=
  forall ki kj v, d !! (ki, kj) = Some v ->
    stream_ok self ki kj /\
    forall l p r, (l < KIntegrals.naux_full self)%nat ->
      v l p r = Lpq_mo self ki kj l p r.

(** ** The response moments as the specification words them *)

Definition arr_of (o : PyObj) : Arr2 :=
  match o with
  | PyInt0 => zeros2
  | NdArr a => a
  end.

Definition block (d : gmap (nat * nat) Arr2) (k : nat * nat) : Arr2 :=
  default zeros2 (d !! k).

Section dd_moments_spec.
Variable self : TDA.t.
Abbreviation kp := (TDA.kpts self).
Abbreviation pt := (nat * kvec (TDA.kpts self))%type.

(** the index of the point related to [k] by [q] *)
Definition rel (q k : pt) : nat :=
  default 0%nat (member kp (wrap_around kp (ksub kp k.2 q.2))).

(** order 0: the [Lia] block at the point related to [kb] by [q], divided by
    the number of mesh points *)
Definition dd_zeroth (q kb : pt) : Arr2 :=
  arr2_divr (block (TDA.Lia self) (rel q kb, kb.1)) (TDA.nk self).

(** (i) the previous moment times the outer difference of the virtual and
    occupied energies *)
Definition dd_energy_term (prev : Arr2) (q kb : pt) : Arr2 :=
  arr2_mul_row prev
    (direct_sum_ai
       (mask_sel (TDA.mo_energy_w self kb.1) (TDA.mo_occ_w self kb.1) is_vir)
       (mask_sel (TDA.mo_energy_w self (rel q kb)) (TDA.mo_occ_w self (rel q kb)) is_occ)).

(** (ii) the previous moment at [(q, ka)] against the conjugate transpose of
    [Lia] and the conjugate of [Lai], times [2 / nk] *)
Definition dd_coupling_term (prev_a : Arr2) (q ka kb : pt) : Arr2 :=
  arr2_divr
    (arr2_scale two
       (arr2_dot (TDA.naux self q.1)
          (arr2_dot (TDA.nov self (rel q ka) ka.1) prev_a
             (arr2_H (block (TDA.Lia self) (rel q ka, ka.1))))
          (arr2_conj (block (TDA.Lai self) (rel q kb, kb.1)))))
    (TDA.nk self).

(** the points [ka] that make [(q, ka, kb)] a momentum-conserving triple,
    for a conserving pair [(q, kb)] *)
Definition partners (q : pt) : list pt :=
  filter (fun ka => conserving kp q ka = true) (enumerate_kpts kp).

(** order [n >= 1], from the moments [m] of order [n - 1] *)
Definition dd_order (m : gmap (nat * nat * nat) PyObj) (n : nat) (q kb : pt) : Arr2 :=
  fold_left arr2_add
    (map (fun ka => dd_coupling_term (arr_of (m !!! (q.1, ka.1, (n - 1)%nat))) q ka kb)
         (partners q))
    (dd_energy_term (arr_of (m !!! (q.1, kb.1, (n - 1)%nat))) q kb).

(** the loop bodies of [build_dd_moments] read as in-place additions *)
Definition key2 (i : nat) (x : pt * pt) : nat * nat * nat := (x.1.1, x.2.1, i).
Definition key3 (i : nat) (x : pt * pt * pt) : nat * nat * nat := (x.1.1.1, x.2.1, i).

Definition zeroth_val (m : gmap (nat * nat * nat) PyObj) (x : pt * pt) : Result Arr2 :=
  kj ← TDA.related self x.1.2 x.2.2;
  lia ← getitem (TDA.Lia self) (kj, x.2.1);
  mret (arr2_divr lia (TDA.nk self)).

Definition energy_val (i : nat) (m : gmap (nat * nat * nat) PyObj) (x : pt * pt)
  : Result Arr2 :=
  kj ← TDA.related self x.1.2 x.2.2;
  mret (obj_mul_row (m !!! (x.1.1, x.2.1, (i - 1)%nat))
          (direct_sum_ai
             (mask_sel (TDA.mo_energy_w self x.2.1) (TDA.mo_occ_w self x.2.1) is_vir)
             (mask_sel (TDA.mo_energy_w self kj) (TDA.mo_occ_w self kj) is_occ))).

Definition coupling_val (i : nat) (m : gmap (nat * nat * nat) PyObj) (x : pt * pt * pt)
  : Result Arr2 :=
  ki ← TDA.related self x.1.1.2 x.1.2.2;
  kj ← TDA.related self x.1.1.2 x.2.2;
  lia ← getitem (TDA.Lia self) (ki, x.1.2.1);
  lai ← getitem (TDA.Lai self) (kj, x.2.1);
  prod ← TDA.multi_dot3 (TDA.nov self ki x.1.2.1) (TDA.naux self x.1.1.1)
           (m !!! (x.1.1.1, x.1.2.1, (i - 1)%nat)) (arr2_H lia) (arr2_conj lai);
  mret (arr2_divr (arr2_scale two prod) (TDA.nk self)).

End dd_moments_spec.

(** ** The self-energy moments as the specification words them *)

Definition from_ok {A : Type} (d : A) (r : Result A) : A :=
  match r with
  | Ok a => a
  | Err _ => d
  end.

Definition is_ok {A : Type} (r : Result A) : bool :=
  match r with
  | Ok _ => true
  | Err _ => false
  end.

(** a matrix equal to its own conjugate transpose *)
Definition hermitian (m : Arr2) : Prop :=
  forall p q : nat, m p q = Cconj (m q p).

(** [0.5 (m + m^H)], entry by entry *)
Definition half_sum (m : Arr2) : Arr2 :=
  fun p q => Cscale half (m p q + Cconj (m q p))%C.

Section se_moments_spec.
Variable self : TDA.t.
Abbreviation kp := (TDA.kpts self).
Abbreviation pt := (nat * kvec (TDA.kpts self))%type.
Abbreviation SEMoments := (gmap (nat * nat) TDA.FMat).

(** a moment is Hermitian within the tolerance: it is a matrix of numbers,
    each within [atol + rtol |.|] of the conjugate of its transposed entry *)
Definition within_tolerance (m : TDA.FMat) : bool :=
  match m with
  | TDA.Finite a =>
      forallb (fun p => forallb (fun q => isclose (a p q) (Cconj (a q p)))
                                (seq 0 (TDA.nmo self)))
              (seq 0 (TDA.nmo self))
  | TDA.NaN => false
  end.

(** both moments at [(k, n)] are Hermitian within the tolerance *)
Definition hermitian_close (st : SEMoments * SEMoments) (kn : nat * nat) : bool :=
  within_tolerance (st.1 !!! kn) && within_tolerance (st.2 !!! kn).

(** the first two stages of [build_se_moments] *)
Definition constructed_se_moments (moments_dd : gmap (nat * nat * nat) PyObj)
  : Result (SEMoments * SEMoments) :=
  eta ← TDA.rotate_dd_moments self moments_dd;
  TDA.construct_se_moments self eta.



(** the momentum transfers [q] that relate [k] to a mesh point *)
Definition sources (k : pt) : list pt :=
  filter (fun q => conserving kp q k = true) (enumerate_kpts kp).

Definition eta_at (eta : gmap (nat * nat) Arr4) (k : nat * nat) : Arr4 :=
  default zeros4 (eta !! k).

(** the poles of the g-basis at the point [kx], each with its energy and
    its index: those below the chemical potential hold electrons, those
    above it hold none *)
Definition pole_at (kx x : nat) : option (Qc * Qc) :=
  e ← TDA.mo_energy_g self kx !! x;
  o ← TDA.mo_occ_g self kx !! x;
  Some (e, o).
Definition poles_below (kx : nat) : list (Qc * nat) :=
  omap (fun x => eo ← pole_at kx x;
                 if bool_decide (0 < eo.2) then Some (eo.1, x) else None)
       (seq 0 (length (TDA.mo_energy_g self kx))).
Definition poles_above (kx : nat) : list (Qc * nat) :=
  omap (fun x => eo ← pole_at kx x;
                 if bool_decide (eo.2 = 0) then Some (eo.1, x) else None)
       (seq 0 (length (TDA.mo_energy_g self kx))).


(** the same sum with the terms as the code computes them *)
Definition se_moment_code (f : nat -> nat -> Qc) (mask : Qc -> bool)
    (eta : gmap (nat * nat) Arr4) (n : nat) (k : pt) : TDA.FMat :=
  fold_left TDA.fmat_add
    (map (fun q => TDA.se_term self f (TDA.poles self (rel self q k) mask)
                     (eta_at eta (k.1, q.1)) n)
         (sources k))
    (TDA.Finite zeros2).

(** the body of the convolution loop read as two in-place additions *)
Definition key_kn (n : nat) (x : pt * pt) : nat * nat := (x.2.1, n).

Definition se_val (f : nat -> nat -> Qc) (mask : Qc -> bool)
    (eta : gmap (nat * nat) Arr4) (n : nat) (m : SEMoments) (x : pt * pt)
  : Result TDA.FMat :=
  kx ← TDA.related self x.1.2 x.2.2;
  e ← getitem eta (x.2.1, x.1.1);
  mret (TDA.se_term self f (TDA.poles self kx mask) e n).

End se_moments_spec.

(** ** Small concrete systems *)

(** a uniform one-dimensional mesh of [n] points: the point [i] is [i / n]
    of a reciprocal lattice vector, kept as the integer [i] *)
Definition mesh_Zn (n : nat) : KPoints :=
  {| kvec := Z;
     kadd := Z.add;
     ksub := Z.sub;
     kneg := Z.opp;
     kpoints := map Z.of_nat (seq 0 n);
     wrap_around := fun z => (z mod Z.of_nat n)%Z;
     member := fun z => if bool_decide (0 <= z < Z.of_nat n)%Z
                        then Some (Z.to_nat z) else None |}.

(** a provider with one full block of [rows] rows per pair *)
Definition one_chunk (rows : nat) (ki kj : nat) : list Chunk :=
  [ {| chunk_rows := rows;
       chunk_re := fun l p q => Qc_of_nat (1 + ki + 2 * kj + l + p + q);
       chunk_im := fun l p q => Qc_of_nat (ki + l) - Qc_of_nat (kj + q);
       chunk_sign := 1 |} ].

(** a container on [n] mesh points with one auxiliary function and two
    orbitals, one occupied and one virtual, without compression *)
Definition ex_ints (n : nat) (provider : nat -> nat -> list Chunk) : KIntegrals.t :=
  {| KIntegrals.kpts := mesh_Zn n;
     KIntegrals.with_df := provider;
     KIntegrals.naux_full := 1;
     KIntegrals.nmo := 2;
     KIntegrals.nmo_g := fun _ => 2%nat;
     KIntegrals.mo_coeff := fun k p i => mkC (Qc_of_nat (1 + p * i)) (Qc_of_nat k);
     KIntegrals.mo_coeff_g := fun k p i => mkC (Qc_of_nat (1 + p * i)) (Qc_of_nat k);
     KIntegrals.mo_coeff_w := fun k p i => mkC (Qc_of_nat (1 + p * i)) (Qc_of_nat k);
     KIntegrals.mo_occ := fun _ => [two; 0];
     KIntegrals.mo_occ_w := fun _ => [two; 0];
     KIntegrals.compression := [];
     KIntegrals.compression_tol := 0;
     KIntegrals.store_full := true;
     KIntegrals.eigh := fun _ => [];
     KIntegrals.madelung_value := 1;
     KIntegrals.ovlp_ao := fun _ => zeros2;
     KIntegrals._rot := None;
     KIntegrals._blocks := {| KIntegrals.Lpq := None; KIntegrals.Lpx := None;
                              KIntegrals.Lia := None; KIntegrals.Lai := None |};
     KIntegrals._madelung := None;
     KIntegrals._madeling := None |}.

(** all pairs of indices below [n] *)
Definition index_pairs (n : nat) : list (nat * nat) :=
  a ← seq 0 n; b ← seq 0 n; [(a, b)].

(** a [TDA] object on two mesh points with one occupied and one virtual
    orbital at each, one auxiliary function, moments up to order 1 *)
Definition ex_tda : TDA.t :=
  {| TDA.kpts := mesh_Zn 2;
     TDA.nmom_max := 1;
     TDA.nmo := 2;
     TDA.naux := fun _ => 1%nat;
     TDA.Lia := list_to_map
       ((fun kk : nat * nat =>
           (kk, (fun l x => mkC (Qc_of_nat (1 + kk.1 + 2 * kk.2)) (Qc_of_nat kk.1)) : Arr2))
          <$> index_pairs 2);
     TDA.Lai := list_to_map
       ((fun kk : nat * nat =>
           (kk, (fun l x => mkC (Qc_of_nat (1 + kk.2 + 2 * kk.1)) (- Qc_of_nat kk.2)) : Arr2))
          <$> index_pairs 2);
     TDA.Lpx := list_to_map
       ((fun kk : nat * nat =>
           (kk, (fun l p x => mkC (Qc_of_nat (1 + p + x)) (Qc_of_nat kk.1 - Qc_of_nat kk.2)) : Arr3))
          <$> index_pairs 2);
     TDA.mo_energy_g := fun k => [- (1); Qc_of_nat (1 + k)];
     TDA.mo_occ_g := fun _ => [two; 0];
     TDA.mo_energy_w := fun k => [- (1); Qc_of_nat (1 + k)];
     TDA.mo_occ_w := fun _ => [two; 0] |}.

(** the same object with the occupied orbital at the energy [0.0] *)
Definition ex_tda_zero : TDA.t :=
  {| TDA.kpts := TDA.kpts ex_tda;
     TDA.nmom_max := TDA.nmom_max ex_tda;
     TDA.nmo := TDA.nmo ex_tda;
     TDA.naux := TDA.naux ex_tda;
     TDA.Lia := TDA.Lia ex_tda;
     TDA.Lai := TDA.Lai ex_tda;
     TDA.Lpx := TDA.Lpx ex_tda;
     TDA.mo_energy_g := fun k => [0; Qc_of_nat (1 + k)];
     TDA.mo_occ_g := TDA.mo_occ_g ex_tda;
     TDA.mo_energy_w := TDA.mo_energy_w ex_tda;
     TDA.mo_occ_w := TDA.mo_occ_w ex_tda |}.

(** the response moments of [ex_tda], and the self-energy moments that the
    first two stages construct from them *)
Definition ex_moments_dd : gmap (nat * nat * nat) PyObj :=
  from_ok ∅ (TDA.build_dd_moments ex_tda).

Definition ex_eta : gmap (nat * nat) Arr4 :=
  from_ok ∅ (TDA.rotate_dd_moments ex_tda ex_moments_dd).

Definition ex_constructed : gmap (nat * nat) TDA.FMat * gmap (nat * nat) TDA.FMat :=
  from_ok (∅, ∅) (constructed_se_moments ex_tda ex_moments_dd).

(** a provider that delivers every pair in two blocks of one row *)
Definition two_chunks (ki kj : nat) : list Chunk :=
  one_chunk 1 ki kj ++ one_chunk 1 kj ki.

(** a provider whose second block for every pair is low-dimensional *)
Definition low_dim_provider (ki kj : nat) : list Chunk :=
  one_chunk 1 ki kj ++
  [ {| chunk_rows := 1;
       chunk_re := fun _ _ _ => 0;
       chunk_im := fun _ _ _ => 0;
       chunk_sign := (-1)%Z |} ].

(** a container of two orbitals, one occupied and one virtual, and one
    auxiliary function, with the compression on the block ["ia"] and the
    tolerance [tol]: the metric is a matrix of one row and one column, of
    which [eigh] returns the real entry and the vector [[1]] *)
Definition ex_ints_compressed (tol : Qc) : KIntegrals.t :=
  {| KIntegrals.kpts := mesh_Zn 2;
     KIntegrals.with_df := one_chunk 1;
     KIntegrals.naux_full := 1;
     KIntegrals.nmo := 2;
     KIntegrals.nmo_g := fun _ => 2%nat;
     KIntegrals.mo_coeff := fun k p i => mkC (Qc_of_nat (1 + p * i)) (Qc_of_nat k);
     KIntegrals.mo_coeff_g := fun k p i => mkC (Qc_of_nat (1 + p * i)) (Qc_of_nat k);
     KIntegrals.mo_coeff_w := fun k p i => mkC (Qc_of_nat (1 + p * i)) (Qc_of_nat k);
     KIntegrals.mo_occ := fun _ => [two; 0];
     KIntegrals.mo_occ_w := fun _ => [two; 0];
     KIntegrals.compression := [(orb_i, orb_a)];
     KIntegrals.compression_tol := tol;
     KIntegrals.store_full := false;
     KIntegrals.eigh := fun m => [(re (m 0%nat 0%nat), fun _ => C1)];
     KIntegrals.madelung_value := 1;
     KIntegrals.ovlp_ao := fun _ => zeros2;
     KIntegrals._rot := None;
     KIntegrals._blocks := {| KIntegrals.Lpq := None; KIntegrals.Lpx := None;
                              KIntegrals.Lia := None; KIntegrals.Lai := None |};
     KIntegrals._madelung := None;
     KIntegrals._madeling := None |}.


(** the tolerance [1e-10] *)
Definition ex_tol : Qc := Q2Qc (1 # 10000000000).



(** a [gw] object with trivial collaborators *)
Definition ex_gw (pol : string) : qsGW.t :=
  {| qsGW.name := "qsGW";
     qsGW.polarizability := pol;
     qsGW.max_cycle := 2;
     qsGW.max_cycle_qp := 3;
     qsGW.conv_tol_qp := Q2Qc (1 # 100);
     qsGW.nmo := 1;
     qsGW.Integrals := unit;
     qsGW.Greens := unit;
     qsGW.SelfEnergy := unit;
     qsGW.Moments := unit;
     qsGW.Diis := unit;
     qsGW.ao2mo := tt;
     qsGW.get_ovlp := fun _ _ => 1;
     qsGW.get_hcore := fun _ _ => 1;
     qsGW.make_rdm1 := fun u i j => u i j * half;
     qsGW.matmul := fun a b i j => a i j * b i j;
     qsGW.transpose := fun a i j => a j i;
     qsGW.mat_add := fun a b i j => a i j + b i j;
     qsGW.new_diis := tt;
     qsGW.diis_update := fun d m => (d, m);
     qsGW.solver_kernel := fun _ _ _ _ => (true, tt, tt);
     qsGW.self_energy_to_moments := fun _ _ => (tt, tt);
     qsGW.build_static_potential := fun _ _ _ _ => 0;
     qsGW.project_basis := fun m _ _ _ => m;
     qsGW.project_moments := fun m _ _ _ => m;
     qsGW.get_fock := fun _ dm h => fun i j => dm i j + h i j;
     qsGW.eigh := fun m => (fun i => m i i, m);
     qsGW.check_convergence := fun _ _ _ _ _ _ => false |}.

(* ===================================================================== *)
(** * Part II: properties                                                 *)
(* ===================================================================== *)

(** ** Arithmetic of [C] *)

Lemma C_eq (a b : C) : re a = re b -> im a = im b -> a = b.
Proof. destruct a, b; simpl; intros -> ->; reflexivity. Qed.

Lemma Ceqb_eq (a b : C) : Ceqb a b = true -> a = b.
Proof.
  unfold Ceqb. intros H. apply andb_prop in H as [H1 H2].
  apply bool_decide_eq_true in H1, H2. by apply C_eq.
Qed.

Lemma C_ring_theory : ring_theory C0 C1 Cadd Cmul Csub Copp eq.
Proof.
  constructor; intros; apply C_eq; simpl; ring.
Qed.

Add Ring C_ring : C_ring_theory.

Lemma Cconj_involutive a : Cconj (Cconj a) = a.
Proof. apply C_eq; simpl; ring. Qed.

Lemma Cconj_add a b : Cconj (a + b) = (Cconj a + Cconj b)%C.
Proof. apply C_eq; simpl; ring. Qed.

Lemma Cconj_mul a b : Cconj (a * b) = (Cconj a * Cconj b)%C.
Proof. apply C_eq; simpl; ring. Qed.

Lemma Cconj_scale r a : Cconj (Cscale r a) = Cscale r (Cconj a).
Proof. apply C_eq; simpl; ring. Qed.

Lemma Cconj_0 : Cconj C0 = C0.
Proof. apply C_eq; simpl; ring. Qed.

(** ** Loops *)

Lemma for_each_app {S X : Type} (body : S -> X -> Result S) xs ys s :
  for_each body (xs ++ ys) s =
  match for_each body xs s with
  | Ok s' => for_each body ys s'
  | Err e => Err e
  end.
Proof.
  revert s. induction xs as [|x xs IH]; intros s; simpl; [done|].
  destruct (body s x); [apply IH | done].
Qed.

Lemma for_each_cons {S X : Type} (body : S -> X -> Result S) x xs s :
  for_each body (x :: xs) s =
  match body s x with
  | Ok s' => for_each body xs s'
  | Err e => Err e
  end.
Proof. reflexivity. Qed.

Lemma for_each_ext {S X : Type} (f g : S -> X -> Result S) xs s :
  (forall s' x, x ∈ xs -> f s' x = g s' x) ->
  for_each f xs s = for_each g xs s.
Proof.
  revert s. induction xs as [|x xs IH]; intros s Hfg; simpl; [done|].
  rewrite Hfg by left. destruct (g s x); [|done].
  apply IH. intros s' y Hy. apply Hfg. by right.
Qed.

Section accumulate_facts.
Context {K : Type} `{Countable K} {X V A : Type} `{Inhabited V}.
Variables (iadd : V -> A -> V) (key : X -> K) (val : gmap K V -> X -> Result A).
(** the entries that the loop writes, none of which [val] reads *)
Variable W : K -> Prop.
Hypothesis key_W : forall x, W (key x).
Hypothesis val_frozen : forall m m' x,
  (forall k, ~ W k -> m !!! k = m' !!! k) -> val m x = val m' x.

Lemma contribs_cons m k x xs :
  contribs key val m k (x :: xs) =
  match (if decide (key x = k) then ok_val (val m x) else None) with
  | Some v => v :: contribs key val m k xs
  | None => contribs key val m k xs
  end.
Proof. reflexivity. Qed.

Lemma acc_body_ok m x v :
  val m x = Ok v -> acc_body iadd key val m x = Ok (<[key x := iadd (m !!! key x) v]> m).
Proof. unfold acc_body. by intros ->. Qed.

Lemma acc_body_frozen m x m' :
  acc_body iadd key val m x = Ok m' -> forall k, ~ W k -> m' !!! k = m !!! k.
Proof.
  unfold acc_body. destruct (val m x) as [v|e]; simpl; [|done].
  intros [= <-] k Hk. rewrite lookup_total_insert_ne; [done|].
  intros <-. apply Hk, key_W.
Qed.

Lemma contribs_frozen m m' k xs :
  (forall k, ~ W k -> m !!! k = m' !!! k) -> contribs key val m k xs = contribs key val m' k xs.
Proof.
  intros Hm. induction xs as [|x xs IH]; [done|].
  rewrite !contribs_cons, IH. by rewrite (val_frozen m m' x Hm).
Qed.

Lemma acc_loop_lookup xs m m' :
  for_each (acc_body iadd key val) xs m = Ok m' ->
  forall k, m' !!! k = fold_left iadd (contribs key val m k xs) (m !!! k).
Proof.
  revert m. induction xs as [|x xs IH]; intros m Hm k.
  - simpl in Hm. by injection Hm as <-.
  - simpl in Hm. destruct (acc_body iadd key val m x) as [m1|e] eqn:Hb; [|done].
    rewrite (IH m1 Hm k), contribs_cons.
    rewrite (contribs_frozen m1 m k xs) by (by apply (acc_body_frozen m x)).
    unfold acc_body in Hb. destruct (val m x) as [v|e]; simpl in *; [|done].
    injection Hb as <-. destruct (decide (key x = k)) as [->|Hne]; simpl.
    + by rewrite lookup_total_insert_eq.
    + by rewrite lookup_total_insert_ne.
Qed.

Lemma acc_loop_frozen xs m m' :
  for_each (acc_body iadd key val) xs m = Ok m' -> forall k, ~ W k -> m' !!! k = m !!! k.
Proof.
  revert m. induction xs as [|x xs IH]; intros m Hm k Hk; simpl in Hm.
  - by injection Hm as <-.
  - destruct (acc_body iadd key val m x) as [m1|e] eqn:Hb; [|done].
    rewrite (IH m1 Hm k Hk). by apply (acc_body_frozen m x).
Qed.

Lemma acc_loop_ok xs m :
  (forall x, x ∈ xs -> exists v, val m x = Ok v) ->
  exists m', for_each (acc_body iadd key val) xs m = Ok m'.
Proof.
  revert m. induction xs as [|x xs IH]; intros m Hok; simpl; [by eexists|].
  destruct (Hok x) as [v Hv]; [by left|].
  unfold acc_body at 1. rewrite Hv. simpl.
  apply IH. intros y Hy. destruct (Hok y) as [w Hw]; [by right|].
  exists w. rewrite <- Hw. apply val_frozen. intros k Hk.
  rewrite lookup_total_insert_ne; [done|]. intros <-. apply Hk, key_W.
Qed.

Lemma acc_loop_err xs m e :
  for_each (acc_body iadd key val) xs m = Err e ->
  exists x, x ∈ xs /\ val m x = Err e.
Proof.
  revert m. induction xs as [|x xs IH]; intros m; simpl; [done|].
  unfold acc_body at 1. destruct (val m x) as [v|e'] eqn:Hv; simpl.
  - intros Hr. destruct (IH _ Hr) as (y & Hy & Hye). exists y. split; [by right|].
    rewrite <- Hye. apply val_frozen. intros k Hk.
    rewrite lookup_total_insert_ne; [done|]. intros <-. apply Hk, key_W.
  - intros [= <-]. exists x. split; [by left|done].
Qed.

End accumulate_facts.

(** ** The mesh loops *)

Lemma bind_nil_all {A B : Type} (l : list A) (h : A -> list B) :
  (forall y, y ∈ l -> h y = []) -> l ≫= h = [].
Proof.
  induction l as [|a l IH]; intros Hh; [done|].
  change ((a :: l) ≫= h) with (h a ++ (l ≫= h)).
  rewrite Hh by left. rewrite IH; [done|]. intros y Hy. apply Hh. by right.
Qed.

Lemma bind_unique {A B : Type} (l : list A) (x : A) (h : A -> list B) :
  NoDup l -> x ∈ l -> (forall y, y ∈ l -> y <> x -> h y = []) -> l ≫= h = h x.
Proof.
  induction l as [|a l IH]; intros Hnd Hx Hh; [by apply elem_of_nil in Hx|].
  change ((a :: l) ≫= h) with (h a ++ (l ≫= h)).
  apply NoDup_cons in Hnd as [Ha Hnd].
  apply elem_of_cons in Hx as [->|Hx].
  - rewrite bind_nil_all; [by rewrite app_nil_r|].
    intros y Hy. apply Hh; [by right|]. intros ->. done.
  - rewrite (Hh a); [|by left|by intros ->]. simpl.
    apply IH; [done|done|]. intros y Hy. apply Hh. by right.
Qed.

Lemma bind_ext_in {A B : Type} (l : list A) (f g : A -> list B) :
  (forall y, y ∈ l -> f y = g y) -> l ≫= f = l ≫= g.
Proof.
  induction l as [|a l IH]; intros Hfg; [done|].
  change ((a :: l) ≫= f) with (f a ++ (l ≫= f)).
  change ((a :: l) ≫= g) with (g a ++ (l ≫= g)).
  rewrite Hfg by left. f_equal. apply IH. intros y Hy. apply Hfg. by right.
Qed.

Lemma omap_bind_list {A B D : Type} (g : B -> option D) (f : A -> list B) (l : list A) :
  omap g (l ≫= f) = l ≫= (fun x => omap g (f x)).
Proof.
  induction l as [|a l IH]; [done|].
  change ((a :: l) ≫= f) with (f a ++ (l ≫= f)).
  rewrite omap_app, IH. done.
Qed.

Lemma bind_filter_omap {A B : Type} (p : A -> bool) (g : A -> option B) (l : list A) :
  l ≫= (fun x => if p x then option_list (g x) else []) =
  omap g (filter (fun x => p x = true) l).
Proof.
  induction l as [|a l IH]; [done|].
  change ((a :: l) ≫= (fun x => if p x then option_list (g x) else []))
    with ((if p a then option_list (g a) else [])
            ++ (l ≫= (fun x => if p x then option_list (g x) else []))).
  rewrite IH, filter_cons. destruct (p a) eqn:Hp.
  - rewrite decide_True by done. simpl. by destruct (g a).
  - rewrite decide_False by done. done.
Qed.

Section mesh_facts.
Variable kp : KPoints.

Lemma elem_of_enumerate i v :
  (i, v) ∈ enumerate_kpts kp <-> kpoints kp !! i = Some v.
Proof.
  unfold enumerate_kpts. rewrite elem_of_lookup_imap. split.
  - intros (j & y & [= -> ->] & Hy). done.
  - intros Hv. by exists i, v.
Qed.

Lemma enumerate_fst_inj (x y : nat * kvec kp) :
  x ∈ enumerate_kpts kp -> y ∈ enumerate_kpts kp -> x.1 = y.1 -> x = y.
Proof.
  destruct x as [i v], y as [j w]. rewrite !elem_of_enumerate. simpl.
  intros Hv Hw <-. congruence.
Qed.

Lemma NoDup_enumerate : NoDup (enumerate_kpts kp).
Proof.
  apply (NoDup_fmap_1 fst). unfold enumerate_kpts.
  rewrite fmap_imap.
  rewrite (imap_ext _ (fun j _ => id j)) by done.
  rewrite imap_seq_0, list_fmap_id. apply NoDup_seq.
Qed.

Lemma elem_of_loop2 q k :
  (q, k) ∈ loop2 kp <->
  q ∈ enumerate_kpts kp /\ k ∈ enumerate_kpts kp /\ conserving kp q k = true.
Proof.
  unfold loop2. rewrite list_elem_of_bind. split.
  - intros (q' & Hin & Hq). apply list_elem_of_bind in Hin as (k' & Hin & Hk).
    destruct (conserving kp q' k') eqn:Hc; [|by apply elem_of_nil in Hin].
    apply list_elem_of_singleton in Hin as [= -> ->]. done.
  - intros (Hq & Hk & Hc). exists q. split; [|done].
    apply list_elem_of_bind. exists k. rewrite Hc. split; [by left|done].
Qed.

Lemma elem_of_loop3 q ka kb :
  (q, ka, kb) ∈ loop3 kp <->
  q ∈ enumerate_kpts kp /\ ka ∈ enumerate_kpts kp /\ kb ∈ enumerate_kpts kp
  /\ conserving kp q ka = true /\ conserving kp q kb = true.
Proof.
  unfold loop3. rewrite list_elem_of_bind. split.
  - intros (q' & Hin & Hq). apply list_elem_of_bind in Hin as (ka' & Hin & Hka).
    apply list_elem_of_bind in Hin as (kb' & Hin & Hkb).
    destruct (conserving kp q' ka') eqn:Hc1; [|by apply elem_of_nil in Hin].
    destruct (conserving kp q' kb') eqn:Hc2; [|by apply elem_of_nil in Hin].
    apply list_elem_of_singleton in Hin as [= -> -> ->]. done.
  - intros (Hq & Hka & Hkb & Hc1 & Hc2). exists q. split; [|done].
    apply list_elem_of_bind. exists ka. split; [|done].
    apply list_elem_of_bind. exists kb. rewrite Hc1, Hc2. split; [by left|done].
Qed.

(** every momentum-conserving pair is enumerated exactly once *)
Lemma loop2_select {D : Type} (g : (nat * kvec kp) * (nat * kvec kp) -> option D) q k :
  (q, k) ∈ loop2 kp ->
  (forall q' k', q' ∈ enumerate_kpts kp -> k' ∈ enumerate_kpts kp ->
     (q'.1 <> q.1 \/ k'.1 <> k.1) -> g (q', k') = None) ->
  omap g (loop2 kp) = option_list (g (q, k)).
Proof.
  intros (Hq & Hk & Hc)%elem_of_loop2 Hg. unfold loop2.
  rewrite omap_bind_list.
  rewrite (bind_unique _ q); [|apply NoDup_enumerate|done|].
  - rewrite omap_bind_list.
    rewrite (bind_unique _ k); [|apply NoDup_enumerate|done|].
    + rewrite Hc. simpl. by destruct (g (q, k)).
    + intros k' Hk' Hne. destruct (conserving kp q k'); [|done]. simpl.
      rewrite Hg; [done|done|done|]. right. intros He. apply Hne.
      by apply enumerate_fst_inj.
  - intros q' Hq' Hne. rewrite omap_bind_list. apply bind_nil_all.
    intros k' Hk'. destruct (conserving kp q' k'); [|done]. simpl.
    rewrite Hg; [done|done|done|]. left. intros He. apply Hne.
    by apply enumerate_fst_inj.
Qed.

(** every momentum-conserving triple is enumerated exactly once *)
Lemma loop3_select {D : Type}
  (g : (nat * kvec kp) * (nat * kvec kp) * (nat * kvec kp) -> option D) q kb :
  (q, kb) ∈ loop2 kp ->
  (forall q' ka kb', q' ∈ enumerate_kpts kp -> kb' ∈ enumerate_kpts kp ->
     (q'.1 <> q.1 \/ kb'.1 <> kb.1) -> g (q', ka, kb') = None) ->
  omap g (loop3 kp) =
  omap (fun ka => g (q, ka, kb))
       (filter (fun ka => conserving kp q ka = true) (enumerate_kpts kp)).
Proof.
  intros (Hq & Hk & Hc)%elem_of_loop2 Hg. unfold loop3.
  rewrite omap_bind_list.
  rewrite (bind_unique _ q); [|apply NoDup_enumerate|done|].
  - rewrite omap_bind_list.
    rewrite <- (bind_filter_omap (conserving kp q)).
    apply bind_ext_in. intros ka Hka. rewrite omap_bind_list.
    rewrite (bind_unique _ kb); [|apply NoDup_enumerate|done|].
    + rewrite Hc, andb_true_r. destruct (conserving kp q ka); [|done].
      simpl. by destruct (g (q, ka, kb)).
    + intros k' Hk' Hne.
      destruct (conserving kp q ka && conserving kp q k'); [|done]. simpl.
      rewrite Hg; [done|done|done|]. right. intros He. apply Hne.
      by apply enumerate_fst_inj.
  - intros q' Hq' Hne. rewrite omap_bind_list. apply bind_nil_all.
    intros ka Hka. rewrite omap_bind_list. apply bind_nil_all.
    intros k' Hk'.
    destruct (conserving kp q' ka && conserving kp q' k'); [|done]. simpl.
    rewrite Hg; [done|done|done|]. left. intros He. apply Hne.
    by apply enumerate_fst_inj.
Qed.

End mesh_facts.

(** ** The density-density response moments *)

Lemma fold_obj_iadd_arr (cs : list Arr2) (a : Arr2) :
  fold_left obj_iadd cs (NdArr a) = NdArr (fold_left arr2_add cs a).
Proof. revert a. induction cs as [|c cs IH]; intros a; simpl; [done|apply IH]. Qed.

Section dd_moments_facts.
Variable self : TDA.t.
Abbreviation kp := (TDA.kpts self).
Abbreviation pt := (nat * kvec (TDA.kpts self))%type.
Abbreviation Moments := (gmap (nat * nat * nat) PyObj).

(** the blocks that the integral container must hold *)
Hypothesis blocks_present : forall q k : pt, (q, k) ∈ loop2 kp ->
  is_Some (TDA.Lia self !! (rel self q k, k.1)) /\
  is_Some (TDA.Lai self !! (rel self q k, k.1)).

Lemma related_rel (q k : pt) :
  conserving kp q k = true -> TDA.related self q.2 k.2 = Ok (rel self q k).
Proof.
  unfold conserving, TDA.related, member_exn, rel. intros Hc.
  apply bool_decide_eq_true in Hc as [j Hj]. by rewrite Hj.
Qed.

Lemma zeroth_body_acc (m : Moments) x :
  TDA.zeroth_body self m x = acc_body obj_iadd (key2 self 0) (zeroth_val self) m x.
Proof.
  destruct x as [[q qpt] [kb kptb]].
  unfold TDA.zeroth_body, acc_body, zeroth_val. simpl.
  destruct (TDA.related self qpt kptb); simpl; [|done].
  by destruct (getitem _ _).
Qed.

Lemma energy_body_acc (i : nat) (m : Moments) x :
  TDA.energy_body self i m x = acc_body obj_iadd (key2 self i) (energy_val self i) m x.
Proof.
  destruct x as [[q qpt] [kb kptb]].
  unfold TDA.energy_body, acc_body, energy_val. simpl.
  by destruct (TDA.related self qpt kptb).
Qed.

Lemma coupling_body_acc (i : nat) (m : Moments) x :
  TDA.coupling_body self i m x = acc_body obj_iadd (key3 self i) (coupling_val self i) m x.
Proof.
  destruct x as [[[q qpt] [ka kpta]] [kb kptb]].
  unfold TDA.coupling_body, acc_body, coupling_val. simpl.
  destruct (TDA.related self qpt kpta); simpl; [|done].
  destruct (TDA.related self qpt kptb); simpl; [|done].
  destruct (getitem (TDA.Lia self) _); simpl; [|done].
  destruct (getitem (TDA.Lai self) _); simpl; [|done].
  by destruct (TDA.multi_dot3 _ _ _ _ _).
Qed.

Lemma getitem_block (d : gmap (nat * nat) Arr2) k :
  is_Some (d !! k) -> getitem d k = Ok (block d k).
Proof. intros [a Ha]. unfold getitem, block. by rewrite Ha. Qed.

Lemma zeroth_val_ok (m : Moments) (q k : pt) :
  (q, k) ∈ loop2 kp -> zeroth_val self m (q, k) = Ok (dd_zeroth self q k).
Proof.
  intros Hin. pose proof Hin as (_ & _ & Hc)%elem_of_loop2.
  unfold zeroth_val. simpl. rewrite (related_rel q k Hc). simpl.
  destruct (blocks_present q k Hin) as [HLia _].
  rewrite (getitem_block _ _ HLia). done.
Qed.

Lemma energy_val_ok (i : nat) (m : Moments) (q k : pt) :
  (q, k) ∈ loop2 kp ->
  energy_val self i m (q, k) =
  Ok (match m !!! (q.1, k.1, (i - 1)%nat) with
      | PyInt0 => dd_energy_term self zeros2 q k
      | NdArr a => dd_energy_term self a q k
      end).
Proof.
  intros (_ & _ & Hc)%elem_of_loop2.
  unfold energy_val. simpl. rewrite (related_rel q k Hc). simpl.
  unfold obj_mul_row, dd_energy_term. by destruct (m !!! _).
Qed.

Lemma coupling_val_ok (i : nat) (m : Moments) (q ka kb : pt) a :
  (q, ka, kb) ∈ loop3 kp ->
  m !!! (q.1, ka.1, (i - 1)%nat) = NdArr a ->
  coupling_val self i m (q, ka, kb) = Ok (dd_coupling_term self a q ka kb).
Proof.
  intros (Hq & Hka & Hkb & Hc1 & Hc2)%elem_of_loop3 Hm.
  unfold coupling_val. simpl.
  rewrite (related_rel q ka Hc1), (related_rel q kb Hc2). simpl.
  destruct (blocks_present q ka) as [HLia _]; [by apply elem_of_loop2|].
  destruct (blocks_present q kb) as [_ HLai]; [by apply elem_of_loop2|].
  rewrite (getitem_block _ _ HLia). simpl.
  rewrite (getitem_block _ _ HLai). simpl. rewrite Hm. done.
Qed.

Lemma zeroth_loop_spec :
  exists m, for_each (TDA.zeroth_body self) (loop2 kp) ∅ = Ok m /\
    (forall k, k.2 <> 0%nat -> m !!! k = PyInt0) /\
    forall q kb : pt, (q, kb) ∈ loop2 kp ->
      m !!! (q.1, kb.1, 0%nat) = NdArr (dd_zeroth self q kb).
Proof.
  rewrite (for_each_ext _ (acc_body obj_iadd (key2 self 0) (zeroth_val self)))
    by (intros; apply zeroth_body_acc).
  destruct (acc_loop_ok obj_iadd (key2 self 0) (zeroth_val self) (fun k => k.2 = 0%nat)
              ltac:(done) ltac:(done) (loop2 kp) ∅) as [m Hm].
  { intros [q k] Hin. eexists. by apply zeroth_val_ok. }
  exists m. split; [done|]. split.
  - intros k Hk.
    rewrite (acc_loop_frozen obj_iadd (key2 self 0) (zeroth_val self) (fun k => k.2 = 0%nat)
               ltac:(done) _ _ _ Hm k Hk).
    by rewrite lookup_total_empty.
  - intros q kb Hin.
    rewrite (acc_loop_lookup obj_iadd (key2 self 0) (zeroth_val self) (fun k => k.2 = 0%nat)
               ltac:(done) ltac:(done) _ _ _ Hm).
    unfold contribs.
    rewrite (loop2_select kp _ q kb Hin).
    + rewrite decide_True by done. rewrite zeroth_val_ok by done. simpl.
      by rewrite lookup_total_empty.
    + intros q' k' _ _ Hne. rewrite decide_False; [done|].
      unfold key2. simpl. intros [= ? ?]. by destruct Hne.
Qed.

Lemma omap_map_Some {A B : Type} (g : A -> option B) (f : A -> B) (l : list A) :
  (forall x, x ∈ l -> g x = Some (f x)) -> omap g l = map f l.
Proof.
  induction l as [|a l IH]; intros Hg; [done|].
  change (omap g (a :: l)) with
    (match g a with Some y => y :: omap g l | None => omap g l end).
  rewrite Hg by left. simpl. f_equal. apply IH. intros x Hx. apply Hg. by right.
Qed.

Lemma energy_val_frozen (i : nat) (m m' : Moments) x :
  (1 <= i)%nat ->
  (forall k : nat * nat * nat, ~ k.2 = i -> m !!! k = m' !!! k) ->
  energy_val self i m x = energy_val self i m' x.
Proof.
  intros Hi Hm. unfold energy_val.
  rewrite (Hm (x.1.1, x.2.1, (i - 1)%nat)); [done|]. simpl. lia.
Qed.

Lemma coupling_val_frozen (i : nat) (m m' : Moments) x :
  (1 <= i)%nat ->
  (forall k : nat * nat * nat, ~ k.2 = i -> m !!! k = m' !!! k) ->
  coupling_val self i m x = coupling_val self i m' x.
Proof.
  intros Hi Hm. unfold coupling_val.
  rewrite (Hm (x.1.1.1, x.1.2.1, (i - 1)%nat)); [done|]. simpl. lia.
Qed.

Lemma dd_order_ext (m m' : Moments) (n : nat) (q kb : pt) :
  (forall a b : nat, m !!! (a, b, (n - 1)%nat) = m' !!! (a, b, (n - 1)%nat)) ->
  dd_order self m n q kb = dd_order self m' n q kb.
Proof.
  intros Hm. unfold dd_order. rewrite Hm. f_equal.
  apply map_ext. intros ka. by rewrite Hm.
Qed.

(** one pass of the loop over the orders *)
Lemma order_body_spec (m : Moments) (i : nat) :
  (1 <= i)%nat ->
  (forall q k : pt, (q, k) ∈ loop2 kp ->
     exists a, m !!! (q.1, k.1, (i - 1)%nat) = NdArr a) ->
  (forall k : nat * nat * nat, k.2 = i -> m !!! k = PyInt0) ->
  exists m', TDA.order_body self m i = Ok m' /\
    (forall k : nat * nat * nat, k.2 <> i -> m' !!! k = m !!! k) /\
    forall q kb : pt, (q, kb) ∈ loop2 kp ->
      m' !!! (q.1, kb.1, i) = NdArr (dd_order self m i q kb).
Proof.
  intros Hi Hprev Hfresh. unfold TDA.order_body.
  rewrite (for_each_ext _ (acc_body obj_iadd (key2 self i) (energy_val self i)))
    by (intros; apply energy_body_acc).
  set (W := fun k : nat * nat * nat => k.2 = i).
  assert (HW2 : forall x, W (key2 self i x)) by done.
  assert (HW3 : forall x, W (key3 self i x)) by done.
  assert (Hf2 : forall m m' x, (forall k, ~ W k -> m !!! k = m' !!! k) ->
                  energy_val self i m x = energy_val self i m' x)
    by (intros; by apply energy_val_frozen).
  assert (Hf3 : forall m m' x, (forall k, ~ W k -> m !!! k = m' !!! k) ->
                  coupling_val self i m x = coupling_val self i m' x)
    by (intros; by apply coupling_val_frozen).
  destruct (acc_loop_ok obj_iadd (key2 self i) (energy_val self i) W HW2 Hf2 (loop2 kp) m)
    as [m1 Hm1].
  { intros [q k] Hin. eexists. by apply energy_val_ok. }
  rewrite Hm1. simpl.
  pose proof (acc_loop_frozen obj_iadd (key2 self i) (energy_val self i) W HW2 _ _ _ Hm1)
    as Hfr1.
  rewrite (for_each_ext _ (acc_body obj_iadd (key3 self i) (coupling_val self i)))
    by (intros; apply coupling_body_acc).
  assert (Hval3 : forall q ka kb : pt, (q, ka, kb) ∈ loop3 kp ->
            coupling_val self i m1 (q, ka, kb) =
            Ok (dd_coupling_term self
                  (arr_of (m !!! (q.1, ka.1, (i - 1)%nat))) q ka kb)).
  { intros q ka kb Hin. apply coupling_val_ok; [done|].
    pose proof Hin as (Hq & Hka & Hkb & Hc1 & Hc2)%elem_of_loop3.
    rewrite Hfr1 by (unfold W; simpl; lia).
    destruct (Hprev q ka) as [a Ha]; [by apply elem_of_loop2|].
    by rewrite Ha. }
  destruct (acc_loop_ok obj_iadd (key3 self i) (coupling_val self i) W HW3 Hf3 (loop3 kp) m1)
    as [m2 Hm2].
  { intros [[q ka] kb] Hin. eexists. by apply Hval3. }
  exists m2. split; [done|].
  pose proof (acc_loop_frozen obj_iadd (key3 self i) (coupling_val self i) W HW3 _ _ _ Hm2)
    as Hfr2.
  split.
  { intros k Hk. rewrite Hfr2 by done. by apply Hfr1. }
  intros q kb Hin.
  rewrite (acc_loop_lookup obj_iadd (key3 self i) (coupling_val self i) W HW3 Hf3 _ _ _ Hm2).
  rewrite (acc_loop_lookup obj_iadd (key2 self i) (energy_val self i) W HW2 Hf2 _ _ _ Hm1).
  rewrite Hfresh by done.
  unfold contribs at 2.
  rewrite (loop2_select kp _ q kb Hin).
  2:{ intros q' k' _ _ Hne. rewrite decide_False; [done|].
      unfold key2. simpl. intros [= ? ?]. by destruct Hne. }
  rewrite decide_True by done. rewrite energy_val_ok by done. simpl.
  rewrite fold_obj_iadd_arr. f_equal.
  unfold contribs.
  rewrite (loop3_select kp _ q kb Hin).
  2:{ intros q' ka kb' _ _ Hne. rewrite decide_False; [done|].
      unfold key3. simpl. intros [= ? ?]. by destruct Hne. }
  pose proof Hin as (Hq & Hkb & Hc)%elem_of_loop2.
  rewrite (omap_map_Some _
             (fun ka => dd_coupling_term self
                          (arr_of (m !!! (q.1, ka.1, (i - 1)%nat))) q ka kb)).
  2:{ intros ka [Hcka Hka]%list_elem_of_filter.
      rewrite decide_True by done. rewrite Hval3; [done|].
      by apply elem_of_loop3. }
  unfold dd_order, partners.
  destruct (Hprev q kb Hin) as [a Ha]. by rewrite Ha.
Qed.

Lemma orders_loop_spec (len : nat) : forall (a : nat) (m : Moments),
  (1 <= a)%nat ->
  (forall n (q k : pt), (n < a)%nat -> (q, k) ∈ loop2 kp ->
     exists arr, m !!! (q.1, k.1, n) = NdArr arr) ->
  (forall k : nat * nat * nat, (a <= k.2)%nat -> m !!! k = PyInt0) ->
  exists m', for_each (TDA.order_body self) (seq a len) m = Ok m' /\
    (forall k : nat * nat * nat, (k.2 < a)%nat -> m' !!! k = m !!! k) /\
    forall n (q kb : pt), (a <= n < a + len)%nat -> (q, kb) ∈ loop2 kp ->
      m' !!! (q.1, kb.1, n) = NdArr (dd_order self m' n q kb).
Proof.
  induction len as [|len IH]; intros a m Ha Hprev Hfresh.
  - exists m. split; [done|]. split; [done|]. intros n q kb Hn. lia.
  - simpl.
    destruct (order_body_spec m a Ha) as (m1 & Hm1 & Hfr1 & Hnew1).
    { intros q k Hin. apply (Hprev (a - 1)%nat); [lia|done]. }
    { intros k <-. by apply Hfresh. }
    rewrite Hm1.
    destruct (IH (S a) m1) as (m' & Hm' & Hfr & Hnew); [lia| | |].
    { intros n q k Hn Hin. destruct (decide (n = a)) as [->|Hne].
      - eexists. by apply Hnew1.
      - rewrite Hfr1 by done. apply Hprev; [lia|done]. }
    { intros k Hk. rewrite Hfr1 by lia. apply Hfresh. lia. }
    exists m'. split; [done|]. split.
    { intros k Hk. rewrite Hfr by lia. apply Hfr1. lia. }
    intros n q kb Hn Hin. destruct (decide (n = a)) as [->|Hne].
    + rewrite Hfr by (simpl; lia). rewrite Hnew1 by done. f_equal.
      apply dd_order_ext. intros x y.
      rewrite Hfr by (simpl; lia). rewrite Hfr1 by (simpl; lia). done.
    + apply Hnew; [lia|done].
Qed.

(** C2. When the container holds the blocks of every momentum-conserving
    pair, [build_dd_moments] returns, and in the moments it returns, for every
    momentum-conserving pair [(q, kb)]: the moment of order 0 is the [Lia]
    block at the point related to [kb] by [q], divided by the number of mesh
    points; the moment of every order [n >= 1] is the sum of (i) the moment
    of order [n - 1] multiplied elementwise by the outer difference of the
    virtual and occupied w-basis energies and (ii), over every
    momentum-conserving triple [(q, ka, kb)], the moment of order [n - 1] at
    [(q, ka)] contracted against the conjugate transpose of the [Lia] block
    and the conjugate of the [Lai] block, scaled by [2 / nk]. *)
Theorem build_dd_moments_spec :
  exists m, TDA.build_dd_moments self = Ok m /\
    forall q kb : pt, (q, kb) ∈ loop2 kp ->
      m !!! (q.1, kb.1, 0%nat) = NdArr (dd_zeroth self q kb) /\
      forall n : nat, (1 <= n <= TDA.nmom_max self)%nat ->
        m !!! (q.1, kb.1, n) = NdArr (dd_order self m n q kb).
Proof.
  unfold TDA.build_dd_moments.
  destruct zeroth_loop_spec as (m0 & Hm0 & Hfresh0 & Hzero).
  rewrite Hm0. simpl.
  destruct (orders_loop_spec (TDA.nmom_max self) 1 m0) as (m & Hm & Hfr & Hnew).
  - lia.
  - intros n q k Hn Hin. replace n with 0%nat by lia. eexists. by apply Hzero.
  - intros k Hk. apply Hfresh0. lia.
  - exists m. split; [done|]. intros q kb Hin. split.
    + rewrite Hfr by (simpl; lia). by apply Hzero.
    + intros n Hn. apply Hnew; [lia|done].
Qed.

End dd_moments_facts.

(** ** The check of Hermiticity and the symmetrisation *)

Lemma half_sum_hermitian (m : Arr2) : hermitian (half_sum m).
Proof.
  intros p q. unfold half_sum.
  apply C_eq; simpl; ring.
Qed.

Lemma symmetrize_finite (a : Arr2) :
  TDA.symmetrize (TDA.Finite a) = TDA.Finite (half_sum a).
Proof. done. Qed.

Lemma within_tolerance_finite (self : TDA.t) (m : TDA.FMat) :
  within_tolerance self m = true -> exists a, m = TDA.Finite a.
Proof. destruct m as [a|]; [by exists a|done]. Qed.

Lemma within_tolerance_code (self : TDA.t) (m : TDA.FMat) :
  TDA.close_to_adjoint self m = within_tolerance self m.
Proof. by destruct m. Qed.

Lemma elem_of_kn_pairs (self : TDA.t) k n :
  (k, n) ∈ TDA.kn_pairs self <->
  (k < nkpts (TDA.kpts self))%nat /\ (n <= TDA.nmom_max self)%nat.
Proof.
  unfold TDA.kn_pairs. rewrite list_elem_of_bind. split.
  - intros (k' & Hin & Hk). apply list_elem_of_bind in Hin as (n' & Hin & Hn).
    apply list_elem_of_singleton in Hin as [= -> ->].
    apply elem_of_seq in Hk, Hn. lia.
  - intros [Hk Hn]. exists k. split; [|apply elem_of_seq; lia].
    apply list_elem_of_bind. exists n. split; [by left|apply elem_of_seq; lia].
Qed.

Lemma NoDup_kn_pairs (self : TDA.t) : NoDup (TDA.kn_pairs self).
Proof.
  unfold TDA.kn_pairs.
  generalize (seq 0 (S (TDA.nmom_max self))) (NoDup_seq 0 (S (TDA.nmom_max self))).
  intros ns Hns.
  generalize (seq 0 (nkpts (TDA.kpts self))) (NoDup_seq 0 (nkpts (TDA.kpts self))).
  intros ks Hks. induction Hks as [|k ks Hk Hks IH]; [constructor|].
  change ((k :: ks) ≫= (fun k0 => ns ≫= (fun n => [(k0, n)])))
    with ((ns ≫= (fun n => [(k, n)])) ++ (ks ≫= (fun k0 => ns ≫= (fun n => [(k0, n)])))).
  apply NoDup_app. split; [|split; [|done]].
  - clear -Hns. induction Hns as [|n ns Hn Hns IH]; [constructor|].
    change ((n :: ns) ≫= (fun n0 => [(k, n0)]))
      with ((k, n) :: (ns ≫= (fun n0 => [(k, n0)]))).
    apply NoDup_cons. split; [|done].
    intros (n' & Hin & Hn')%list_elem_of_bind.
    apply list_elem_of_singleton in Hin as [= <-]. done.
  - intros [k' n'] (n1 & Hin & _)%list_elem_of_bind.
    apply list_elem_of_singleton in Hin as [= -> ->].
    intros (k2 & Hin & Hk2)%list_elem_of_bind.
    apply list_elem_of_bind in Hin as (n2 & Hin & _).
    apply list_elem_of_singleton in Hin as [= -> ->]. done.
Qed.

Lemma forallb_ext_in {A : Type} (f g : A -> bool) (l : list A) :
  (forall x, In x l -> f x = g x) -> forallb f l = forallb g l.
Proof.
  induction l as [|a l IH]; intros Hfg; simpl; [done|].
  rewrite Hfg by (by left). f_equal. apply IH. intros x Hx. apply Hfg. by right.
Qed.

Section check_hermitian_facts.
Variable self : TDA.t.
Abbreviation SEMoments := (gmap (nat * nat) TDA.FMat).

Lemma hermitian_body_ok (st : SEMoments * SEMoments) kn :
  hermitian_close self st kn = true ->
  TDA.hermitian_body self st kn =
  Ok (<[kn := TDA.symmetrize (st.1 !!! kn)]> st.1,
      <[kn := TDA.symmetrize (st.2 !!! kn)]> st.2).
Proof.
  unfold hermitian_close, TDA.hermitian_body. intros [H1 H2]%andb_prop.
  cbv zeta.
  rewrite (within_tolerance_code self (st.1 !!! kn)),
          (within_tolerance_code self (st.2 !!! kn)), H1, H2. done.
Qed.

Lemma hermitian_body_fail (st : SEMoments * SEMoments) kn :
  hermitian_close self st kn = false ->
  exists msg, TDA.hermitian_body self st kn = Err (ValueError msg).
Proof.
  unfold hermitian_close, TDA.hermitian_body. intros Hc.
  cbv zeta.
  rewrite (within_tolerance_code self (st.1 !!! kn)),
          (within_tolerance_code self (st.2 !!! kn)).
  destruct (within_tolerance self (st.1 !!! kn)); simpl in *; [|by eexists].
  rewrite Hc. by eexists.
Qed.

(** the loop over a duplicate-free list of pairs [(k, n)] *)
Lemma check_loop_spec (xs : list (nat * nat)) : NoDup xs ->
  forall st : SEMoments * SEMoments,
  (forallb (hermitian_close self st) xs = true ->
   exists st', for_each (TDA.hermitian_body self) xs st = Ok st' /\
     forall kn, (kn ∈ xs ->
                 st'.1 !!! kn = TDA.symmetrize (st.1 !!! kn) /\
                 st'.2 !!! kn = TDA.symmetrize (st.2 !!! kn)) /\
                (kn ∉ xs -> st'.1 !!! kn = st.1 !!! kn /\ st'.2 !!! kn = st.2 !!! kn)) /\
  (forallb (hermitian_close self st) xs = false ->
   exists msg, for_each (TDA.hermitian_body self) xs st = Err (ValueError msg)).
Proof.
  induction 1 as [|x xs Hx Hnd IH]; intros st.
  - split; [|done]. intros _. exists st. split; [done|]. intros kn. split; [|done].
    by intros ?%elem_of_nil.
  - simpl. destruct (hermitian_close self st x) eqn:Hc; simpl.
    + rewrite (hermitian_body_ok st x Hc).
      set (st1 := (<[x:=TDA.symmetrize (st.1 !!! x)]> st.1,
                   <[x:=TDA.symmetrize (st.2 !!! x)]> st.2)).
      assert (Hsame : forallb (hermitian_close self st1) xs
                      = forallb (hermitian_close self st) xs).
      { apply forallb_ext_in. intros y Hy%list_elem_of_In.
        unfold hermitian_close, st1. simpl.
        rewrite !lookup_total_insert_ne by (intros ->; done). done. }
      destruct (IH st1) as [IHok IHfail]. rewrite Hsame in IHok, IHfail. split.
      * intros Hall. destruct (IHok Hall) as (st' & Hst' & Hlk).
        exists st'. split; [done|]. intros kn. split.
        -- intros [->|Hin]%elem_of_cons.
           ++ destruct (Hlk x) as [_ Hout]. destruct (Hout Hx) as [-> ->].
              unfold st1. simpl. by rewrite !lookup_total_insert_eq.
           ++ destruct (Hlk kn) as [Hin' _]. destruct (Hin' Hin) as [-> ->].
              unfold st1. simpl.
              rewrite !lookup_total_insert_ne by (intros ->; done). done.
        -- intros Hout. apply not_elem_of_cons in Hout as [Hne Hout].
           destruct (Hlk kn) as [_ Hout']. destruct (Hout' Hout) as [-> ->].
           unfold st1. simpl. by rewrite !lookup_total_insert_ne.
      * done.
    + split; [done|]. intros _.
      destruct (hermitian_body_fail st x Hc) as [msg ->]. by exists msg.
Qed.

End check_hermitian_facts.

(** C1. Let [st] be the occupied and virtual moments that the first two stages
    of [build_se_moments] construct.  The builder checks both moments at
    every momentum point [k] and every order [n <= nmom_max]: when some
    moment is not Hermitian within the tolerance of [np.allclose] the
    builder fails with the [ValueError] that the specification names
    [InvariantViolationError]; when all pass, every constructed moment is a
    matrix [M] of numbers, the builder returns at [(k, n)] the matrix whose
    entry [(p, q)] is [0.5 (M[p, q] + conj(M[q, p]))], and every returned
    moment equals its own conjugate transpose. *)
Theorem build_se_moments_hermitian (self : TDA.t)
    (moments_dd : gmap (nat * nat * nat) PyObj)
    (st : gmap (nat * nat) TDA.FMat * gmap (nat * nat) TDA.FMat) :
  constructed_se_moments self moments_dd = Ok st ->
  ((exists k n, (k < nkpts (TDA.kpts self))%nat /\ (n <= TDA.nmom_max self)%nat /\
      hermitian_close self st (k, n) = false) ->
   exists msg, TDA.build_se_moments self moments_dd = Err (ValueError msg)) /\
  ((forall k n, (k < nkpts (TDA.kpts self))%nat -> (n <= TDA.nmom_max self)%nat ->
      hermitian_close self st (k, n) = true) ->
   exists occ vir, TDA.build_se_moments self moments_dd = Ok (occ, vir) /\
     forall k n, (k < nkpts (TDA.kpts self))%nat -> (n <= TDA.nmom_max self)%nat ->
       exists Mo Mv Ro Rv : Arr2,
         st.1 !!! (k, n) = TDA.Finite Mo /\ st.2 !!! (k, n) = TDA.Finite Mv /\
         occ !!! (k, n) = TDA.Finite Ro /\ vir !!! (k, n) = TDA.Finite Rv /\
         (forall p q, Ro p q = Cscale half (Mo p q + Cconj (Mo q p))%C) /\
         (forall p q, Rv p q = Cscale half (Mv p q + Cconj (Mv q p))%C) /\
         hermitian Ro /\ hermitian Rv).
Proof.
  intros Hst.
  assert (Hb : TDA.build_se_moments self moments_dd = TDA.check_hermitian self st).
  { unfold constructed_se_moments in Hst. unfold TDA.build_se_moments.
    destruct (TDA.rotate_dd_moments self moments_dd) as [eta|e]; simpl in *; [|done].
    by rewrite Hst. }
  rewrite Hb. unfold TDA.check_hermitian.
  destruct (check_loop_spec self (TDA.kn_pairs self) (NoDup_kn_pairs self) st)
    as [Hok Hfail].
  split.
  - intros (k & n & Hk & Hn & Hc). apply Hfail.
    apply not_true_is_false. intros Hall.
    rewrite forallb_forall in Hall.
    rewrite (Hall (k, n)) in Hc; [done|].
    apply list_elem_of_In, elem_of_kn_pairs. done.
  - intros Hall. destruct Hok as ([occ vir] & Hst' & Hlk).
    { apply forallb_forall. intros [k n] [Hk Hn]%list_elem_of_In%elem_of_kn_pairs.
      by apply Hall. }
    exists occ, vir. split; [done|]. intros k n Hk Hn.
    destruct (Hlk (k, n)) as [Hin _].
    destruct Hin as [H1 H2]; [by apply elem_of_kn_pairs|]. simpl in *.
    pose proof (Hall k n Hk Hn) as [Ho Hv]%andb_prop.
    apply within_tolerance_finite in Ho as [Mo Ho], Hv as [Mv Hv].
    rewrite Ho in H1. rewrite Hv in H2. rewrite symmetrize_finite in H1, H2.
    exists Mo, Mv, (half_sum Mo), (half_sum Mv).
    repeat split; try done; apply half_sum_hermitian.
Qed.

(** ** Finite sums *)

Lemma csum_ext (n : nat) (f g : nat -> C) :
  (forall i, (i < n)%nat -> f i = g i) -> csum n f = csum n g.
Proof.
  induction n as [|n IH]; intros Hfg; simpl; [done|].
  rewrite IH by (intros; apply Hfg; lia). rewrite Hfg by lia. done.
Qed.

Lemma csum_zero (n : nat) (f : nat -> C) :
  (forall i, (i < n)%nat -> f i = C0) -> csum n f = C0.
Proof.
  induction n as [|n IH]; intros Hf; simpl; [done|].
  rewrite IH by (intros; apply Hf; lia). rewrite Hf by lia. ring.
Qed.

Lemma csum_add (n : nat) (f g : nat -> C) :
  csum n (fun i => (f i + g i)%C) = (csum n f + csum n g)%C.
Proof. induction n as [|n IH]; simpl; [ring|]. rewrite IH. ring. Qed.






(** ** The binomial weights *)





(** a power is [inf] for the energy [0.0] under a negative exponent only *)
Lemma zpow_None (e : Qc) (z : Z) : zpow e z = None <-> e = 0 /\ (z < 0)%Z.
Proof.
  destruct z as [|p|p]; simpl.
  - split; [done|lia].
  - split; [done|lia].
  - case_bool_decide as He.
    + split; [intros _; split; [done|lia]|done].
    + split; [done|]. intros [? _]. done.
Qed.


Lemma inf_power_true (self : TDA.t) (ps : list (Qc * nat)) (n x : nat) :
  (0, x) ∈ ps -> (n < TDA.nmom_max self)%nat -> TDA.inf_power self ps n = true.
Proof.
  intros Hx Hn. unfold TDA.inf_power. apply existsb_exists.
  exists (S n). split; [apply list_elem_of_In, elem_of_seq; lia|].
  apply existsb_exists. exists (0, x). split; [by apply list_elem_of_In|].
  apply bool_decide_eq_true, zpow_None. simpl. split; [done|lia].
Qed.

(** the term of a set of poles one of which has the energy [0.0], at an
    order below [nmom_max] *)
Lemma se_term_zero_pole (self : TDA.t) (f : nat -> nat -> Qc)
    (ps : list (Qc * nat)) (e : Arr4) (n x : nat) :
  (0 < TDA.nmo self)%nat -> (n < TDA.nmom_max self)%nat -> (0, x) ∈ ps ->
  TDA.se_term self f ps e n = TDA.NaN.
Proof.
  intros Hnmo Hn Hx. unfold TDA.se_term.
  rewrite bool_decide_true by done. by rewrite (inf_power_true self ps n x).
Qed.


(** ** The poles below and above the chemical potential *)

Lemma omap_ext_in {A B : Type} (f g : A -> option B) (l : list A) :
  (forall x, x ∈ l -> f x = g x) -> omap f l = omap g l.
Proof.
  induction l as [|a l IH]; intros Hfg; [done|].
  change (omap f (a :: l)) with (match f a with Some y => y :: omap f l | None => omap f l end).
  change (omap g (a :: l)) with (match g a with Some y => y :: omap g l | None => omap g l end).
  rewrite (Hfg a) by (by left). rewrite IH; [done|].
  intros x Hx. apply Hfg. by right.
Qed.

Lemma poles_shift (es occ : list Qc) (p : Qc -> bool) (a : nat) :
  (filter (fun xo : Qc * nat * Qc => p xo.2 = true)
          (zip (zip es (seq a (length es))) occ)).*1 =
  omap (fun x => eo ← (e ← es !! (x - a)%nat; o ← occ !! (x - a)%nat; Some (e, o));
                 if p eo.2 then Some (eo.1, x) else None)
       (seq a (length es)).
Proof.
  revert occ a. induction es as [|e es IH]; intros occ a; [done|].
  destruct occ as [|o occ].
  - simpl. replace (a - a)%nat with 0%nat by lia. simpl.
    clear IH. generalize (S a). intros b.
    assert (Hnil : forall (l : list nat),
              omap (fun x : nat =>
                      eo ← (e0 ← (e :: es) !! (x - a)%nat;
                            o ← @nil Qc !! (x - a)%nat; Some (e0, o));
                      if p eo.2 then Some (eo.1, x) else None) l = []).
    { induction l as [|y l IHl]; [done|]. simpl.
      destruct ((e :: es) !! (y - a)%nat); simpl; apply IHl. }
    symmetry. apply Hnil.
  - simpl. replace (a - a)%nat with 0%nat by lia. simpl.
    rewrite filter_cons. simpl.
    assert (Hrest : omap (fun x : nat =>
                eo ← (e0 ← (e :: es) !! (x - a)%nat;
                      o0 ← (o :: occ) !! (x - a)%nat; Some (e0, o0));
                if p eo.2 then Some (eo.1, x) else None) (seq (S a) (length es))
              = omap (fun x : nat =>
                eo ← (e0 ← es !! (x - S a)%nat;
                      o0 ← occ !! (x - S a)%nat; Some (e0, o0));
                if p eo.2 then Some (eo.1, x) else None) (seq (S a) (length es))).
    { apply omap_ext_in. intros x Hx%elem_of_seq.
      replace (x - a)%nat with (S (x - S a)) by lia. done. }
    assert (Hgoal : (filter (λ xo : Qc * nat * Qc, p xo.2 = true)
                       (zip (zip es (seq (S a) (length es))) occ)).*1 =
                    omap (λ x : nat,
                      eo ← (e0 ← (e :: es) !! (x - a)%nat;
                            o0 ← (o :: occ) !! (x - a)%nat; Some (e0, o0));
                      if p eo.2 then Some (eo.1, x) else None) (seq (S a) (length es))).
    { rewrite Hrest. apply IH. }
    destruct (p o) eqn:Hp; destruct (decide _) as [Hd|Hd]; try done.
    simpl. f_equal. exact Hgoal.
Qed.

Lemma poles_below_code (self : TDA.t) (kx : nat) :
  TDA.poles self kx is_occ = poles_below self kx.
Proof.
  unfold TDA.poles, mask_sel, poles_below, pole_at.
  rewrite poles_shift. apply omap_ext_in. intros x _.
  rewrite Nat.sub_0_r. unfold is_occ.
  destruct (TDA.mo_energy_g self kx !! x); simpl; [|done].
  destruct (TDA.mo_occ_g self kx !! x); done.
Qed.

Lemma poles_above_code (self : TDA.t) (kx : nat) :
  TDA.poles self kx is_vir = poles_above self kx.
Proof.
  unfold TDA.poles, mask_sel, poles_above, pole_at.
  rewrite poles_shift. apply omap_ext_in. intros x _.
  rewrite Nat.sub_0_r. unfold is_vir.
  destruct (TDA.mo_energy_g self kx !! x); simpl; [|done].
  destruct (TDA.mo_occ_g self kx !! x); done.
Qed.


(** ** Sums of moments that may be [nan] *)

Lemma fold_fmat_nan (l : list TDA.FMat) :
  fold_left TDA.fmat_add l TDA.NaN = TDA.NaN.
Proof. induction l as [|b l IH]; [done|]. simpl. apply IH. Qed.

Lemma fold_fmat_absorb (l : list TDA.FMat) (a : TDA.FMat) :
  TDA.NaN ∈ l -> fold_left TDA.fmat_add l a = TDA.NaN.
Proof.
  revert a. induction l as [|b l IH]; intros a Hin; [by apply elem_of_nil in Hin|].
  apply elem_of_cons in Hin as [<-|Hin]; simpl.
  - destruct a; apply fold_fmat_nan.
  - by apply IH.
Qed.




(** ** The convolution over the poles *)

Lemma loop2_select_snd (kp : KPoints) {D : Type}
    (g : (nat * kvec kp) * (nat * kvec kp) -> option D) (k : nat * kvec kp) :
  k ∈ enumerate_kpts kp ->
  (forall q' k', k' ∈ enumerate_kpts kp -> k'.1 <> k.1 -> g (q', k') = None) ->
  omap g (loop2 kp) =
  omap (fun q => g (q, k))
       (filter (fun q => conserving kp q k = true) (enumerate_kpts kp)).
Proof.
  intros Hk Hg. unfold loop2. rewrite omap_bind_list.
  rewrite <- (bind_filter_omap (fun q => conserving kp q k)).
  apply bind_ext_in. intros q Hq. rewrite omap_bind_list.
  rewrite (bind_unique _ k); [|apply NoDup_enumerate|done|].
  - destruct (conserving kp q k); [|done]. simpl. by destruct (g (q, k)).
  - intros k' Hk' Hne. destruct (conserving kp q k'); [|done]. simpl.
    rewrite Hg; [done|done|]. intros He. apply Hne. by apply enumerate_fst_inj.
Qed.

Lemma fold_arr2_add_apply (l : list Arr2) (a : Arr2) (p q : nat) :
  fold_left arr2_add l a p q = fold_left Cadd (map (fun f => f p q) l) (a p q).
Proof. revert a. induction l as [|b l IH]; intros a; simpl; [done|apply IH]. Qed.

Section se_construct_facts.
Variable self : TDA.t.
Variable eta : gmap (nat * nat) Arr4.
Abbreviation kp := (TDA.kpts self).
Abbreviation pt := (nat * kvec (TDA.kpts self))%type.
Abbreviation SEMoments := (gmap (nat * nat) TDA.FMat).

(** the per-pole tensors of every momentum-conserving pair are there *)
Hypothesis eta_present : forall q k : pt, (q, k) ∈ loop2 kp ->
  is_Some (eta !! (k.1, q.1)).

Lemma se_val_ok (f : nat -> nat -> Qc) (mask : Qc -> bool) (n : nat) (m : SEMoments) (q k : pt) :
  (q, k) ∈ loop2 kp ->
  se_val self f mask eta n m (q, k) =
  Ok (TDA.se_term self f (TDA.poles self (rel self q k) mask)
        (eta_at eta (k.1, q.1)) n).
Proof.
  intros Hin. pose proof Hin as (_ & _ & Hc)%elem_of_loop2.
  unfold se_val. simpl. rewrite (related_rel self q k Hc). simpl.
  destruct (eta_present q k Hin) as [e He].
  unfold getitem, eta_at. rewrite He. done.
Qed.

Lemma convolve_loop_split (n : nat) (xs : list (pt * pt)) :
  (forall x, x ∈ xs -> x ∈ loop2 kp) ->
  forall st : SEMoments * SEMoments,
  exists st', for_each (TDA.convolve_body self eta n) xs st = Ok st' /\
    for_each (acc_body TDA.fmat_add (key_kn self n) (se_val self TDA.fh is_occ eta n))
             xs st.1 = Ok st'.1 /\
    for_each (acc_body TDA.fmat_add (key_kn self n) (se_val self TDA.fp is_vir eta n))
             xs st.2 = Ok st'.2.
Proof.
  induction xs as [|[q k] xs IH]; intros Hxs st.
  - by exists st.
  - assert (Hin : (q, k) ∈ loop2 kp) by (apply Hxs; left).
    pose proof Hin as (_ & _ & Hc)%elem_of_loop2.
    destruct (eta_present q k Hin) as [e He].
    assert (Hb : TDA.convolve_body self eta n st (q, k) =
      Ok (<[(k.1, n) := TDA.fmat_add (st.1 !!! (k.1, n))
              (TDA.se_term self TDA.fh (TDA.poles self (rel self q k) is_occ) e n)]> st.1,
          <[(k.1, n) := TDA.fmat_add (st.2 !!! (k.1, n))
              (TDA.se_term self TDA.fp (TDA.poles self (rel self q k) is_vir) e n)]> st.2)).
    { destruct q as [q qpt], k as [k kptp]. unfold TDA.convolve_body.
      pose proof (related_rel self (q, qpt) (k, kptp) Hc) as Hr.
      simpl in Hr, He. rewrite Hr. simpl.
      unfold getitem. rewrite He. done. }
    rewrite !for_each_cons, Hb.
    rewrite (acc_body_ok TDA.fmat_add (key_kn self n) _ _ _ _
               (se_val_ok TDA.fh is_occ n st.1 q k Hin)).
    rewrite (acc_body_ok TDA.fmat_add (key_kn self n) _ _ _ _
               (se_val_ok TDA.fp is_vir n st.2 q k Hin)).
    unfold eta_at. rewrite He. simpl.
    apply IH. intros x Hx. apply Hxs. by right.
Qed.

Lemma convolve_n_body_spec (n : nat) (st : SEMoments * SEMoments) :
  (forall key : nat * nat, key.2 = n -> st.1 !!! key = TDA.Finite zeros2 /\ st.2 !!! key = TDA.Finite zeros2) ->
  exists st', TDA.convolve_n_body self eta st n = Ok st' /\
    (forall key : nat * nat, key.2 <> n ->
       st'.1 !!! key = st.1 !!! key /\ st'.2 !!! key = st.2 !!! key) /\
    forall k : pt, k ∈ enumerate_kpts kp ->
      st'.1 !!! (k.1, n) = se_moment_code self TDA.fh is_occ eta n k /\
      st'.2 !!! (k.1, n) = se_moment_code self TDA.fp is_vir eta n k.
Proof.
  intros Hfresh. unfold TDA.convolve_n_body.
  destruct (convolve_loop_split n (loop2 kp) ltac:(done) st) as (st' & Hst' & H1 & H2).
  exists st'. split; [done|].
  set (W := fun key : nat * nat => key.2 = n).
  assert (HW : forall x, W (key_kn self n x)) by done.
  assert (Hf : forall (f : nat -> nat -> Qc) (mask : Qc -> bool) (m m' : SEMoments) x,
            (forall k, ~ W k -> m !!! k = m' !!! k) ->
            se_val self f mask eta n m x = se_val self f mask eta n m' x) by done.
  split.
  { intros key Hkey. split.
    - apply (acc_loop_frozen TDA.fmat_add (key_kn self n)
               (se_val self TDA.fh is_occ eta n) W HW _ _ _ H1 key Hkey).
    - apply (acc_loop_frozen TDA.fmat_add (key_kn self n)
               (se_val self TDA.fp is_vir eta n) W HW _ _ _ H2 key Hkey). }
  assert (Hsel : forall (f : nat -> nat -> Qc) (mask : Qc -> bool) (m : SEMoments) (k : pt), k ∈ enumerate_kpts kp ->
            contribs (key_kn self n) (se_val self f mask eta n) m (k.1, n) (loop2 kp)
            = map (fun q => TDA.se_term self f (TDA.poles self (rel self q k) mask)
                              (eta_at eta (k.1, q.1)) n) (sources self k)).
  { intros f mask m k Hk. unfold contribs.
    rewrite (loop2_select_snd kp _ k Hk).
    2:{ intros q' k' _ Hne. rewrite decide_False; [done|].
        unfold key_kn. simpl. intros [= ?]. done. }
    apply omap_map_Some. intros q [Hc Hq]%list_elem_of_filter.
    rewrite decide_True by done.
    rewrite se_val_ok; [done|]. by apply elem_of_loop2. }
  intros k Hk. destruct (Hfresh (k.1, n)) as [Hz1 Hz2]; [done|]. split.
  - rewrite (acc_loop_lookup TDA.fmat_add (key_kn self n)
               (se_val self TDA.fh is_occ eta n) W HW (Hf _ _) _ _ _ H1).
    rewrite Hsel by done. by rewrite Hz1.
  - rewrite (acc_loop_lookup TDA.fmat_add (key_kn self n)
               (se_val self TDA.fp is_vir eta n) W HW (Hf _ _) _ _ _ H2).
    rewrite Hsel by done. by rewrite Hz2.
Qed.

Lemma convolve_orders_spec (len : nat) : forall (a : nat) (st : SEMoments * SEMoments),
  (forall key : nat * nat, (a <= key.2)%nat ->
     st.1 !!! key = TDA.Finite zeros2 /\ st.2 !!! key = TDA.Finite zeros2) ->
  exists st', for_each (TDA.convolve_n_body self eta) (seq a len) st = Ok st' /\
    (forall key : nat * nat, (key.2 < a)%nat ->
       st'.1 !!! key = st.1 !!! key /\ st'.2 !!! key = st.2 !!! key) /\
    forall (n : nat) (k : pt), (a <= n < a + len)%nat -> k ∈ enumerate_kpts kp ->
      st'.1 !!! (k.1, n) = se_moment_code self TDA.fh is_occ eta n k /\
      st'.2 !!! (k.1, n) = se_moment_code self TDA.fp is_vir eta n k.
Proof.
  induction len as [|len IH]; intros a st Hfresh.
  - exists st. split; [done|]. split; [done|]. intros n k Hn. lia.
  - simpl.
    destruct (convolve_n_body_spec a st) as (st1 & Hst1 & Hfr1 & Hnew1).
    { intros key <-. by apply Hfresh. }
    rewrite Hst1.
    destruct (IH (S a) st1) as (st' & Hst' & Hfr & Hnew).
    { intros key Hkey. destruct (Hfr1 key) as [-> ->]; [lia|]. apply Hfresh. lia. }
    exists st'. split; [done|]. split.
    { intros key Hkey. destruct (Hfr key) as [-> ->]; [lia|]. apply Hfr1. lia. }
    intros n k Hn Hk. destruct (decide (n = a)) as [->|Hne].
    + destruct (Hfr (k.1, a)) as [-> ->]; [simpl; lia|]. by apply Hnew1.
    + apply Hnew; [lia|done].
Qed.

End se_construct_facts.

(** a pole of the energy [0.0] makes the moments of the orders below
    [nmom_max] [nan] *)
Lemma zero_pole_moments (self : TDA.t) (eta : gmap (nat * nat) Arr4)
    (q k : nat * kvec (TDA.kpts self)) (n : nat) :
  (forall q k : nat * kvec (TDA.kpts self), (q, k) ∈ loop2 (TDA.kpts self) ->
     is_Some (eta !! (k.1, q.1))) ->
  (q, k) ∈ loop2 (TDA.kpts self) ->
  (0 < TDA.nmo self)%nat -> (n < TDA.nmom_max self)%nat ->
  exists occ vir : gmap (nat * nat) TDA.FMat,
    TDA.construct_se_moments self eta = Ok (occ, vir) /\
    ((exists x, (0, x) ∈ poles_below self (rel self q k)) ->
     occ !!! (k.1, n) = TDA.NaN) /\
    ((exists x, (0, x) ∈ poles_above self (rel self q k)) ->
     vir !!! (k.1, n) = TDA.NaN).
Proof.
  intros Heta Hqk Hnmo Hn. unfold TDA.construct_se_moments.
  destruct (convolve_orders_spec self eta Heta (S (TDA.nmom_max self)) 0 (∅, ∅))
    as ([occ vir] & Hst & _ & Hnew).
  { intros key _. simpl. by rewrite !lookup_total_empty. }
  exists occ, vir. split; [done|].
  pose proof Hqk as (Hq & Hk & Hc)%elem_of_loop2.
  destruct (Hnew n k) as [Ho Hv]; [lia|done|]. simpl in Ho, Hv.
  assert (Hsrc : q ∈ sources self k).
  { unfold sources. apply list_elem_of_filter. done. }
  split.
  - intros [x Hx]. rewrite Ho. unfold se_moment_code.
    apply fold_fmat_absorb, list_elem_of_fmap. exists q. split; [|done].
    symmetry. apply (se_term_zero_pole self _ _ _ n x); [done|done|].
    by rewrite poles_below_code.
  - intros [x Hx]. rewrite Hv. unfold se_moment_code.
    apply fold_fmat_absorb, list_elem_of_fmap. exists q. split; [|done].
    symmetry. apply (se_term_zero_pole self _ _ _ n x); [done|done|].
    by rewrite poles_above_code.
Qed.


(** C3. On an object with a pole of the energy [0.0], the convolution does
    not weight the pole as the specification says.  Let [k] be a momentum
    point, [q] a transfer related to it, and [n < nmom_max] an order: when a
    pole below the chemical potential at the related point has the energy
    [0.0], the occupied moment that the builder constructs at [(k, n)] is
    [nan] in every entry, whatever the per-pole tensors are, where the
    weights [binom(n, t) (-1)^t E^(n - t)] for [t] from [0] to [n] give a
    number; and the same holds of the virtual moment for a pole above the
    chemical potential.  The code sums over every [t] up to [nmom_max], and
    for [t > n] multiplies the weight [0.0] with the power [0.0 ** (n - t)],
    which is [inf]. *)
Theorem construct_se_moments_zero_pole (self : TDA.t) (eta : gmap (nat * nat) Arr4)
    (q k : nat * kvec (TDA.kpts self)) (n : nat) :
  (forall q k : nat * kvec (TDA.kpts self), (q, k) ∈ loop2 (TDA.kpts self) ->
     is_Some (eta !! (k.1, q.1))) ->
  (q, k) ∈ loop2 (TDA.kpts self) ->
  (0 < TDA.nmo self)%nat -> (n < TDA.nmom_max self)%nat ->
  exists occ vir : gmap (nat * nat) TDA.FMat,
    TDA.construct_se_moments self eta = Ok (occ, vir) /\
    ((exists x, (0, x) ∈ poles_below self (rel self q k)) ->
     occ !!! (k.1, n) = TDA.NaN) /\
    ((exists x, (0, x) ∈ poles_above self (rel self q k)) ->
     vir !!! (k.1, n) = TDA.NaN).
Proof. exact (zero_pole_moments self eta q k n). Qed.



(** ** Runs *)

Lemma run_bind_res {A B : Type} (m : Run A) (f : A -> Run B) :
  run_res (m ≫= f) =
  match run_res m with
  | Ok a => run_res (f a)
  | Err e => Err e
  end.
Proof. unfold mbind, Run_bind. by destruct (run_res m). Qed.

Lemma run_bind_log {A B : Type} (m : Run A) (f : A -> Run B) :
  run_log (m ≫= f) =
  match run_res m with
  | Ok a => run_log m ++ run_log (f a)
  | Err e => run_log m
  end.
Proof. unfold mbind, Run_bind. by destruct (run_res m). Qed.

Lemma for_each_run_cons {S X : Type} (body : S -> X -> Run S) x xs s :
  for_each_run body (x :: xs) s = body s x ≫= for_each_run body xs.
Proof. reflexivity. Qed.

(** an invariant of the state of a loop that ends without an exception *)
Lemma for_each_run_inv {S X : Type} (P : S -> Prop) (body : S -> X -> Run S) xs :
  (forall s x s', x ∈ xs -> P s -> run_res (body s x) = Ok s' -> P s') ->
  forall s s', P s -> run_res (for_each_run body xs s) = Ok s' -> P s'.
Proof.
  induction xs as [|x xs IH]; intros Hbody s s' Hs Hr.
  - simpl in Hr. by injection Hr as <-.
  - rewrite for_each_run_cons, run_bind_res in Hr.
    destruct (run_res (body s x)) as [s1|e] eqn:Hb; [|done].
    apply (IH ltac:(intros; eapply Hbody; [by right|done..]) s1 s'); [|done].
    eapply Hbody; [by left|done..].
Qed.

(** ** A low-dimensional block ends the run *)

Lemma prompt_quiet {A : Type} (r : Result A) : prompt (quiet r).
Proof. left. constructor. Qed.

Lemma prompt_ret {A : Type} (a : A) : prompt (mret a : Run A).
Proof. left. constructor. Qed.

Lemma prompt_bind {A B : Type} (m : Run A) (f : A -> Run B) :
  prompt m -> (forall a, prompt (f a)) -> prompt (m ≫= f).
Proof.
  intros Hm Hf. unfold prompt. rewrite run_bind_log, run_bind_res.
  destruct (run_res m) as [a|e] eqn:Hr.
  - destruct Hm as [Hm|(l & ev & _ & _ & _ & Hm)]; [|by rewrite Hr in Hm].
    destruct (Hf a) as [Hfa|(l & ev & Hl & Hcl & Hev & Hres)].
    + left. by apply Forall_app.
    + right. exists (run_log m ++ l), ev. rewrite Hl, app_assoc.
      split; [reflexivity|]. split; [by apply Forall_app|]. split; assumption.
  - destruct Hm as [Hm|(l & ev & Hl & Hcl & Hev & Hm)]; [by left|].
    right. exists l, ev. rewrite Hr in Hm. injection Hm as ->.
    repeat split; assumption.
Qed.

Lemma prompt_for_each {S X : Type} (body : S -> X -> Run S) xs :
  (forall s x, prompt (body s x)) -> forall s, prompt (for_each_run body xs s).
Proof.
  intros Hbody. induction xs as [|x xs IH]; intros s.
  - apply prompt_ret.
  - rewrite for_each_run_cons. by apply prompt_bind.
Qed.

Lemma prompt_yield_block (self : KIntegrals.t) ki kj b1 c :
  prompt (KIntegrals.yield_block self ki kj b1 c).
Proof.
  unfold prompt, KIntegrals.yield_block, KIntegrals.next_block. simpl.
  destruct (decide (chunk_sign c = (-1)%Z)) as [Hs|Hs].
  - right. exists [], (sr_block ki kj (chunk_sign c)).
    rewrite bool_decide_eq_true_2 by done. done.
  - left. constructor; [done|constructor].
Qed.

(** solves the goals [prompt m] for the runs of the container *)
Ltac prompt_tac :=
  repeat first
    [ apply prompt_quiet
    | apply prompt_ret
    | apply prompt_yield_block
    | apply prompt_for_each; intros
    | apply prompt_bind; [|intros]
    | match goal with
      | |- prompt (let '(_, _) := ?x in _) => destruct x
      | |- prompt (if ?b then _ else _) => destruct b
      | |- prompt (match ?x with _ => _ end) => destruct x
      end ].

Lemma prompt_transform_loops (self : KIntegrals.t) (dq dx di : bool) :
  prompt (KIntegrals.transform_loops self dq dx di).
Proof.
  unfold KIntegrals.transform_loops, KIntegrals.transform_q,
    KIntegrals.transform_pass, KIntegrals.lai_part,
    KIntegrals.pass_chunk, KIntegrals.lai_chunk.
  prompt_tac.
Qed.

Lemma prompt_get_compression_metric (self : KIntegrals.t) :
  prompt (KIntegrals.get_compression_metric self).
Proof.
  unfold KIntegrals.get_compression_metric, KIntegrals.compression_metric,
    KIntegrals.metric_key, KIntegrals.metric_body, KIntegrals.metric_chunk.
  prompt_tac.
Qed.

Lemma prompt_ok_clean {A : Type} (r : Run A) (a : A) :
  prompt r -> run_res r = Ok a ->
  Forall (fun ev => ~ low_dimensional ev) (run_log r).
Proof.
  intros [Hc|(l & ev & _ & _ & _ & He)] Hr; [done|]. by rewrite Hr in He.
Qed.

Lemma prompt_transform_store (self : KIntegrals.t) (dq dx di : bool) :
  prompt (KIntegrals.transform_store self dq dx di).2.
Proof.
  unfold KIntegrals.transform_store.
  destruct (negb (dq || dx || di)); [apply prompt_ret|].
  pose proof (prompt_transform_loops self dq dx di) as Hp.
  destruct (run_res (KIntegrals.transform_loops self dq dx di)) as [st|e] eqn:Hr; simpl.
  - left. simpl. by apply (prompt_ok_clean _ st).
  - destruct Hp as [Hc|(l & ev & Hl & Hcl & Hev & He)]; [by left|].
    right. exists l, ev. simpl. rewrite Hr in He. by injection He as ->.
Qed.

Lemma prompt_transform (self : KIntegrals.t) (do_Lpq : option bool) (dx di : bool) :
  prompt (KIntegrals.transform self do_Lpq dx di).2.
Proof.
  unfold KIntegrals.transform.
  set (m := match KIntegrals._rot self with
            | Some r => mret (Some r)
            | None => KIntegrals.get_compression_metric self
            end).
  assert (Hm : prompt m).
  { unfold m. destruct (KIntegrals._rot self);
      [apply prompt_ret|apply prompt_get_compression_metric]. }
  assert (Hseq : forall (s : KIntegrals.t) (r0 : option (list (option Rot))),
            run_res m = Ok r0 ->
            prompt (let '(self', r) :=
                      KIntegrals.transform_store s
                        (default (KIntegrals.store_full self) do_Lpq) dx di in
                    (self', mkRun (run_log m ++ run_log r) (run_res r))).2).
  { intros s r0 Hr0.
    pose proof (prompt_transform_store s
                  (default (KIntegrals.store_full self) do_Lpq) dx di) as Hs.
    destruct (KIntegrals.transform_store s _ dx di) as [self' r]. simpl in *.
    pose proof (prompt_ok_clean m r0 Hm Hr0) as Hclean.
    destruct Hs as [Hc|(l & ev & Hl & Hcl & Hev & He)].
    - left. simpl. by apply Forall_app.
    - right. exists (run_log m ++ l), ev. simpl. rewrite Hl, app_assoc.
      split; [reflexivity|]. split; [by apply Forall_app|]. by split. }
  destruct (run_res m) as [[rot|]|e] eqn:Hr.
  - destruct (bool_decide _); [|by apply (Hseq _ (Some rot))].
    simpl. left. simpl. by apply (prompt_ok_clean m (Some rot)).
  - by apply (Hseq _ None).
  - simpl. destruct Hm as [Hc|(l & ev & Hl & Hcl & Hev & He)]; [by left|].
    right. exists l, ev. simpl. rewrite Hr in He. by injection He as ->.
Qed.

Lemma transform_store_raise_blocks (self : KIntegrals.t) (dq dx di : bool) e :
  run_res (KIntegrals.transform_store self dq dx di).2 = Err e ->
  KIntegrals._blocks (KIntegrals.transform_store self dq dx di).1 = KIntegrals._blocks self.
Proof.
  unfold KIntegrals.transform_store.
  destruct (negb (dq || dx || di)); [done|].
  by destruct (run_res (KIntegrals.transform_loops self dq dx di)).
Qed.

Lemma transform_raise_blocks (self : KIntegrals.t) (do_Lpq : option bool) (dx di : bool) e :
  run_res (KIntegrals.transform self do_Lpq dx di).2 = Err e ->
  KIntegrals._blocks (KIntegrals.transform self do_Lpq dx di).1 = KIntegrals._blocks self.
Proof.
  unfold KIntegrals.transform.
  set (m := match KIntegrals._rot self with
            | Some r => mret (Some r)
            | None => KIntegrals.get_compression_metric self
            end).
  destruct (run_res m) as [[rot|]|e'].
  - destruct (bool_decide _); [done|].
    pose proof (transform_store_raise_blocks
                  (KIntegrals.set_rot self (Some (KIntegrals.fill_rot self rot)))
                  (default (KIntegrals.store_full self) do_Lpq) dx di e) as Hs.
    destruct (KIntegrals.transform_store _ _ dx di) as [self' r]. simpl in *. done.
  - pose proof (transform_store_raise_blocks (KIntegrals.set_rot self None)
                  (default (KIntegrals.store_full self) do_Lpq) dx di e) as Hs.
    destruct (KIntegrals.transform_store _ _ dx di) as [self' r]. simpl in *. done.
  - done.
Qed.

(** C7. Whenever the provider delivers a low-dimensional block during
    [transform] (an item of [sr_loop] whose sign is [-1]), the call fails with
    the [NotImplementedError] that the specification names
    [UnsupportedIntegralError]; it fails at once: that block is the last event
    of the run and the first low-dimensional one, nothing is read again, and
    the object keeps the blocks it had. *)
Theorem transform_low_dimensional (self : KIntegrals.t) (do_Lpq : option bool)
    (do_Lpx do_Lia : bool) (ev : Event) :
  ev ∈ run_log (KIntegrals.transform self do_Lpq do_Lpx do_Lia).2 ->
  low_dimensional ev ->
  run_res (KIntegrals.transform self do_Lpq do_Lpx do_Lia).2
    = Err (NotImplementedError "Low dimensional integrals") /\
  (exists l, run_log (KIntegrals.transform self do_Lpq do_Lpx do_Lia).2 = l ++ [ev] /\
             Forall (fun ev' => ~ low_dimensional ev') l) /\
  KIntegrals._blocks (KIntegrals.transform self do_Lpq do_Lpx do_Lia).1
    = KIntegrals._blocks self.
Proof.
  intros Hin Hev.
  destruct (prompt_transform self do_Lpq do_Lpx do_Lia)
    as [Hc|(l & ev' & Hl & Hcl & Hev' & He)].
  - rewrite Forall_forall in Hc. by destruct (Hc ev Hin).
  - assert (ev = ev') as <-.
    { rewrite Hl in Hin. apply elem_of_app in Hin as [Hin|Hin].
      - rewrite Forall_forall in Hcl. by destruct (Hcl ev Hin).
      - by apply list_elem_of_singleton in Hin. }
    split; [done|]. split; [by exists l|].
    by apply (transform_raise_blocks _ _ _ _ _ He).
Qed.

(** ** The compression basis *)

(** C6. When [get_compression_metric] returns rotations, the rotation of
    every momentum transfer [q] holds exactly the eigenvectors of the
    accumulated metric [prod[q]] whose eigenvalue exceeds the tolerance in
    magnitude; when their number is the full auxiliary dimension the
    rotation of [q] is [None], and the auxiliary dimension that [naux]
    reports for [q] is the full one; otherwise [naux] reports the number of
    retained eigenvectors. *)
Theorem compression_basis_truncation (self : KIntegrals.t) (rot : list (option Rot)) :
  run_res (KIntegrals.get_compression_metric self) = Ok (Some rot) ->
  exists prod : gmap nat Arr2,
    run_res (KIntegrals.compression_metric self) = Ok prod /\
    forall q : nat, (q < nkpts (KIntegrals.kpts self))%nat ->
      let kept :=
        (filter (fun ev : Qc * Arr1 =>
                   KIntegrals.compression_tol self < Qcabs.Qcabs ev.1)
                (KIntegrals.eigh self (prod !!! q))).*2 in
      rot !! q = Some (if bool_decide (length kept = KIntegrals.naux_full self)
                       then None else Some kept) /\
      KIntegrals.naux (KIntegrals.set_rot self (Some rot)) !! q =
        Some (if bool_decide (length kept = KIntegrals.naux_full self)
              then KIntegrals.naux_full self else length kept).
Proof.
  unfold KIntegrals.get_compression_metric.
  destruct (KIntegrals.compression self) as [|key keys] eqn:Hc; [done|].
  rewrite run_bind_res.
  destruct (run_res (KIntegrals.compression_metric self)) as [prod|e]; [|done].
  intros Hr. simpl in Hr. injection Hr as <-. exists prod. split; [done|].
  intros q Hq.
  set (kept := (filter (fun ev : Qc * Arr1 =>
                          KIntegrals.compression_tol self < Qcabs.Qcabs ev.1)
                       (KIntegrals.eigh self (prod !!! q))).*2).
  assert (Hq' : loop1 (KIntegrals.kpts self) !! q = Some q).
  { unfold loop1. by rewrite lookup_seq_lt. }
  split.
  - rewrite list_lookup_fmap, Hq'. done.
  - unfold KIntegrals.naux. simpl.
    rewrite !list_lookup_fmap, Hq'. simpl.
    unfold KIntegrals.truncate, KIntegrals.retained. fold kept.
    by destruct (bool_decide (length kept = KIntegrals.naux_full self)).
Qed.

(** ** The cache of the Madelung constant *)

Lemma transform_store_madelung (self : KIntegrals.t) (dq dx di : bool) :
  KIntegrals._madelung (KIntegrals.transform_store self dq dx di).1
  = KIntegrals._madelung self.
Proof.
  unfold KIntegrals.transform_store.
  destruct (negb (dq || dx || di)); [done|].
  by destruct (run_res (KIntegrals.transform_loops self dq dx di)).
Qed.

Lemma transform_madelung (self : KIntegrals.t) (do_Lpq : option bool) (dx di : bool) :
  KIntegrals._madelung (KIntegrals.transform self do_Lpq dx di).1
  = KIntegrals._madelung self.
Proof.
  unfold KIntegrals.transform.
  set (m := match KIntegrals._rot self with
            | Some r => mret (Some r)
            | None => KIntegrals.get_compression_metric self
            end).
  destruct (run_res m) as [[rot|]|e'].
  - destruct (bool_decide _); [done|].
    pose proof (transform_store_madelung
                  (KIntegrals.set_rot self (Some (KIntegrals.fill_rot self rot)))
                  (default (KIntegrals.store_full self) do_Lpq) dx di) as Hs.
    destruct (KIntegrals.transform_store _ _ dx di) as [self' r]. simpl in *. done.
  - pose proof (transform_store_madelung (KIntegrals.set_rot self None)
                  (default (KIntegrals.store_full self) do_Lpq) dx di) as Hs.
    destruct (KIntegrals.transform_store _ _ dx di) as [self' r]. simpl in *. done.
  - done.
Qed.

Lemma madelung_read_None (self : KIntegrals.t) :
  KIntegrals._madelung self = None ->
  (KIntegrals.madelung self).1 = None /\
  KIntegrals._madelung (KIntegrals.madelung self).2 = None /\
  KIntegrals._madeling (KIntegrals.madelung self).2
    = Some (KIntegrals.madelung_value self).
Proof.
  unfold KIntegrals.madelung. intros H. rewrite H. simpl. by rewrite H.
Qed.

Lemma calls_read (self : KIntegrals.t) (cs : list Call) :
  calls self (read_madelung :: cs) =
  ((KIntegrals.madelung self).1 :: (calls (KIntegrals.madelung self).2 cs).1,
   (calls (KIntegrals.madelung self).2 cs).2).
Proof.
  cbn [calls]. destruct (KIntegrals.madelung self) as [v self'].
  cbn [fst snd]. by destruct (calls self' cs).
Qed.

(** C10. On an object that [__init__] has left with [_madelung = None],
    whatever calls of [transform] and reads of [madelung] follow, in any
    order, every read of [madelung] returns [None] and [_madelung] is [None]
    to the end: a read stores the value it computes in the attribute
    [_madeling]. *)
Theorem madelung_always_None (self : KIntegrals.t) (cs : list Call) :
  KIntegrals._madelung self = None ->
  Forall (fun v => v = None) (calls self cs).1 /\
  KIntegrals._madelung (calls self cs).2 = None /\
  KIntegrals._madeling (KIntegrals.madelung (calls self cs).2).2
    = Some (KIntegrals.madelung_value (calls self cs).2).
Proof.
  intros Hnone.
  assert (H12 : Forall (fun v => v = None) (calls self cs).1 /\
                KIntegrals._madelung (calls self cs).2 = None).
  { revert self Hnone. induction cs as [|c cs IH]; intros self Hnone.
    - simpl. split; [constructor|done].
    - destruct c as [a b d|].
      + simpl. apply IH. by rewrite transform_madelung.
      + rewrite calls_read. simpl.
        destruct (madelung_read_None self Hnone) as (Hv & Hm & _).
        destruct (IH _ Hm) as (H1 & H2).
        split; [by constructor|done]. }
  destruct H12 as [H1 H2]. split; [done|]. split; [done|].
  by apply madelung_read_None.
Qed.

(** ** The quasiparticle self-consistency kernel *)

Section fock_loop_facts.
Variable gw : qsGW.t.
Variable integrals : qsGW.Integrals gw.
Variables h1e se_qp mo_coeff_ref : RMat.

Abbreviation iter := (qsGW.fock_iter gw integrals h1e se_qp mo_coeff_ref).
Abbreviation iterate := (qsGW.fock_iterate gw integrals h1e se_qp mo_coeff_ref).
Abbreviation error := (qsGW.fock_error gw integrals h1e se_qp mo_coeff_ref).
Abbreviation loop := (qsGW.fock_loop gw integrals h1e se_qp mo_coeff_ref).

Lemma fock_iterate_shift (k : nat) (st : qsGW.FockState gw) :
  iterate k (iter st).1 = iterate (S k) st.
Proof.
  induction k as [|k IH]; [done|].
  change (iterate (S k) (iter st).1) with (iter (iterate k (iter st).1)).1.
  by rewrite IH.
Qed.

Lemma fock_error_shift (j : nat) (st : qsGW.FockState gw) :
  (1 <= j)%nat -> error j (iter st).1 = error (S j) st.
Proof.
  intros Hj. unfold qsGW.fock_error.
  rewrite fock_iterate_shift. by replace (S (j - 1)) with (S j - 1)%nat by lia.
Qed.

Lemma fock_loop_spec (cycles : list nat) : forall st : qsGW.FockState gw,
  exists k : nat, (k <= length cycles)%nat /\
    (loop cycles st).1 = iterate k st /\
    (forall j, (1 <= j < k)%nat -> ~ error j st < qsGW.conv_tol_qp gw) /\
    ((loop cycles st).2 = true ->
       (1 <= k)%nat /\ error k st < qsGW.conv_tol_qp gw) /\
    ((loop cycles st).2 = false ->
       k = length cycles /\
       forall j, (1 <= j <= k)%nat -> ~ error j st < qsGW.conv_tol_qp gw).
Proof.
  induction cycles as [|c cycles IH]; intros st.
  - exists 0%nat. simpl. repeat split; try done; intros; lia.
  - simpl.
    destruct (iter st) as [st1 e1] eqn:Hit.
    assert (Hst1 : st1 = (iter st).1) by (by rewrite Hit).
    assert (He1 : e1 = error 1 st) by (unfold qsGW.fock_error; simpl; by rewrite Hit).
    destruct (bool_decide (e1 < qsGW.conv_tol_qp gw)) eqn:Hconv.
    + apply bool_decide_eq_true in Hconv. exists 1%nat. simpl.
      split; [lia|]. split; [by rewrite Hit|]. split; [intros; lia|].
      split; [|done]. intros _. split; [lia|]. by rewrite <- He1.
    + apply bool_decide_eq_false in Hconv.
      destruct (IH st1) as (k & Hk & Hst & Hbefore & Htrue & Hfalse).
      exists (S k). split; [lia|]. split.
      { rewrite Hst, Hst1. apply fock_iterate_shift. }
      assert (Hshift : forall j, (2 <= j)%nat -> error j st = error (j - 1) st1).
      { intros j Hj. rewrite Hst1, fock_error_shift by lia.
        by replace (S (j - 1)) with j by lia. }
      split.
      { intros j Hj. destruct (decide (j = 1%nat)) as [->|Hne].
        - by rewrite <- He1.
        - rewrite Hshift by lia. apply Hbefore. lia. }
      split.
      { intros Hc. destruct (Htrue Hc) as [Hk1 Herr]. split; [lia|].
        rewrite Hshift by lia. by replace (S k - 1)%nat with k by lia. }
      { intros Hc. destruct (Hfalse Hc) as [-> Hall]. split; [done|].
        intros j Hj. destruct (decide (j = 1%nat)) as [->|Hne].
        - by rewrite <- He1.
        - rewrite Hshift by lia. apply Hall. lia. }
Qed.

End fock_loop_facts.

(** C9. The Fock loop of a cycle ends after some number [k] of passes, at
    most [max_cycle_qp]: either the change [error] of the density matrix in
    the pass [k] is below [conv_tol_qp] and [conv_qp] is true, or all
    [max_cycle_qp] passes were made and [conv_qp] is false; no earlier pass
    had an [error] below the tolerance.  Converged or not, the cycle raises
    nothing: it logs which of the two happened, runs the inner solver on the
    orbital energies and coefficients of the last pass, and goes on with
    them and the density matrix of the last pass. *)
Theorem fock_loop_terminates (gw : qsGW.t) (nmom_max : nat)
    (integrals : qsGW.Integrals gw) (ovlp h1e mo_coeff_ref : RMat)
    (st : qsGW.CycleState gw) :
  let se_qp := (qsGW.static_potential gw ovlp mo_coeff_ref st).2 in
  let st0 := {| qsGW.fs_dm := qsGW.cs_dm gw st;
                qsGW.fs_mo_energy := qsGW.cs_mo_energy gw st;
                qsGW.fs_mo_coeff := qsGW.cs_mo_coeff gw st;
                qsGW.fs_diis := qsGW.new_diis gw |} in
  let fs := (qsGW.cycle_fock gw integrals ovlp h1e mo_coeff_ref st).1 in
  let conv_qp := (qsGW.cycle_fock gw integrals ovlp h1e mo_coeff_ref st).2 in
  let error := fun j => qsGW.fock_error gw integrals h1e se_qp mo_coeff_ref j st0 in
  (exists k : nat, (k <= qsGW.max_cycle_qp gw)%nat /\
     fs = qsGW.fock_iterate gw integrals h1e se_qp mo_coeff_ref k st0 /\
     (forall j, (1 <= j < k)%nat -> ~ error j < qsGW.conv_tol_qp gw) /\
     (conv_qp = true -> (1 <= k)%nat /\ error k < qsGW.conv_tol_qp gw) /\
     (conv_qp = false -> k = qsGW.max_cycle_qp gw /\
        forall j, (1 <= j <= k)%nat -> ~ error j < qsGW.conv_tol_qp gw)) /\
  exists (st' : qsGW.CycleState gw) (conv : bool),
    qsGW.cycle_body gw nmom_max integrals ovlp h1e mo_coeff_ref st =
    mkRun [log_info (if conv_qp then "QP loop converged."
                     else "QP loop failed to converge.");
           call_solver (qsGW.fs_mo_energy fs) (qsGW.fs_mo_coeff fs)]
          (Ok (st', conv)) /\
    qsGW.cs_mo_energy gw st' = qsGW.fs_mo_energy fs /\
    qsGW.cs_mo_coeff gw st' = qsGW.fs_mo_coeff fs /\
    qsGW.cs_dm gw st' = qsGW.fs_dm fs.
Proof.
  intros se_qp st0 fs conv_qp error. split.
  - destruct (fock_loop_spec gw integrals h1e se_qp mo_coeff_ref
                (seq 1 (qsGW.max_cycle_qp gw)) st0) as (k & Hk & Hrest).
    rewrite length_seq in Hk, Hrest. exists k. split; [done|]. exact Hrest.
  - unfold qsGW.cycle_body. fold fs conv_qp.
    destruct (qsGW.solver_kernel gw (qsGW.fs_mo_energy fs) (qsGW.fs_mo_coeff fs)
                nmom_max None) as [[b gf] se].
    destruct (qsGW.self_energy_to_moments gw se nmom_max) as [th tp].
    eexists _, _. split; [reflexivity|]. done.
Qed.

(** C8. When the polarizability is the exact variant ["drpa-exact"], the
    kernel raises [NotImplementedError] after its warning and before
    anything else: no integrals are built and no solver is run, so no
    moments are made.  The exact construction of the response moments
    raises on entry, whatever the object. *)
Theorem exact_variant_fails (gw : qsGW.t) (nmom_max : nat) (mo_energy : RVec)
    (mo_coeff : RMat) (integrals : option (qsGW.Integrals gw)) (tda : TDA.t) :
  qsGW.polarizability gw = "drpa-exact" ->
  qsGW.kernel gw nmom_max mo_energy mo_coeff integrals =
    mkRun [log_warn "qsGW is untested!"]
          (Err (NotImplementedError
                  (qsGW.name gw ++ " for polarizability=drpa-exact"))) /\
  TDA.build_dd_moments_exact tda = Err (NotImplementedError "").
Proof.
  intros Hpol. split; [|done].
  unfold qsGW.kernel. rewrite Hpol. done.
Qed.
(** ** The two paths of [get_j] and [get_k] *)

(** *** What [transform] stores *)

Section transform_facts.
Variable self : KIntegrals.t.
Variables do_Lpx do_Lia : bool.
Local Abbreviation N := (KIntegrals.naux_full self).

Lemma next_block_ok b1 c r :
  KIntegrals.next_block self b1 c = Ok r ->
  chunk_ok self c /\ r = (b1, (b1 + N)%nat, chunk_block c).
Proof.
  unfold KIntegrals.next_block, chunk_ok.
  destruct (bool_decide_reflect (chunk_sign c = (-1)%Z)) as [|Hs]; [done|].
  destruct (bool_decide_reflect (chunk_rows c = N)) as [Hr|]; [|done].
  by intros [= <-].
Qed.

Lemma next_block_chunk_ok b1 c :
  chunk_ok self c ->
  KIntegrals.next_block self b1 c = Ok (b1, (b1 + N)%nat, chunk_block c).
Proof.
  intros [Hs Hr]. unfold KIntegrals.next_block.
  rewrite bool_decide_false, bool_decide_true by done. done.
Qed.

Lemma check_slice_ok b1 u :
  KIntegrals.check_slice self b1 = Ok u -> (b1 <= N \/ N = 1)%nat.
Proof.
  unfold KIntegrals.check_slice.
  by destruct (bool_decide_reflect (b1 <= N \/ N = 1)%nat).
Qed.

Lemma check_assign_ok b1 u :
  KIntegrals.check_assign self b1 = Ok u -> (b1 <= N \/ N = 1)%nat.
Proof.
  unfold KIntegrals.check_assign.
  by destruct (bool_decide_reflect (b1 <= N \/ N = 1)%nat).
Qed.

Lemma check_slice_pass b1 :
  (b1 <= N \/ N = 1)%nat -> KIntegrals.check_slice self b1 = Ok tt.
Proof. intros Hb. unfold KIntegrals.check_slice. by rewrite bool_decide_true. Qed.

Lemma check_assign_pass b1 :
  (b1 <= N \/ N = 1)%nat -> KIntegrals.check_assign self b1 = Ok tt.
Proof. intros Hb. unfold KIntegrals.check_assign. by rewrite bool_decide_true. Qed.

(** a block that passes the loop body of [transform] puts its rows in the
    orbital basis into the slice of [Lpq_k] *)
Lemma pass_chunk_ok q ki kj b1 Lq Lx La c st' :
  run_res (KIntegrals.pass_chunk self true do_Lpx do_Lia q ki kj (b1, Lq, Lx, La) c)
    = Ok st' ->
  (b1 + N <= N \/ N = 1)%nat /\ chunk_ok self c /\
  st'.1.1.1 = (b1 + N)%nat /\
  st'.1.1.2 = KIntegrals.set_rows3 N b1 (b1 + N) Lq
      (einsum_Lpq_pi_qj (KIntegrals.nmo self) (chunk_block c)
         (KIntegrals.mo_coeff self ki) (KIntegrals.mo_coeff self kj)).
Proof.
  unfold KIntegrals.pass_chunk. rewrite run_bind_res.
  unfold KIntegrals.yield_block. simpl run_res.
  destruct (KIntegrals.next_block self b1 c) as [[[b0 b1'] block]|e] eqn:Hn; [|done].
  apply next_block_ok in Hn as (Hc & [= -> -> ->]).
  rewrite run_bind_res. simpl run_res.
  destruct (KIntegrals.check_assign self (b1 + N)) as [[]|e] eqn:Ha; [|done].
  apply check_assign_ok in Ha.
  simpl. rewrite run_bind_res. simpl run_res.
  destruct (KIntegrals.rot_get self q) as [r|e]; [|done].
  rewrite run_bind_res. simpl run_res.
  destruct (KIntegrals.check_slice self (b1 + N)) as [[]|e]; [|done].
  rewrite run_bind_res. simpl run_res.
  destruct (if do_Lia then _ else _) as [La'|e]; [|done].
  simpl. intros [= <-]. done.
Qed.

(** the blocks after the first leave the rows of [Lpq_k] as they are *)
Lemma pass_later_ok q ki kj cs : forall b1 Lq Lx La st',
  (N <= b1)%nat ->
  run_res (for_each_run (KIntegrals.pass_chunk self true do_Lpx do_Lia q ki kj)
             cs (b1, Lq, Lx, La)) = Ok st' ->
  Forall (chunk_ok self) cs /\ (cs = [] \/ (N <= 1)%nat) /\
  forall l p r, (l < N)%nat -> st'.1.1.2 l p r = Lq l p r.
Proof.
  induction cs as [|c cs IH]; intros b1 Lq Lx La st' Hb.
  - simpl. intros [= <-]. split; [constructor|]. split; [by left|]. done.
  - rewrite for_each_run_cons, run_bind_res.
    destruct (run_res (KIntegrals.pass_chunk _ _ _ _ _ _ _ _ c))
      as [[[[b Lq1] Lx1] La1]|e] eqn:Hp; [|done].
    apply pass_chunk_ok in Hp as (Hchk & Hc & Hb1 & HLq). simpl in Hb1, HLq. subst b.
    intros Hrest. apply IH in Hrest as (Hall & _ & Hrows); [|lia].
    split; [by constructor|]. split; [right; lia|].
    intros l p r Hl. rewrite (Hrows l p r Hl), HLq.
    unfold KIntegrals.set_rows3. by rewrite bool_decide_false by lia.
Qed.

Lemma pass_stream_ok q ki kj st' :
  run_res (for_each_run (KIntegrals.pass_chunk self true do_Lpx do_Lia q ki kj)
             (KIntegrals.with_df self ki kj) (0%nat, zeros3, zeros3, zeros2)) = Ok st' ->
  stream_ok self ki kj /\
  forall l p r, (l < N)%nat -> st'.1.1.2 l p r = Lpq_mo self ki kj l p r.
Proof.
  unfold stream_ok, Lpq_mo, stream_block.
  destruct (KIntegrals.with_df self ki kj) as [|c cs].
  - simpl. intros [= <-]. split; [split; [constructor|left; lia]|].
    intros l p r _. simpl.
    unfold einsum_Lpq_pi_qj. symmetry. apply csum_zero. intros i _.
    apply csum_zero. intros j _. unfold zeros3. ring.
  - rewrite for_each_run_cons, run_bind_res.
    destruct (run_res (KIntegrals.pass_chunk _ _ _ _ _ _ _ _ c))
      as [[[[b Lq] Lx] La]|e] eqn:Hp; [|done].
    apply pass_chunk_ok in Hp as (_ & Hc & Hb & HLq). simpl in Hb, HLq. subst b.
    intros Hrest. apply pass_later_ok in Hrest as (Hall & Hlen & Hrows); [|lia].
    split.
    + split; [by constructor|]. destruct Hlen as [->|Hlen]; [by left|by right].
    + intros l p r Hl. rewrite (Hrows l p r Hl), HLq.
      unfold KIntegrals.set_rows3. rewrite bool_decide_true by lia.
      by rewrite Nat.sub_0_r.
Qed.

Lemma transform_pass_stored st ki st' :
  Lpq_stored self (KIntegrals.tLpq st) ->
  run_res (KIntegrals.transform_pass self true do_Lpx do_Lia st ki) = Ok st' ->
  Lpq_stored self (KIntegrals.tLpq st').
Proof.
  intros HI. unfold KIntegrals.transform_pass.
  rewrite run_bind_res. simpl run_res.
  destruct (kpt_at _ _) as [vq|e]; [|done].
  rewrite run_bind_res. simpl run_res.
  destruct (kpt_at _ _) as [vki|e]; [|done].
  rewrite run_bind_res. simpl run_res.
  destruct (member_exn _ _) as [kj|e]; [|done].
  rewrite run_bind_res. simpl run_res.
  destruct (if do_Lpx || do_Lia then _ else _) as [n|e]; [|done].
  rewrite run_bind_res.
  destruct (run_res (for_each_run _ _ _)) as [[[[b Lq] Lx] La]|e] eqn:Hs; [|done].
  apply pass_stream_ok in Hs. simpl in Hs.
  assert (Hnew : Lpq_stored self (<[(ki, kj) := Lq]> (KIntegrals.tLpq st))).
  { intros a a' v Hv. destruct (decide ((ki, kj) = (a, a'))) as [[= <- <-]|Hne].
    - rewrite lookup_insert_eq in Hv. injection Hv as <-. done.
    - rewrite lookup_insert_ne in Hv by done. by apply HI. }
  destruct do_Lia.
  - unfold KIntegrals.lai_part. rewrite run_bind_res. simpl run_res.
    destruct (member_exn _ _) as [q'|e]; [|done].
    rewrite run_bind_res.
    destruct (run_res (for_each_run _ _ _)) as [[b' Lai_k]|e]; [|done].
    simpl. by intros [= <-].
  - simpl. by intros [= <-].
Qed.

Lemma transform_loops_stored st :
  run_res (KIntegrals.transform_loops self true do_Lpx do_Lia) = Ok st ->
  Lpq_stored self (KIntegrals.tLpq st).
Proof.
  unfold KIntegrals.transform_loops.
  apply (for_each_run_inv (fun s => Lpq_stored self (KIntegrals.tLpq s))).
  - intros s q s' _ Hs. unfold KIntegrals.transform_q.
    apply (for_each_run_inv (fun s => Lpq_stored self (KIntegrals.tLpq s))).
    + intros s1 ki s2 _ Hs1. by apply transform_pass_stored.
    + done.
  - intros ki kj v Hv. simpl in Hv. by rewrite lookup_empty in Hv.
Qed.

(** *** The loops over the blocks of a pair *)

Section chunk_loops.
Context {St : Type}.
Variable eqv : St -> St -> Prop.
Hypothesis eqv_refl : forall x, eqv x x.
Hypothesis eqv_trans : forall x y z, eqv x y -> eqv y z -> eqv x z.
Variable body : nat * St -> Chunk -> Result (nat * St).
Variable F : Chunk -> St -> St.
Hypothesis body_first : forall X c, chunk_ok self c ->
  exists X', body (0%nat, X) c = Ok (N, X') /\ eqv X' (F c X).
Hypothesis body_later : forall b1 X c, chunk_ok self c -> (N <= b1)%nat ->
  (b1 + N <= N \/ N = 1)%nat ->
  exists X', body (b1, X) c = Ok ((b1 + N)%nat, X') /\ eqv X' X.

(** the blocks after the first change nothing *)
Lemma chunk_loop_later cs : Forall (chunk_ok self) cs ->
  forall b1 X, (N <= b1)%nat -> (b1 + N <= N \/ N = 1)%nat ->
  exists b X', for_each body cs (b1, X) = Ok (b, X') /\ eqv X' X.
Proof.
  induction 1 as [|c cs Hc Hcs IH]; intros b1 X Hb Hchk.
  - eexists _, _. split; [reflexivity|]. apply eqv_refl.
  - destruct (body_later b1 X c Hc Hb Hchk) as (X1 & HX1 & He1).
    rewrite for_each_cons, HX1. simpl.
    destruct (IH (b1 + N)%nat X1) as (b & X' & Hl & He); [lia|lia|].
    exists b, X'. split; [exact Hl|]. by apply (eqv_trans _ X1).
Qed.

(** the loop over the blocks of a pair does what its first block does *)
Lemma chunk_loop_spec cs : Forall (chunk_ok self) cs ->
  ((length cs <= 1)%nat \/ (N <= 1)%nat) ->
  forall X, exists b X', for_each body cs (0%nat, X) = Ok (b, X') /\
    match cs with
    | c :: _ => eqv X' (F c X)
    | [] => X' = X
    end.
Proof.
  intros Hall Hlen X. destruct Hall as [|c cs Hc Hcs].
  - eexists _, _. split; [reflexivity|done].
  - destruct (body_first X c Hc) as (X1 & HX1 & He1).
    rewrite for_each_cons, HX1. simpl.
    destruct cs as [|c' cs].
    + eexists _, _. split; [reflexivity|done].
    + assert (HN : (N <= 1)%nat) by (simpl in Hlen; lia).
      destruct (chunk_loop_later (c' :: cs) Hcs N X1) as (b & X' & Hl & He);
        [lia|lia|].
      exists b, X'. split; [exact Hl|]. by apply (eqv_trans _ X1).
Qed.

End chunk_loops.

End transform_facts.
(** *** Sums *)

Lemma csum_mul_l n (c : C) f : (c * csum n f)%C = csum n (fun i => (c * f i)%C).
Proof. induction n as [|n IH]; simpl; [ring|]. rewrite <- IH. ring. Qed.

Lemma csum_mul_r n (c : C) f : (csum n f * c)%C = csum n (fun i => (f i * c)%C).
Proof. induction n as [|n IH]; simpl; [ring|]. rewrite <- IH. ring. Qed.

Lemma csum_conj n f : Cconj (csum n f) = csum n (fun i => Cconj (f i)).
Proof. induction n as [|n IH]; simpl; [apply Cconj_0|]. by rewrite Cconj_add, IH. Qed.

Lemma csum_swap n m (f : nat -> nat -> C) :
  csum n (fun i => csum m (fun j => f i j)) = csum m (fun j => csum n (fun i => f i j)).
Proof.
  induction n as [|n IH]; simpl.
  - symmetry. by apply csum_zero.
  - rewrite IH, <- csum_add. done.
Qed.

Lemma csum_ext_all n (f g : nat -> C) : (forall i, f i = g i) -> csum n f = csum n g.
Proof. intros Hfg. apply csum_ext. intros i _. apply Hfg. Qed.

Lemma Cmul_eq_l (a a' b : C) : a = a' -> (a * b)%C = (a' * b)%C.
Proof. by intros ->. Qed.
Lemma Cmul_eq_r (a b b' : C) : b = b' -> (a * b)%C = (a * b')%C.
Proof. by intros ->. Qed.
Lemma Cconj_eq (a a' : C) : a = a' -> Cconj a = Cconj a'.
Proof. by intros ->. Qed.

(** the sums of the left-hand side are pulled out of products and
    conjugates *)
Ltac csum_prenex :=
  cbv beta;
  lazymatch goal with
  | |- csum _ _ = _ => refine (csum_ext_all _ _ _ _); intros ?; csum_prenex
  | |- (csum _ _ * _)%C = _ => etransitivity; [refine (csum_mul_r _ _ _) | csum_prenex]
  | |- (_ * csum _ _)%C = _ => etransitivity; [refine (csum_mul_l _ _ _) | csum_prenex]
  | |- Cconj (csum _ _) = _ => etransitivity; [refine (csum_conj _ _) | csum_prenex]
  | |- (?a * ?b)%C = _ =>
      lazymatch a with
      | context [csum _ _] =>
          etransitivity; [refine (Cmul_eq_l _ _ _ _); csum_prenex | csum_prenex]
      | _ =>
          lazymatch b with
          | context [csum _ _] =>
              etransitivity; [refine (Cmul_eq_r _ _ _ _); csum_prenex | csum_prenex]
          | _ => reflexivity
          end
      end
  | |- Cconj ?a = _ =>
      lazymatch a with
      | context [csum _ _] =>
          etransitivity; [refine (Cconj_eq _ _ _); csum_prenex | csum_prenex]
      | _ => reflexivity
      end
  | |- _ => reflexivity
  end.

Ltac csum_prenex_l := etransitivity; [csum_prenex | cbv beta].
Ltac csum_prenex_r := symmetry; csum_prenex_l; symmetry.

(** the sum at depth [d] of the left-hand side changes place with the one
    below it; the sum at depth [d] comes to the front *)
Ltac csum_under d tac :=
  lazymatch d with
  | O => tac
  | S ?d' => refine (csum_ext_all _ _ _ _); intros ?; csum_under d' tac
  end.

Ltac csum_swap_at d :=
  etransitivity; [ csum_under d ltac:(refine (csum_swap _ _ _)) | cbv beta ].

Ltac csum_pull d :=
  lazymatch d with
  | O => idtac
  | S ?d' => csum_swap_at d'; csum_pull d'
  end.

Lemma exchange_algebra (K N n : nat) (sb1 sb2 : nat -> Arr3) (c : Arr2) (ck : nat -> Arr2)
    (dm : nat -> Arr2) (i j : nat) :
  csum n (fun p => csum n (fun s =>
    (csum K (fun kk => csum N (fun l => csum n (fun r =>
       csum n (fun q => sb1 kk l p q *
          csum n (fun a => csum n (fun b => dm kk a b * ck kk q a * Cconj (ck kk r b))))
       * sb2 kk l r s)))
     * Cconj (c p i) * c s j)%C))
  = csum K (fun kk => csum N (fun l => csum n (fun b =>
      (csum n (fun a =>
         csum n (fun p => csum n (fun q => sb1 kk l p q * Cconj (c p i) * ck kk q a))
         * dm kk a b)
       * csum n (fun r => csum n (fun s => sb2 kk l r s * Cconj (ck kk r b) * c s j)))%C))).
Proof.
  csum_prenex_l. csum_prenex_r.
  (csum_pull 5%nat; csum_pull 1%nat; csum_pull 2%nat; csum_pull 5%nat;
  csum_pull 6%nat; csum_pull 7%nat; csum_pull 7%nat; csum_pull 7%nat).
  do 8 (refine (csum_ext_all _ _ _ _); intros ?).
  ring.
Qed.

(** *** Loops over the mesh *)

(** a loop over [0, ..., m-1] that keeps an invariant of its progress *)
Lemma for_each_seq_inv {St : Type} (body : St -> nat -> Result St)
    (P : nat -> St -> Prop) (m : nat) (s0 : St) :
  P 0%nat s0 ->
  (forall k s, (k < m)%nat -> P k s -> exists s', body s k = Ok s' /\ P (S k) s') ->
  exists s', for_each body (seq 0 m) s0 = Ok s' /\ P m s'.
Proof.
  intros H0. induction m as [|m IH]; intros Hstep.
  - exists s0. done.
  - destruct IH as (s1 & Hs1 & HP1); [intros k s Hk; apply Hstep; lia|].
    destruct (Hstep m s1) as (s2 & Hs2 & HP2); [lia|done|].
    exists s2. rewrite seq_S, for_each_app, Hs1. simpl. rewrite Hs2. done.
Qed.

Lemma for_each_map {St X Y : Type} (body : St -> Y -> Result St) (f : X -> Y) xs s :
  for_each body (map f xs) s = for_each (fun s x => body s (f x)) xs s.
Proof.
  revert s. induction xs as [|x xs IH]; intros s; simpl; [done|].
  destruct (body s (f x)); [apply IH|done].
Qed.

Lemma for_each_bind {St X Y : Type} (body : St -> Y -> Result St) (f : X -> list Y)
    (xs : list X) (s : St) :
  for_each body (xs ≫= f) s = for_each (fun s x => for_each body (f x) s) xs s.
Proof.
  revert s. induction xs as [|x xs IH]; intros s; [done|].
  change ((x :: xs) ≫= f) with (f x ++ (xs ≫= f)).
  rewrite for_each_app, for_each_cons. destruct (for_each body (f x) s); [apply IH|done].
Qed.

Lemma for_each_loop11 {St : Type} (body : St -> nat * nat -> Result St) kp s :
  for_each body (KIntegrals.loop11 kp) s =
  for_each (fun s a => for_each (fun s b => body s (a, b)) (loop1 kp) s) (loop1 kp) s.
Proof.
  unfold KIntegrals.loop11. rewrite for_each_bind.
  apply for_each_ext. intros s' a _. rewrite for_each_bind.
  apply for_each_ext. intros s'' b _. simpl. by destruct (body s'' (a, b)).
Qed.

(** every turn [k] of the loop rewrites the entry [k] *)
Lemma for_each_update {V : Type} `{Inhabited V}
    (body : gmap nat V -> nat -> Result (gmap nat V)) (g : nat -> V -> V)
    (m : nat) (s0 : gmap nat V) :
  (forall s k, (k < m)%nat -> body s k = Ok (<[k := g k (s !!! k)]> s)) ->
  exists s', for_each body (seq 0 m) s0 = Ok s' /\
    forall k, s' !!! k = if decide (k < m)%nat then g k (s0 !!! k) else s0 !!! k.
Proof.
  intros Hbody.
  pose (P := fun (j : nat) (s : gmap nat V) =>
                forall k, s !!! k = if decide (k < j)%nat
                                    then g k (s0 !!! k) else s0 !!! k).
  apply (for_each_seq_inv body P); unfold P.
  - intros k. by destruct (decide _); [lia|].
  - intros j s Hj HP. exists (<[j := g j (s !!! j)]> s). split; [by apply Hbody|].
    intros k. destruct (decide (k = j)) as [->|Hne].
    + rewrite lookup_total_insert_eq, HP.
      destruct (decide (j < j)%nat); [lia|]. destruct (decide (j < S j)%nat); [done|lia].
    + rewrite lookup_total_insert_ne, HP by done.
      destruct (decide (k < j)%nat), (decide (k < S j)%nat); done || lia.
Qed.

(** every turn of the loop adds a matrix to the entry [ki] *)
Lemma for_each_accum (body : gmap nat Arr2 -> nat -> Result (gmap nat Arr2))
    (ki : nat) (t : nat -> Arr2) (m : nat) (s0 : gmap nat Arr2) :
  (forall s kk, (kk < m)%nat -> body s kk = Ok (<[ki := arr2_add (s !!! ki) (t kk)]> s)) ->
  exists s', for_each body (seq 0 m) s0 = Ok s' /\
    (forall p q, (s' !!! ki) p q = ((s0 !!! ki) p q + csum m (fun kk => t kk p q))%C) /\
    forall k p q, k <> ki -> (s' !!! k) p q = (s0 !!! k) p q.
Proof.
  intros Hbody.
  pose (P := fun (j : nat) (s : gmap nat Arr2) =>
                (forall p q, (s !!! ki) p q
                   = ((s0 !!! ki) p q + csum j (fun kk => t kk p q))%C) /\
                forall k p q, k <> ki -> (s !!! k) p q = (s0 !!! k) p q).
  apply (for_each_seq_inv body P); unfold P.
  - split; [|done]. intros p q. simpl. ring.
  - intros j s Hj [HP HQ]. eexists. split; [by apply Hbody|]. split.
    + intros p q. rewrite lookup_total_insert_eq. unfold arr2_add. rewrite HP.
      simpl. ring.
    + intros k p q Hk. rewrite lookup_total_insert_ne by done. by apply HQ.
Qed.

Lemma csum_split (a b : nat) (f : nat -> C) :
  csum (a + b) f = (csum a f + csum b (fun i => f (a + i)%nat))%C.
Proof.
  induction b as [|b IH]; simpl.
  - rewrite Nat.add_0_r. ring.
  - rewrite Nat.add_succ_r. simpl. rewrite IH. ring.
Qed.

(** *** The paths of [get_j] and [get_k] on a container that [transform] has filled *)

Section jk_facts.
Variable self : KIntegrals.t.
Variable dm : nat -> Arr2.
Variable d : gmap (nat * nat) Arr3.
Hypothesis Lpq_built : KIntegrals.Lpq (KIntegrals._blocks self) = Some d.
Hypothesis Lpq_covers : forall ki kj,
  (ki < nkpts (KIntegrals.kpts self))%nat -> (kj < nkpts (KIntegrals.kpts self))%nat ->
  is_Some (d !! (ki, kj)).
Hypothesis Lpq_is_stored : Lpq_stored self d.

Local Abbreviation N := (KIntegrals.naux_full self).
Local Abbreviation n := (KIntegrals.nmo self).
Local Abbreviation K := (nkpts (KIntegrals.kpts self)).
Local Abbreviation cf := (KIntegrals.mo_coeff self).
Local Abbreviation dao := (fun k => KIntegrals.mo_to_ao n (dm k) (cf k)).

Lemma stored_get ki kj :
  (ki < K)%nat -> (kj < K)%nat ->
  exists v, getitem d (ki, kj) = Ok v /\ d !!! (ki, kj) = v /\
    stream_ok self ki kj /\
    forall l p r, (l < N)%nat -> v l p r = Lpq_mo self ki kj l p r.
Proof.
  intros Hi Hj. destruct (Lpq_covers ki kj Hi Hj) as [v Hv]. exists v.
  unfold getitem. rewrite Hv. rewrite (lookup_total_correct _ _ _ Hv).
  destruct (Lpq_is_stored ki kj v Hv). done.
Qed.

Lemma Lpq_prop_ok : KIntegrals.Lpq_prop self = Ok d.
Proof. unfold KIntegrals.Lpq_prop. by rewrite Lpq_built. Qed.

(** **** [get_j] over the stored tensor *)

Lemma j_fast_buf_loop :
  exists buf, for_each (KIntegrals.j_fast_buf self dm) (loop1 (KIntegrals.kpts self)) zeros1
              = Ok buf /\
    forall l, (l < N)%nat ->
      buf l = csum K (fun kk => csum n (fun a => csum n (fun b =>
                (Lpq_mo self kk kk l a b * Cconj (dm kk a b))%C))).
Proof.
  unfold loop1.
  pose (P := fun (j : nat) (buf : Arr1) => forall l, (l < N)%nat ->
    buf l = csum j (fun kk => csum n (fun a => csum n (fun b =>
              (Lpq_mo self kk kk l a b * Cconj (dm kk a b))%C)))).
  apply (for_each_seq_inv _ P); unfold P; [done|].
  intros kk buf Hkk HP.
  destruct (stored_get kk kk Hkk Hkk) as (v & Hg & _ & _ & Hv).
  unfold KIntegrals.j_fast_buf. rewrite Lpq_prop_ok. simpl. rewrite Hg. simpl.
  eexists. split; [reflexivity|]. intros l Hl. unfold KIntegrals.arr1_add. rewrite (HP l Hl).
  simpl. f_equal. unfold KIntegrals.einsum_Lpq_pq.
  apply csum_ext_all. intros a. apply csum_ext_all. intros b.
  by rewrite (Hv l a b Hl).
Qed.

Lemma get_j_fast_spec :
  exists vj, KIntegrals.get_j_fast self dm = Ok vj /\
    forall k i j, (k < K)%nat ->
      arr2_divr (vj !!! k) (KIntegrals.nk self) i j = coulomb_spec self dm k i j.
Proof.
  unfold KIntegrals.get_j_fast.
  destruct j_fast_buf_loop as (buf & -> & Hbuf). simpl.
  destruct (for_each_update
              (acc_body arr2_add (fun ki : nat => ki) (KIntegrals.j_fast_vj self buf))
              (fun k old => arr2_add old (KIntegrals.einsum_Lpq_L N (d !!! (k, k)) buf))
              K ∅) as (vj & Hvj & Hlook).
  { intros s k Hk. destruct (stored_get k k Hk Hk) as (v & Hg & Hv & _).
    apply acc_body_ok. unfold KIntegrals.j_fast_vj. rewrite Lpq_prop_ok. simpl.
    rewrite Hg. simpl. by rewrite Hv. }
  exists vj. split; [exact Hvj|]. intros k i j Hk.
  rewrite Hlook. destruct (decide (k < K)%nat) as [_|]; [|lia].
  destruct (stored_get k k Hk Hk) as (v & _ & -> & _ & Hv).
  unfold arr2_divr, coulomb_spec. f_equal.
  unfold arr2_add, KIntegrals.einsum_Lpq_L. rewrite lookup_total_empty.
  change (inhabitant i j) with C0.
  transitivity (csum N (fun l => (v l i j * buf l)%C)); [ring|].
  apply csum_ext. intros l Hl. by rewrite (Hv l i j Hl), (Hbuf l Hl).
Qed.

(** **** [get_j] over the provider *)

Lemma j_stream_buf_ok (dd : nat -> Arr2) (buf : Arr1) (kk : nat) :
  (kk < K)%nat ->
  exists buf', KIntegrals.j_stream_buf self dd buf kk = Ok buf' /\
    forall l, (l < N)%nat ->
      buf' l = (buf l + csum n (fun p => csum n (fun q =>
                  stream_block self kk kk l p q * Cconj (dd kk p q))))%C.
Proof.
  intros Hkk. destruct (stored_get kk kk Hkk Hkk) as (v & _ & _ & [Hall Hlen] & _).
  unfold KIntegrals.j_stream_buf.
  destruct (chunk_loop_spec self
              (fun x y : Arr1 => forall l, (l < N)%nat -> x l = y l)
              ltac:(done)
              ltac:(intros x y z H1 H2 l Hl; by rewrite H1, H2)
              (KIntegrals.j_stream_buf_chunk self (dd kk))
              (fun c buf0 l => (buf0 l + csum n (fun p => csum n (fun q =>
                  chunk_block c l p q * Cconj (dd kk p q))))%C))
    with (cs := KIntegrals.with_df self kk kk) (X := buf)
    as (b & buf' & Hl & He); [| |done|done|].
  - intros X c Hc. unfold KIntegrals.j_stream_buf_chunk. cbn [fst snd].
    rewrite (next_block_chunk_ok self 0 c Hc). simpl.
    rewrite check_assign_pass by (left; lia). simpl.
    eexists. split; [reflexivity|]. intros l Hl.
    unfold KIntegrals.add_rows1. rewrite bool_decide_true by lia.
    by rewrite Nat.sub_0_r.
  - intros b1 X c Hc Hb Hchk. unfold KIntegrals.j_stream_buf_chunk. cbn [fst snd].
    rewrite (next_block_chunk_ok self b1 c Hc). simpl.
    rewrite check_assign_pass by done. simpl.
    eexists. split; [reflexivity|]. intros l Hl.
    unfold KIntegrals.add_rows1. by rewrite bool_decide_false by lia.
  - rewrite Hl. simpl. exists buf'. split; [done|]. intros l Hl'.
    revert He. unfold stream_block.
    destruct (KIntegrals.with_df self kk kk) as [|c cs].
    + intros ->. rewrite csum_zero; [ring|]. intros p _. apply csum_zero. intros q _.
      unfold zeros3. ring.
    + intros He. by rewrite (He l Hl').
Qed.

Lemma j_stream_buf_loop (dd : nat -> Arr2) :
  exists buf, for_each (KIntegrals.j_stream_buf self dd) (loop1 (KIntegrals.kpts self)) zeros1
              = Ok buf /\
    forall l, (l < N)%nat ->
      buf l = csum K (fun kk => csum n (fun p => csum n (fun q =>
                (stream_block self kk kk l p q * Cconj (dd kk p q))%C))).
Proof.
  unfold loop1.
  pose (P := fun (j : nat) (buf : Arr1) => forall l, (l < N)%nat ->
    buf l = csum j (fun kk => csum n (fun p => csum n (fun q =>
              (stream_block self kk kk l p q * Cconj (dd kk p q))%C)))).
  apply (for_each_seq_inv _ P); unfold P; [done|].
  intros kk buf Hkk HP.
  destruct (j_stream_buf_ok dd buf kk Hkk) as (buf' & Hb & Hbuf').
  exists buf'. split; [done|]. intros l Hl.
  rewrite (Hbuf' l Hl), (HP l Hl). done.
Qed.

Lemma j_stream_vj_ok (buf : Arr1) (vj : gmap nat Arr2) (ki : nat) :
  (ki < K)%nat ->
  exists v, KIntegrals.j_stream_vj self buf vj ki = Ok (<[ki := v]> vj) /\
    forall p q,
      v p q = ((vj !!! ki : Arr2) p q
               + csum N (fun l => stream_block self ki ki l p q * buf l))%C.
Proof.
  intros Hki. destruct (stored_get ki ki Hki Hki) as (v & _ & _ & [Hall Hlen] & _).
  unfold KIntegrals.j_stream_vj.
  destruct (chunk_loop_spec self
              (fun x y : Arr2 => forall p q, x p q = y p q)
              ltac:(done)
              ltac:(intros x y z H1 H2 p q; by rewrite H1, H2)
              (KIntegrals.j_stream_vj_chunk self buf)
              (fun c old p q =>
                 (old p q + csum N (fun l => chunk_block c l p q * buf l))%C))
    with (cs := KIntegrals.with_df self ki ki) (X := (vj !!! ki : Arr2))
    as (b & v' & Hl & He); [| |done|done|].
  - intros X c Hc. unfold KIntegrals.j_stream_vj_chunk. cbn [fst snd].
    rewrite (next_block_chunk_ok self 0 c Hc). simpl.
    rewrite check_slice_pass by (left; lia). simpl.
    eexists. split; [reflexivity|]. intros p q.
    unfold arr2_add, KIntegrals.einsum_Lpq_L. f_equal.
    apply csum_ext. intros l Hl. unfold KIntegrals.slice1.
    by rewrite bool_decide_true by lia.
  - intros b1 X c Hc Hb Hchk. unfold KIntegrals.j_stream_vj_chunk. cbn [fst snd].
    rewrite (next_block_chunk_ok self b1 c Hc). simpl.
    rewrite check_slice_pass by done. simpl.
    eexists. split; [reflexivity|]. intros p q.
    unfold arr2_add, KIntegrals.einsum_Lpq_L.
    rewrite csum_zero; [ring|]. intros l Hl. unfold KIntegrals.slice1.
    rewrite bool_decide_false by lia. ring.
  - rewrite Hl. simpl. exists v'. split; [done|]. intros p q.
    revert He. unfold stream_block.
    destruct (KIntegrals.with_df self ki ki) as [|c cs].
    + intros ->. rewrite csum_zero; [ring|]. intros l _. unfold zeros3. ring.
    + intros He. by rewrite (He p q).
Qed.

Lemma coulomb_buf_algebra (b : Arr2) (c dm0 : Arr2) :
  csum n (fun p => csum n (fun q => (b p q * Cconj (KIntegrals.mo_to_ao n dm0 c p q))%C))
  = csum n (fun i => csum n (fun j =>
      (csum n (fun p => csum n (fun q => b p q * Cconj (c p i) * c q j)) * Cconj (dm0 i j))%C)).
Proof.
  unfold KIntegrals.mo_to_ao.
  csum_prenex_l. csum_prenex_r.
  csum_pull 2%nat. csum_pull 3%nat. csum_pull 1%nat.
  do 4 (refine (csum_ext_all _ _ _ _); intros ?).
  rewrite !Cconj_mul, Cconj_involutive. ring.
Qed.

Lemma coulomb_algebra (sb : Arr3) (c : Arr2) (buf : Arr1) (i j : nat) :
  csum n (fun p => csum n (fun q =>
    (csum N (fun l => sb l p q * buf l) * Cconj (c p i) * c q j)%C))
  = csum N (fun l =>
      (csum n (fun p => csum n (fun q => sb l p q * Cconj (c p i) * c q j)) * buf l)%C).
Proof.
  csum_prenex_l. csum_prenex_r.
  csum_pull 2%nat.
  do 3 (refine (csum_ext_all _ _ _ _); intros ?).
  ring.
Qed.

Lemma get_j_stream_spec :
  exists vj, KIntegrals.get_j_stream self dm mo = Ok vj /\
    forall k i j, (k < K)%nat ->
      arr2_divr (KIntegrals.ao_to_mo n (vj !!! k) (cf k)) (KIntegrals.nk self) i j
      = coulomb_spec self dm k i j.
Proof.
  unfold KIntegrals.get_j_stream.
  destruct (j_stream_buf_loop dao) as (buf & -> & Hbuf). simpl.
  pose (P := fun (m : nat) (vj : gmap nat Arr2) => forall k p q,
    (vj !!! k : Arr2) p q = if decide (k < m)%nat
                     then csum N (fun l => (stream_block self k k l p q * buf l)%C)
                     else C0).
  destruct (for_each_seq_inv (KIntegrals.j_stream_vj self buf) P K ∅)
    as (vj & Hvj & Hlook); unfold P in *.
  { intros k p q. rewrite lookup_total_empty. by destruct (decide _); [lia|]. }
  { intros ki vj Hki HP.
    destruct (j_stream_vj_ok buf vj ki Hki) as (g & Hg & Hgp).
    eexists. split; [exact Hg|]. intros k p q.
    destruct (decide (k = ki)) as [->|Hne].
    - rewrite lookup_total_insert_eq, Hgp. rewrite (HP ki p q).
      destruct (decide (ki < ki)%nat) as [|_]; [lia|].
      destruct (decide (ki < S ki)%nat) as [_|]; [ring|lia].
    - rewrite lookup_total_insert_ne, HP by done.
      destruct (decide (k < ki)%nat), (decide (k < S ki)%nat); done || lia. }
  exists vj. split; [exact Hvj|]. intros k i j Hk.
  unfold arr2_divr, coulomb_spec. f_equal. unfold KIntegrals.ao_to_mo.
  etransitivity.
  { apply csum_ext_all. intros p. apply csum_ext_all. intros q.
    rewrite Hlook. destruct (decide (k < K)%nat) as [_|]; [|lia]. reflexivity. }
  rewrite coulomb_algebra. apply csum_ext. intros l Hl.
  unfold Lpq_mo at 1. unfold einsum_Lpq_pi_qj at 1. f_equal.
  rewrite (Hbuf l Hl). apply csum_ext_all. intros kk.
  rewrite coulomb_buf_algebra. done.
Qed.

(** **** [get_k] over the stored tensor *)

Lemma k_fast_buf_loop (p0 : nat) :
  exists buf,
    for_each (acc_body (fun _ new : Arr3 => new) (fun x : nat * nat => (x.2, x.1))
                (KIntegrals.k_fast_buf self dm p0))
             (KIntegrals.loop11 (KIntegrals.kpts self)) ∅ = Ok buf /\
    forall ki kk, (ki < K)%nat -> (kk < K)%nat ->
      buf !!! (kk, ki)
      = KIntegrals.einsum_Lpq_qr n (KIntegrals.rows3 p0 (d !!! (ki, kk))) (dm kk).
Proof.
  rewrite for_each_loop11. unfold loop1.
  pose (B := fun ki kk : nat =>
    KIntegrals.einsum_Lpq_qr n (KIntegrals.rows3 p0 (d !!! (ki, kk))) (dm kk)).
  pose (P := fun (j : nat) (buf : gmap (nat * nat) Arr3) =>
    forall ki kk, (ki < j)%nat -> (kk < K)%nat -> buf !!! (kk, ki) = B ki kk).
  apply (for_each_seq_inv _ P); unfold P.
  - intros ki kk Hki. lia.
  - intros j buf Hj HP.
    pose (Q := fun (m : nat) (buf' : gmap (nat * nat) Arr3) =>
      (forall ki kk, (ki < j)%nat -> (kk < K)%nat -> buf' !!! (kk, ki) = B ki kk) /\
      forall kk, (kk < m)%nat -> buf' !!! (kk, j) = B j kk).
    destruct (for_each_seq_inv
                (fun s b => acc_body (fun _ new : Arr3 => new)
                              (fun x : nat * nat => (x.2, x.1))
                              (KIntegrals.k_fast_buf self dm p0) s (j, b))
                Q K buf) as (buf' & Hb & HQ1 & HQ2); unfold Q.
    + split; [exact HP|]. intros kk Hkk. lia.
    + intros kk s Hkk [HS1 HS2].
      destruct (stored_get j kk Hj Hkk) as (v & Hg & Hv & _).
      eexists. split.
      { apply acc_body_ok. unfold KIntegrals.k_fast_buf. rewrite Lpq_prop_ok. simpl.
        rewrite Hg. simpl. reflexivity. }
      simpl. split.
      * intros ki kk' Hki Hkk'. rewrite lookup_total_insert_ne by (intros [= _ ?]; lia).
        by apply HS1.
      * intros kk' Hkk'. destruct (decide (kk' = kk)) as [->|Hne].
        -- rewrite lookup_total_insert_eq. unfold B. by rewrite Hv.
        -- rewrite lookup_total_insert_ne by (intros [= ?]; lia). apply HS2. lia.
    + exists buf'. split; [exact Hb|]. intros ki kk Hki Hkk.
      destruct (decide (ki = j)) as [->|Hne]; [by apply HQ2|]. apply HQ1; lia.
Qed.

Lemma k_fast_vk_loop (p0 p1 : nat) (buf : gmap (nat * nat) Arr3) (vk : gmap nat Arr2) :
  exists vk',
    for_each (acc_body arr2_add (fun x : nat * nat => x.1)
                (KIntegrals.k_fast_vk self p0 p1 buf))
             (KIntegrals.loop11 (KIntegrals.kpts self)) vk = Ok vk' /\
    forall k p s, (k < K)%nat ->
      (vk' !!! k) p s
      = ((vk !!! k) p s +
         csum K (fun kk =>
           KIntegrals.einsum_Lrp_Lrs (p1 - p0) n (buf !!! (kk, k))
             (KIntegrals.rows3 p0 (d !!! (kk, k))) p s))%C.
Proof.
  rewrite for_each_loop11. unfold loop1.
  pose (E := fun k kk : nat =>
    KIntegrals.einsum_Lrp_Lrs (p1 - p0) n (buf !!! (kk, k))
      (KIntegrals.rows3 p0 (d !!! (kk, k)))).
  pose (P := fun (j : nat) (vk' : gmap nat Arr2) =>
    forall k p s,
      (vk' !!! k) p s
      = ((vk !!! k) p s + if decide (k < j)%nat then csum K (fun kk => E k kk p s) else C0)%C).
  destruct (for_each_seq_inv
              (fun s a => for_each (fun s b => acc_body arr2_add (fun x : nat * nat => x.1)
                                     (KIntegrals.k_fast_vk self p0 p1 buf) s (a, b))
                            (seq 0 K) s)
              P K vk) as (vk' & Hvk & HP); unfold P.
  - intros k p s. destruct (decide _) as [|_]; [lia|]. ring.
  - intros j s Hj HS.
    destruct (for_each_accum
                (fun s b => acc_body arr2_add (fun x : nat * nat => x.1)
                              (KIntegrals.k_fast_vk self p0 p1 buf) s (j, b))
                j (E j) K s) as (s' & Hs' & Hj' & Hne').
    { intros s1 kk Hkk. destruct (stored_get kk j Hkk Hj) as (v & Hg & Hv & _).
      apply acc_body_ok. unfold KIntegrals.k_fast_vk. rewrite Lpq_prop_ok. simpl.
      rewrite Hg. simpl. unfold E. by rewrite Hv. }
    exists s'. split; [exact Hs'|]. intros k p s2.
    destruct (decide (k = j)) as [->|Hk].
    + rewrite Hj', HS. destruct (decide (j < j)%nat) as [|_]; [lia|].
      destruct (decide (j < S j)%nat) as [_|]; [ring|lia].
    + rewrite (Hne' k p s2 Hk), HS.
      destruct (decide (k < j)%nat), (decide (k < S j)%nat); done || lia.
  - exists vk'. split; [exact Hvk|]. intros k p s Hk. rewrite HP.
    destruct (decide (k < K)%nat) as [_|]; [done|lia].
Qed.

(** the blocks of [prange] cover the auxiliary index *)
Lemma prange_blocks (stop j : nat) :
  (j < (stop - 0 + 240 - 1) / 240)%nat -> (j * 240 < stop)%nat.
Proof.
  intros Hj. pose proof (Nat.div_mod_eq (stop - 0 + 240 - 1) 240) as Hd.
  pose proof (Nat.mod_upper_bound (stop - 0 + 240 - 1) 240 ltac:(lia)). nia.
Qed.

Lemma prange_last (stop : nat) :
  (stop <= (stop - 0 + 240 - 1) / 240 * 240)%nat.
Proof.
  pose proof (Nat.div_mod_eq (stop - 0 + 240 - 1) 240) as Hd.
  pose proof (Nat.mod_upper_bound (stop - 0 + 240 - 1) 240 ltac:(lia)). nia.
Qed.

Lemma get_k_fast_spec :
  exists vk, KIntegrals.get_k_fast self dm = Ok vk /\
    forall k i j, (k < K)%nat ->
      arr2_divr (vk !!! k) (KIntegrals.nk self) i j = exchange_spec self dm k i j.
Proof.
  unfold KIntegrals.get_k_fast, prange. rewrite for_each_map.
  pose (F := fun (k kk l i j : nat) =>
    csum n (fun b => (csum n (fun a => (d !!! (k, kk) : Arr3) l i a * dm kk a b)
                      * (d !!! (kk, k) : Arr3) l b j)%C)).
  pose (P := fun (m : nat) (vk : gmap nat Arr2) =>
    forall k i j, (k < K)%nat ->
      (vk !!! k) i j
      = csum K (fun kk => csum (Nat.min (m * 240) N) (fun l => F k kk l i j))).
  destruct (for_each_seq_inv
              (fun s x => KIntegrals.k_fast_block self dm s
                            ((0 + x * 240)%nat, Nat.min (0 + (x + 1) * 240) N))
              P ((N - 0 + 240 - 1) / 240) ∅) as (vk & Hvk & HP); unfold P.
  - intros k i j _. rewrite lookup_total_empty. symmetry. apply csum_zero. done.
  - intros m s Hm HS. pose proof (prange_blocks N m Hm) as Hlt.
    destruct (k_fast_buf_loop (0 + m * 240)) as (buf & Hb & Hbuf).
    destruct (k_fast_vk_loop (0 + m * 240) (Nat.min (0 + (m + 1) * 240) N) buf s)
      as (vk' & Hvk' & Hlook).
    exists vk'. split.
    { unfold KIntegrals.k_fast_block. rewrite Hb. exact Hvk'. }
    intros k i j Hk.
    rewrite (Hlook k i j Hk), (HS k i j Hk), <- csum_add.
    apply csum_ext. intros kk Hkk.
    replace (Nat.min (S m * 240) N)
      with (m * 240 + (Nat.min (0 + (m + 1) * 240) N - (0 + m * 240)))%nat by lia.
    replace (Nat.min (m * 240) N) with (m * 240)%nat by lia.
    rewrite csum_split. f_equal.
    rewrite (Hbuf k kk Hk Hkk).
    unfold KIntegrals.einsum_Lrp_Lrs, F, KIntegrals.einsum_Lpq_qr, KIntegrals.rows3.
    done.
  - exists vk. split; [exact Hvk|]. intros k i j Hk.
    unfold arr2_divr, exchange_spec. f_equal.
    etransitivity; [exact (HP k i j Hk)|].
    pose proof (prange_last N).
    replace (Nat.min _ N) with N by lia.
    apply csum_ext. intros kk Hkk. apply csum_ext. intros l Hl. unfold F.
    destruct (stored_get k kk Hk Hkk) as (v1 & _ & -> & _ & Hv1).
    destruct (stored_get kk k Hkk Hk) as (v2 & _ & -> & _ & Hv2).
    apply csum_ext_all. intros b. rewrite (Hv2 l b j Hl). f_equal.
    apply csum_ext_all. intros a. by rewrite (Hv1 l i a Hl).
Qed.

(** **** [get_k] over the provider *)

Lemma k_stream_buf_ok (dd : nat -> Arr2) (kk : nat) (buf : gmap nat Arr3) (ki : nat) :
  (ki < K)%nat -> (kk < K)%nat ->
  exists b, KIntegrals.k_stream_buf self dd kk buf ki = Ok (<[ki := b]> buf) /\
    ((forall l r p, (buf !!! ki : Arr3) l r p = C0) ->
     forall l r p, (l < N)%nat ->
       b l r p = csum n (fun q => (stream_block self ki kk l p q * dd kk q r)%C)).
Proof.
  intros Hki Hkk. destruct (stored_get ki kk Hki Hkk) as (v & _ & _ & [Hall Hlen] & _).
  unfold KIntegrals.k_stream_buf.
  destruct (chunk_loop_spec self
              (fun x y : Arr3 => forall l r p, (l < N)%nat -> x l r p = y l r p)
              ltac:(done)
              ltac:(intros x y z H1 H2 l r p Hl; by rewrite H1, H2)
              (KIntegrals.k_stream_buf_chunk self (dd kk))
              (fun c (_ : Arr3) l r p =>
                 csum n (fun q => (chunk_block c l p q * dd kk q r)%C)))
    with (cs := KIntegrals.with_df self ki kk) (X := (buf !!! ki : Arr3))
    as (b1 & b & Hl & He); [| |done|done|].
  - intros X c Hc. unfold KIntegrals.k_stream_buf_chunk. cbn [fst snd].
    rewrite (next_block_chunk_ok self 0 c Hc). simpl.
    rewrite check_assign_pass by (left; lia). simpl.
    eexists. split; [reflexivity|]. intros l r p Hl.
    unfold KIntegrals.set_rows3. rewrite bool_decide_true by lia.
    by rewrite Nat.sub_0_r.
  - intros b1 X c Hc Hb Hchk. unfold KIntegrals.k_stream_buf_chunk. cbn [fst snd].
    rewrite (next_block_chunk_ok self b1 c Hc). simpl.
    rewrite check_assign_pass by done. simpl.
    eexists. split; [reflexivity|]. intros l r p Hl.
    unfold KIntegrals.set_rows3. by rewrite bool_decide_false by lia.
  - rewrite Hl. simpl. exists b. split; [done|]. intros H0 l r p Hl'.
    revert He. unfold stream_block.
    destruct (KIntegrals.with_df self ki kk) as [|c cs].
    + intros ->. rewrite H0. symmetry. apply csum_zero. intros q _.
      unfold zeros3. ring.
    + intros He. by rewrite (He l r p Hl').
Qed.

Lemma k_stream_buf_loop (dd : nat -> Arr2) (kk : nat) :
  (kk < K)%nat ->
  exists buf, for_each (KIntegrals.k_stream_buf self dd kk) (loop1 (KIntegrals.kpts self)) ∅
              = Ok buf /\
    forall ki l r p, (ki < K)%nat -> (l < N)%nat ->
      (buf !!! ki : Arr3) l r p
      = csum n (fun q => (stream_block self ki kk l p q * dd kk q r)%C).
Proof.
  intros Hkk. unfold loop1.
  pose (P := fun (j : nat) (buf : gmap nat Arr3) =>
    (forall ki l r p, (ki < j)%nat -> (l < N)%nat ->
       (buf !!! ki : Arr3) l r p
       = csum n (fun q => (stream_block self ki kk l p q * dd kk q r)%C)) /\
    forall ki l r p, (j <= ki)%nat -> (buf !!! ki : Arr3) l r p = C0).
  destruct (for_each_seq_inv (KIntegrals.k_stream_buf self dd kk) P K ∅)
    as (buf & Hb & HP & _); unfold P.
  - split; [intros; lia|]. intros ki l r p _. by rewrite lookup_total_empty.
  - intros j buf Hj [HP1 HP2].
    destruct (k_stream_buf_ok dd kk buf j Hj Hkk) as (b & Hb & Hbp).
    eexists. split; [exact Hb|]. split.
    + intros ki l r p Hki Hl. destruct (decide (ki = j)) as [->|Hne].
      * rewrite lookup_total_insert_eq. apply Hbp; [|done].
        intros l' r' p'. apply HP2. lia.
      * rewrite lookup_total_insert_ne by done. apply HP1; [lia|done].
    + intros ki l r p Hki. rewrite lookup_total_insert_ne by lia. apply HP2. lia.
  - exists buf. split; [exact Hb|]. intros ki l r p Hki Hl. by apply HP.
Qed.

Lemma k_stream_vk_ok (buf : gmap nat Arr3) (kk : nat) (vk : gmap nat Arr2) (ki : nat) :
  (ki < K)%nat -> (kk < K)%nat ->
  exists v, KIntegrals.k_stream_vk self buf kk vk ki = Ok (<[ki := v]> vk) /\
    forall p s,
      v p s = ((vk !!! ki : Arr2) p s +
               csum N (fun l => csum n (fun r =>
                 (buf !!! ki : Arr3) l r p * stream_block self kk ki l r s)))%C.
Proof.
  intros Hki Hkk. destruct (stored_get kk ki Hkk Hki) as (v & _ & _ & [Hall Hlen] & _).
  unfold KIntegrals.k_stream_vk.
  destruct (chunk_loop_spec self
              (fun x y : Arr2 => forall p s, x p s = y p s)
              ltac:(done)
              ltac:(intros x y z H1 H2 p s; by rewrite H1, H2)
              (KIntegrals.k_stream_vk_chunk self (buf !!! ki))
              (fun c old p s =>
                 (old p s + csum N (fun l => csum n (fun r =>
                    (buf !!! ki : Arr3) l r p * chunk_block c l r s)))%C))
    with (cs := KIntegrals.with_df self kk ki) (X := (vk !!! ki : Arr2))
    as (b & v' & Hl & He); [| |done|done|].
  - intros X c Hc. unfold KIntegrals.k_stream_vk_chunk. cbn [fst snd].
    rewrite (next_block_chunk_ok self 0 c Hc). simpl.
    rewrite check_slice_pass by (left; lia). simpl.
    eexists. split; [reflexivity|]. intros p s.
    unfold arr2_add, KIntegrals.einsum_Lrp_Lrs. f_equal.
    apply csum_ext. intros l Hl. unfold KIntegrals.slice3.
    by rewrite bool_decide_true by lia.
  - intros b1 X c Hc Hb Hchk. unfold KIntegrals.k_stream_vk_chunk. cbn [fst snd].
    rewrite (next_block_chunk_ok self b1 c Hc). simpl.
    rewrite check_slice_pass by done. simpl.
    eexists. split; [reflexivity|]. intros p s.
    unfold arr2_add, KIntegrals.einsum_Lrp_Lrs.
    rewrite csum_zero; [ring|]. intros l Hl. apply csum_zero. intros r _.
    unfold KIntegrals.slice3. rewrite bool_decide_false by lia. ring.
  - rewrite Hl. simpl. exists v'. split; [done|]. intros p s.
    revert He. unfold stream_block.
    destruct (KIntegrals.with_df self kk ki) as [|c cs].
    + intros ->. rewrite csum_zero; [ring|]. intros l _. apply csum_zero. intros r _.
      unfold zeros3. ring.
    + intros He. by rewrite (He p s).
Qed.

Lemma k_stream_kk_ok (dd : nat -> Arr2) (vk : gmap nat Arr2) (kk : nat) :
  (kk < K)%nat ->
  exists vk', KIntegrals.k_stream_kk self dd vk kk = Ok vk' /\
    forall k p s, (k < K)%nat ->
      (vk' !!! k : Arr2) p s
      = ((vk !!! k : Arr2) p s +
         csum N (fun l => csum n (fun r =>
           csum n (fun q => stream_block self k kk l p q * dd kk q r)
           * stream_block self kk k l r s)))%C.
Proof.
  intros Hkk. unfold KIntegrals.k_stream_kk.
  destruct (k_stream_buf_loop dd kk Hkk) as (buf & -> & Hbuf).
  cbn [mbind Result_bind]. unfold loop1.
  pose (U := fun k p s : nat =>
    csum N (fun l => csum n (fun r =>
      ((buf !!! k : Arr3) l r p * stream_block self kk k l r s)%C))).
  pose (P := fun (j : nat) (vk' : gmap nat Arr2) =>
    forall k p s,
      (vk' !!! k : Arr2) p s
      = ((vk !!! k : Arr2) p s + if decide (k < j)%nat then U k p s else C0)%C).
  destruct (for_each_seq_inv (KIntegrals.k_stream_vk self buf kk) P K vk)
    as (vk' & Hvk & HP); unfold P.
  - intros k p s. destruct (decide _) as [|_]; [lia|]. ring.
  - intros j s1 Hj HS.
    destruct (k_stream_vk_ok buf kk s1 j Hj Hkk) as (v & Hv & Hvp).
    eexists. split; [exact Hv|]. intros k p s.
    destruct (decide (k = j)) as [->|Hne].
    + rewrite lookup_total_insert_eq, Hvp, HS.
      destruct (decide (j < j)%nat) as [|_]; [lia|].
      destruct (decide (j < S j)%nat) as [_|]; [|lia]. unfold U. ring.
    + rewrite lookup_total_insert_ne, HS by done.
      destruct (decide (k < j)%nat), (decide (k < S j)%nat); done || lia.
  - exists vk'. split; [exact Hvk|]. intros k p s Hk. rewrite HP.
    destruct (decide (k < K)%nat) as [_|]; [|lia]. f_equal. unfold U.
    apply csum_ext. intros l Hl. apply csum_ext_all. intros r.
    by rewrite (Hbuf k l r p Hk Hl).
Qed.

Lemma get_k_stream_spec :
  exists vk, KIntegrals.get_k_stream self dm mo = Ok vk /\
    forall k i j, (k < K)%nat ->
      arr2_divr (KIntegrals.ao_to_mo n (vk !!! k) (cf k)) (KIntegrals.nk self) i j
      = exchange_spec self dm k i j.
Proof.
  unfold KIntegrals.get_k_stream, loop1.
  pose (W := fun k kk p s : nat =>
    csum N (fun l => csum n (fun r =>
      (csum n (fun q => stream_block self k kk l p q * dao kk q r)
       * stream_block self kk k l r s)%C))).
  pose (P := fun (j : nat) (vk : gmap nat Arr2) =>
    forall k p s, (k < K)%nat ->
      (vk !!! k : Arr2) p s = csum j (fun kk => W k kk p s)).
  destruct (for_each_seq_inv (KIntegrals.k_stream_kk self dao) P K ∅)
    as (vk & Hvk & HP); unfold P.
  - intros k p s _. by rewrite lookup_total_empty.
  - intros j s1 Hj HS.
    destruct (k_stream_kk_ok dao s1 j Hj) as (vk' & Hvk' & Hlook).
    exists vk'. split; [exact Hvk'|]. intros k p s Hk.
    rewrite (Hlook k p s Hk), (HS k p s Hk). done.
  - exists vk. split; [exact Hvk|]. intros k i j Hk.
    unfold arr2_divr, exchange_spec. f_equal. unfold KIntegrals.ao_to_mo.
    etransitivity.
    { apply csum_ext_all. intros p. apply csum_ext_all. intros s.
      apply Cmul_eq_l, Cmul_eq_l. exact (HP k p s Hk). }
    unfold W, KIntegrals.mo_to_ao.
    exact (exchange_algebra K N n (fun kk => stream_block self k kk)
             (fun kk => stream_block self kk k) (cf k) cf dm i j).
Qed.

End jk_facts.

Lemma transform_store_built (self : KIntegrals.t) (do_Lpx do_Lia : bool) :
  run_res (KIntegrals.transform_store self true do_Lpx do_Lia).2 = Ok tt ->
  exists B d,
    (KIntegrals.transform_store self true do_Lpx do_Lia).1 = KIntegrals.set_blocks self B /\
    KIntegrals.Lpq B = Some d /\ Lpq_stored self d.
Proof.
  unfold KIntegrals.transform_store. simpl negb. cbv iota.
  destruct (run_res (KIntegrals.transform_loops self true do_Lpx do_Lia)) as [st|e] eqn:Hr;
    [|done].
  intros _. eexists _, _. split; [reflexivity|]. split; [reflexivity|].
  by apply (transform_loops_stored self do_Lpx do_Lia).
Qed.

(** after [transform] on a container that keeps the full tensor, the
    container differs in its rotations and blocks only, and [Lpq] holds the
    tensor of every pair that was visited *)
Lemma transform_built (self : KIntegrals.t) (do_Lpx do_Lia : bool) :
  KIntegrals.store_full self = true ->
  run_res (KIntegrals.transform self None do_Lpx do_Lia).2 = Ok tt ->
  exists r B d,
    (KIntegrals.transform self None do_Lpx do_Lia).1
      = KIntegrals.set_blocks (KIntegrals.set_rot self r) B /\
    KIntegrals.Lpq B = Some d /\ Lpq_stored self d.
Proof.
  intros Hfull. unfold KIntegrals.transform. rewrite Hfull. simpl default.
  destruct (run_res (match KIntegrals._rot self with
                     | Some r => mret (Some r)
                     | None => KIntegrals.get_compression_metric self
                     end)) as [[rot|]|e]; [| |done].
  - destruct (bool_decide _); [done|].
    destruct (KIntegrals.transform_store _ true do_Lpx do_Lia) as [self' r] eqn:Hs.
    simpl. intros Hr.
    destruct (transform_store_built
                (KIntegrals.set_rot self (Some (KIntegrals.fill_rot self rot)))
                do_Lpx do_Lia) as (B & d & HB & Hd & Hst).
    { by rewrite Hs. }
    rewrite Hs in HB. simpl in HB. eexists _, B, d. split; [exact HB|]. done.
  - destruct (KIntegrals.transform_store _ true do_Lpx do_Lia) as [self' r] eqn:Hs.
    simpl. intros Hr.
    destruct (transform_store_built (KIntegrals.set_rot self None) do_Lpx do_Lia)
      as (B & d & HB & Hd & Hst).
    { by rewrite Hs. }
    rewrite Hs in HB. simpl in HB. eexists _, B, d. split; [exact HB|]. done.
Qed.

(** both paths of [get_j] after [transform] *)
Lemma get_j_paths (self : KIntegrals.t) (dm : nat -> Arr2) (do_Lpx do_Lia : bool) :
  KIntegrals.store_full self = true ->
  run_res (KIntegrals.transform self None do_Lpx do_Lia).2 = Ok tt ->
  (forall ki kj,
     (ki < nkpts (KIntegrals.kpts self))%nat -> (kj < nkpts (KIntegrals.kpts self))%nat ->
     is_Some (KIntegrals.Lpq
                (KIntegrals._blocks (KIntegrals.transform self None do_Lpx do_Lia).1)
              ≫= fun d => d !! (ki, kj))) ->
  exists vj_fast vj_stream : nat -> Arr2,
    KIntegrals.get_j (KIntegrals.transform self None do_Lpx do_Lia).1 dm mo = Ok vj_fast /\
    KIntegrals.get_j
      (KIntegrals.set_store_full (KIntegrals.transform self None do_Lpx do_Lia).1 false)
      dm mo = Ok vj_stream /\
    forall k i j, (k < nkpts (KIntegrals.kpts self))%nat ->
      vj_fast k i j = coulomb_spec self dm k i j /\
      vj_stream k i j = coulomb_spec self dm k i j.
Proof.
  intros Hfull Hr Hcov.
  destruct (transform_built self do_Lpx do_Lia Hfull Hr) as (r & B & d & Heq & HB & Hst).
  rewrite Heq in Hcov |- *. clear Heq Hr.
  simpl in Hcov. rewrite HB in Hcov. simpl in Hcov.
  set (self1 := KIntegrals.set_blocks (KIntegrals.set_rot self r) B).
  destruct (get_j_fast_spec self1 dm d HB Hcov Hst) as (vf & Hvf & Hf).
  destruct (get_j_stream_spec self1 dm d Hcov Hst) as (vs & Hvs & Hs).
  eexists _, _. split; [|split].
  - unfold KIntegrals.get_j. change (KIntegrals.store_full self1) with (KIntegrals.store_full self).
    rewrite Hfull, Hvf. reflexivity.
  - unfold KIntegrals.get_j. simpl KIntegrals.store_full. cbv iota.
    change (KIntegrals.get_j_stream (KIntegrals.set_store_full self1 false) dm mo)
      with (KIntegrals.get_j_stream self1 dm mo).
    rewrite Hvs. reflexivity.
  - intros k i j Hk. split; [exact (Hf k i j Hk)|exact (Hs k i j Hk)].
Qed.

(** both paths of [get_k] after [transform] *)
Lemma get_k_paths (self : KIntegrals.t) (dm : nat -> Arr2) (do_Lpx do_Lia : bool) :
  KIntegrals.store_full self = true ->
  run_res (KIntegrals.transform self None do_Lpx do_Lia).2 = Ok tt ->
  (forall ki kj,
     (ki < nkpts (KIntegrals.kpts self))%nat -> (kj < nkpts (KIntegrals.kpts self))%nat ->
     is_Some (KIntegrals.Lpq
                (KIntegrals._blocks (KIntegrals.transform self None do_Lpx do_Lia).1)
              ≫= fun d => d !! (ki, kj))) ->
  exists vk_fast vk_stream : nat -> Arr2,
    KIntegrals.get_k (KIntegrals.transform self None do_Lpx do_Lia).1 dm mo false
      = Ok vk_fast /\
    KIntegrals.get_k
      (KIntegrals.set_store_full (KIntegrals.transform self None do_Lpx do_Lia).1 false)
      dm mo false = Ok vk_stream /\
    forall k i j, (k < nkpts (KIntegrals.kpts self))%nat ->
      vk_fast k i j = exchange_spec self dm k i j /\
      vk_stream k i j = exchange_spec self dm k i j.
Proof.
  intros Hfull Hr Hcov.
  destruct (transform_built self do_Lpx do_Lia Hfull Hr) as (r & B & d & Heq & HB & Hst).
  rewrite Heq in Hcov |- *. clear Heq Hr.
  simpl in Hcov. rewrite HB in Hcov. simpl in Hcov.
  set (self1 := KIntegrals.set_blocks (KIntegrals.set_rot self r) B).
  destruct (get_k_fast_spec self1 dm d HB Hcov Hst) as (vf & Hvf & Hf).
  destruct (get_k_stream_spec self1 dm d Hcov Hst) as (vs & Hvs & Hs).
  eexists _, _. split; [|split].
  - unfold KIntegrals.get_k. change (KIntegrals.store_full self1) with (KIntegrals.store_full self).
    rewrite Hfull, Hvf. reflexivity.
  - unfold KIntegrals.get_k. simpl KIntegrals.store_full. cbv iota.
    change (KIntegrals.get_k_stream (KIntegrals.set_store_full self1 false) dm mo)
      with (KIntegrals.get_k_stream self1 dm mo).
    rewrite Hvs. reflexivity.
  - intros k i j Hk. split; [exact (Hf k i j Hk)|exact (Hs k i j Hk)].
Qed.


(** The Coulomb matrix of [get_j] in the orbital basis is the same over the
    stored tensor and over the provider.  On a container that keeps the full
    tensor ([store_full]), let [transform] have returned and [Lpq] hold a
    block for every pair of mesh points.  Then [get_j] returns on the path
    over the stored tensor, it returns on the path that reads the provider
    again (the same container without [store_full]), and at every mesh
    point both matrices are the contraction [coulomb_spec] of the tensor
    with the density matrix, divided by the number of mesh points. *)
Theorem get_j_paths_agree (self : KIntegrals.t) (dm : nat -> Arr2) (do_Lpx do_Lia : bool) :
  KIntegrals.store_full self = true ->
  run_res (KIntegrals.transform self None do_Lpx do_Lia).2 = Ok tt ->
  (forall ki kj,
     (ki < nkpts (KIntegrals.kpts self))%nat -> (kj < nkpts (KIntegrals.kpts self))%nat ->
     is_Some (KIntegrals.Lpq
                (KIntegrals._blocks (KIntegrals.transform self None do_Lpx do_Lia).1)
              ≫= fun d => d !! (ki, kj))) ->
  exists vj_fast vj_stream : nat -> Arr2,
    KIntegrals.get_j (KIntegrals.transform self None do_Lpx do_Lia).1 dm mo = Ok vj_fast /\
    KIntegrals.get_j
      (KIntegrals.set_store_full (KIntegrals.transform self None do_Lpx do_Lia).1 false)
      dm mo = Ok vj_stream /\
    forall k i j, (k < nkpts (KIntegrals.kpts self))%nat ->
      vj_fast k i j = coulomb_spec self dm k i j /\
      vj_stream k i j = coulomb_spec self dm k i j.
Proof. exact (get_j_paths self dm do_Lpx do_Lia). Qed.

(** The exchange matrix of [get_k] in the orbital basis, without the Ewald
    term, is the same over the stored tensor and over the provider: under
    the conditions of [get_j_paths_agree] both paths return, and at every
    mesh point both matrices are the contraction [exchange_spec], divided by
    the number of mesh points. *)
Theorem get_k_paths_agree (self : KIntegrals.t) (dm : nat -> Arr2) (do_Lpx do_Lia : bool) :
  KIntegrals.store_full self = true ->
  run_res (KIntegrals.transform self None do_Lpx do_Lia).2 = Ok tt ->
  (forall ki kj,
     (ki < nkpts (KIntegrals.kpts self))%nat -> (kj < nkpts (KIntegrals.kpts self))%nat ->
     is_Some (KIntegrals.Lpq
                (KIntegrals._blocks (KIntegrals.transform self None do_Lpx do_Lia).1)
              ≫= fun d => d !! (ki, kj))) ->
  exists vk_fast vk_stream : nat -> Arr2,
    KIntegrals.get_k (KIntegrals.transform self None do_Lpx do_Lia).1 dm mo false
      = Ok vk_fast /\
    KIntegrals.get_k
      (KIntegrals.set_store_full (KIntegrals.transform self None do_Lpx do_Lia).1 false)
      dm mo false = Ok vk_stream /\
    forall k i j, (k < nkpts (KIntegrals.kpts self))%nat ->
      vk_fast k i j = exchange_spec self dm k i j /\
      vk_stream k i j = exchange_spec self dm k i j.
Proof. exact (get_k_paths self dm do_Lpx do_Lia). Qed.

(** ** The Ewald term of [get_k] *)


(** ** The momentum transfer in the passes of [transform] *)





(** ** What [transform] keeps *)





(** ** Shapes that [transform] does not accept *)



(** ** The outer loop of the kernel *)



Lemma ao2mo_calls_app (l1 l2 : list Event) :
  ao2mo_calls (l1 ++ l2) = (ao2mo_calls l1 + ao2mo_calls l2)%nat.
Proof. unfold ao2mo_calls. by rewrite filter_app, length_app. Qed.





(** ** The projection between orbital bases and the static potential *)








(** ** The poles that [_gf_to_mo_energy] picks *)


Lemma for_each_run_seq_ok {St : Type} (body : St -> nat -> Run St)
    (P : nat -> St -> Prop) (m : nat) (s0 s' : St) :
  P 0%nat s0 ->
  (forall k s s1, (k < m)%nat -> P k s -> run_res (body s k) = Ok s1 -> P (S k) s1) ->
  run_res (for_each_run body (seq 0 m) s0) = Ok s' -> P m s'.
Proof.
  intros H0 Hstep.
  assert (Hgen : forall a n s s', (a + n = m)%nat -> P a s ->
            run_res (for_each_run body (seq a n) s) = Ok s' -> P m s').
  { intros a n. revert a. induction n as [|n IH]; intros a s s1 Han HP Hr.
    - simpl in Hr. injection Hr as <-. by replace m with a by lia.
    - simpl seq in Hr. rewrite for_each_run_cons, run_bind_res in Hr.
      destruct (run_res (body s a)) as [s2|e] eqn:Hb; [|done].
      apply (IH (S a) s2 s1); [lia| |done]. apply (Hstep a s); [lia|done..]. }
  intros Hr. by apply (Hgen 0%nat m s0 s').
Qed.



Lemma first_max_unique (l : list Qc) (a b : nat) :
  first_max l a -> first_max l b -> a = b.
Proof.
  intros (va & Ha & Hmaxa & Hfa) (vb & Hb & Hmaxb & Hfb).
  destruct (Nat.lt_total a b) as [Hlt|[->|Hlt]]; [|done|].
  - pose proof (Hfb a va Ha Hlt) as H1. pose proof (Hmaxa b vb Hb) as H2.
    exfalso. apply (Qclt_not_le _ _ H1). done.
  - pose proof (Hfa b vb Hb Hlt) as H1. pose proof (Hmaxb a va Ha) as H2.
    exfalso. apply (Qclt_not_le _ _ H1). done.
Qed.











(** ** Concrete runs *)

Lemma from_ok_eq {A : Type} (d : A) (r : Result A) :
  is_ok r = true -> r = Ok (from_ok d r).
Proof. by destruct r. Qed.

Lemma is_Some_test {A : Type} (o : option A) :
  match o with Some _ => true | None => false end = true -> is_Some o.
Proof. destruct o; [by eexists|done]. Qed.

Lemma loop2_mesh_Z2 (q k : nat * Z) :
  (q, k) ∈ loop2 (mesh_Zn 2) ->
  (q, k) ∈ [((0%nat, 0%Z), (0%nat, 0%Z)); ((0%nat, 0%Z), (1%nat, 1%Z));
            ((1%nat, 1%Z), (0%nat, 0%Z)); ((1%nat, 1%Z), (1%nat, 1%Z))].
Proof. intros H. exact H. Qed.

Lemma ex_tda_blocks_present (q k : nat * kvec (TDA.kpts ex_tda)) :
  (q, k) ∈ loop2 (TDA.kpts ex_tda) ->
  is_Some (TDA.Lia ex_tda !! (rel ex_tda q k, k.1)) /\
  is_Some (TDA.Lai ex_tda !! (rel ex_tda q k, k.1)).
Proof.
  intros Hin%loop2_mesh_Z2.
  repeat (apply elem_of_cons in Hin as [[= -> ->]|Hin];
          [split; apply is_Some_test; vm_compute; reflexivity|]).
  by apply elem_of_nil in Hin.
Qed.

Lemma build_dd_moments_spec_witness :
  (forall q k : nat * kvec (TDA.kpts ex_tda), (q, k) ∈ loop2 (TDA.kpts ex_tda) ->
     is_Some (TDA.Lia ex_tda !! (rel ex_tda q k, k.1)) /\
     is_Some (TDA.Lai ex_tda !! (rel ex_tda q k, k.1))) /\
  exists m, TDA.build_dd_moments ex_tda = Ok m /\
    forall q kb : nat * kvec (TDA.kpts ex_tda), (q, kb) ∈ loop2 (TDA.kpts ex_tda) ->
      m !!! (q.1, kb.1, 0%nat) = NdArr (dd_zeroth ex_tda q kb) /\
      forall n : nat, (1 <= n <= TDA.nmom_max ex_tda)%nat ->
        m !!! (q.1, kb.1, n) = NdArr (dd_order ex_tda m n q kb).
Proof.
  split; [exact ex_tda_blocks_present|].
  exact (build_dd_moments_spec ex_tda ex_tda_blocks_present).
Defined.

Lemma ex_constructed_ok :
  constructed_se_moments ex_tda ex_moments_dd = Ok ex_constructed.
Proof. apply from_ok_eq. vm_compute. reflexivity. Qed.

Lemma ex_constructed_close (k n : nat) :
  (k < nkpts (TDA.kpts ex_tda))%nat -> (n <= TDA.nmom_max ex_tda)%nat ->
  hermitian_close ex_tda ex_constructed (k, n) = true.
Proof.
  intros Hk Hn.
  assert (Hall : forallb (hermitian_close ex_tda ex_constructed)
                         (TDA.kn_pairs ex_tda) = true)
    by (vm_compute; reflexivity).
  rewrite forallb_forall in Hall. apply Hall.
  apply list_elem_of_In, elem_of_kn_pairs. done.
Qed.

Lemma build_se_moments_hermitian_witness :
  constructed_se_moments ex_tda ex_moments_dd = Ok ex_constructed /\
  exists occ vir, TDA.build_se_moments ex_tda ex_moments_dd = Ok (occ, vir) /\
    forall k n, (k < 2)%nat -> (n <= 1)%nat ->
      exists Mo Mv Ro Rv : Arr2,
        ex_constructed.1 !!! (k, n) = TDA.Finite Mo /\
        ex_constructed.2 !!! (k, n) = TDA.Finite Mv /\
        occ !!! (k, n) = TDA.Finite Ro /\ vir !!! (k, n) = TDA.Finite Rv /\
        (forall p q, Ro p q = Cscale half (Mo p q + Cconj (Mo q p))%C) /\
        (forall p q, Rv p q = Cscale half (Mv p q + Cconj (Mv q p))%C) /\
        hermitian Ro /\ hermitian Rv.
Proof.
  split; [exact ex_constructed_ok|].
  exact (proj2 (build_se_moments_hermitian ex_tda ex_moments_dd ex_constructed
                  ex_constructed_ok) ex_constructed_close).
Defined.

Lemma ex_eta_present (q k : nat * kvec (TDA.kpts ex_tda)) :
  (q, k) ∈ loop2 (TDA.kpts ex_tda) -> is_Some (ex_eta !! (k.1, q.1)).
Proof.
  intros Hin%loop2_mesh_Z2.
  repeat (apply elem_of_cons in Hin as [[= -> ->]|Hin];
          [apply is_Some_test; vm_compute; reflexivity|]).
  by apply elem_of_nil in Hin.
Qed.



Lemma ex_zero_pole_below :
  exists x : nat, (0, x) ∈ poles_below ex_tda_zero (rel ex_tda_zero (0%nat, 0%Z) (0%nat, 0%Z)).
Proof. exists 0%nat. apply list_elem_of_here. Qed.

(** on [ex_tda_zero] the occupied moment of order [0] at the first mesh
    point is [nan] *)
Lemma construct_se_moments_zero_pole_witness :
  (forall q k : nat * kvec (TDA.kpts ex_tda_zero), (q, k) ∈ loop2 (TDA.kpts ex_tda_zero) ->
     is_Some (ex_eta !! (k.1, q.1))) /\
  ((0%nat, 0%Z), (0%nat, 0%Z)) ∈ loop2 (TDA.kpts ex_tda_zero) /\
  (0 < TDA.nmo ex_tda_zero)%nat /\ (0 < TDA.nmom_max ex_tda_zero)%nat /\
  exists occ vir : gmap (nat * nat) TDA.FMat,
    TDA.construct_se_moments ex_tda_zero ex_eta = Ok (occ, vir) /\
    occ !!! (0%nat, 0%nat) = TDA.NaN.
Proof.
  split; [exact ex_eta_present|].
  split; [apply list_elem_of_here|].
  split; [simpl; lia|]. split; [simpl; lia|].
  destruct (construct_se_moments_zero_pole ex_tda_zero ex_eta (0%nat, 0%Z) (0%nat, 0%Z) 0
              ex_eta_present (list_elem_of_here _ _) (Nat.lt_0_succ 1) (Nat.lt_0_succ 0))
    as (occ & vir & Hc & Hocc & _).
  exists occ, vir. split; [exact Hc|]. exact (Hocc ex_zero_pole_below).
Defined.

Lemma ex_compressed_metric :
  run_res (KIntegrals.get_compression_metric (ex_ints_compressed ex_tol))
  = Ok (Some [None; None]).
Proof. vm_compute. reflexivity. Qed.

Lemma compression_basis_truncation_witness :
  run_res (KIntegrals.get_compression_metric (ex_ints_compressed ex_tol))
    = Ok (Some [None; None]) /\
  exists prod : gmap nat Arr2,
    run_res (KIntegrals.compression_metric (ex_ints_compressed ex_tol)) = Ok prod /\
    forall q : nat, (q < 2)%nat ->
      let kept :=
        (filter (fun ev : Qc * Arr1 => ex_tol < Qcabs.Qcabs ev.1)
                (KIntegrals.eigh (ex_ints_compressed ex_tol) (prod !!! q))).*2 in
      [None; None] !! q = Some (if bool_decide (length kept = 1%nat)
                                then None else Some kept) /\
      KIntegrals.naux (KIntegrals.set_rot (ex_ints_compressed ex_tol) (Some [None; None])) !! q
        = Some (if bool_decide (length kept = 1%nat) then 1%nat else length kept).
Proof.
  split; [exact ex_compressed_metric|].
  exact (compression_basis_truncation (ex_ints_compressed ex_tol) [None; None]
           ex_compressed_metric).
Defined.

Lemma ex_low_dim_logged :
  sr_block 0 0 (-1)
    ∈ run_log (KIntegrals.transform (ex_ints 1 low_dim_provider) None true true).2.
Proof. vm_compute. apply list_elem_of_further, list_elem_of_here. Qed.

Lemma transform_low_dimensional_witness :
  sr_block 0 0 (-1)
    ∈ run_log (KIntegrals.transform (ex_ints 1 low_dim_provider) None true true).2 /\
  low_dimensional (sr_block 0 0 (-1)) /\
  run_res (KIntegrals.transform (ex_ints 1 low_dim_provider) None true true).2
    = Err (NotImplementedError "Low dimensional integrals") /\
  (exists l,
     run_log (KIntegrals.transform (ex_ints 1 low_dim_provider) None true true).2
       = l ++ [sr_block 0 0 (-1)] /\
     Forall (fun ev' => ~ low_dimensional ev') l) /\
  KIntegrals._blocks (KIntegrals.transform (ex_ints 1 low_dim_provider) None true true).1
    = KIntegrals._blocks (ex_ints 1 low_dim_provider).
Proof.
  split; [exact ex_low_dim_logged|]. split; [reflexivity|].
  exact (transform_low_dimensional (ex_ints 1 low_dim_provider) None true true
           (sr_block 0 0 (-1)) ex_low_dim_logged eq_refl).
Defined.

Lemma exact_variant_fails_witness :
  qsGW.polarizability (ex_gw "drpa-exact") = "drpa-exact" /\
  qsGW.kernel (ex_gw "drpa-exact") 1 (fun _ => 0) (fun _ _ => 1) None =
    mkRun [log_warn "qsGW is untested!"]
          (Err (NotImplementedError "qsGW for polarizability=drpa-exact")) /\
  TDA.build_dd_moments_exact ex_tda = Err (NotImplementedError "").
Proof.
  split; [reflexivity|].
  exact (exact_variant_fails (ex_gw "drpa-exact") 1 (fun _ => 0) (fun _ _ => 1)
           None ex_tda eq_refl).
Defined.

Lemma madelung_always_None_witness :
  KIntegrals._madelung (ex_ints 1 (one_chunk 1)) = None /\
  Forall (fun v => v = None)
    (calls (ex_ints 1 (one_chunk 1))
       [read_madelung; call_transform None true true; read_madelung]).1.
Proof.
  split; [reflexivity|].
  exact (proj1 (madelung_always_None (ex_ints 1 (one_chunk 1))
                  [read_madelung; call_transform None true true; read_madelung]
                  eq_refl)).
Defined.



Lemma ex_transform_returns :
  run_res (KIntegrals.transform (ex_ints 2 (one_chunk 1)) None true true).2 = Ok tt.
Proof. vm_compute. reflexivity. Qed.

Lemma ex_Lpq_covers (ki kj : nat) :
  (ki < nkpts (KIntegrals.kpts (ex_ints 2 (one_chunk 1))))%nat ->
  (kj < nkpts (KIntegrals.kpts (ex_ints 2 (one_chunk 1))))%nat ->
  is_Some (KIntegrals.Lpq
             (KIntegrals._blocks
                (KIntegrals.transform (ex_ints 2 (one_chunk 1)) None true true).1)
           ≫= fun d => d !! (ki, kj)).
Proof.
  intros Hi Hj. change (nkpts _) with 2%nat in Hi, Hj.
  destruct ki as [|[|ki]]; [| |lia];
    (destruct kj as [|[|kj]]; [| |lia]); apply is_Some_test; vm_compute; reflexivity.
Qed.

Lemma ex_two_transform_returns :
  run_res (KIntegrals.transform (ex_ints 2 two_chunks) None true true).2 = Ok tt.
Proof. vm_compute. reflexivity. Qed.

Lemma ex_two_Lpq_covers (ki kj : nat) :
  (ki < nkpts (KIntegrals.kpts (ex_ints 2 two_chunks)))%nat ->
  (kj < nkpts (KIntegrals.kpts (ex_ints 2 two_chunks)))%nat ->
  is_Some (KIntegrals.Lpq
             (KIntegrals._blocks
                (KIntegrals.transform (ex_ints 2 two_chunks) None true true).1)
           ≫= fun d => d !! (ki, kj)).
Proof.
  intros Hi Hj. change (nkpts _) with 2%nat in Hi, Hj.
  destruct ki as [|[|ki]]; [| |lia];
    (destruct kj as [|[|kj]]; [| |lia]); apply is_Some_test; vm_compute; reflexivity.
Qed.


(** a provider that delivers every pair in two blocks of one row: both
    paths take the first *)
Lemma get_j_paths_agree_witness :
  exists vj_fast vj_stream : nat -> Arr2,
    KIntegrals.get_j (KIntegrals.transform (ex_ints 2 two_chunks) None true true).1
      (fun k i j => mkC (Qc_of_nat (1 + k)) 1) mo = Ok vj_fast /\
    KIntegrals.get_j
      (KIntegrals.set_store_full
         (KIntegrals.transform (ex_ints 2 two_chunks) None true true).1 false)
      (fun k i j => mkC (Qc_of_nat (1 + k)) 1) mo = Ok vj_stream /\
    forall k i j, (k < nkpts (KIntegrals.kpts (ex_ints 2 two_chunks)))%nat ->
      vj_fast k i j
        = coulomb_spec (ex_ints 2 two_chunks) (fun k i j => mkC (Qc_of_nat (1 + k)) 1) k i j /\
      vj_stream k i j
        = coulomb_spec (ex_ints 2 two_chunks) (fun k i j => mkC (Qc_of_nat (1 + k)) 1) k i j.
Proof.
  apply (get_j_paths_agree (ex_ints 2 two_chunks)
           (fun k i j => mkC (Qc_of_nat (1 + k)) 1) true true).
  - reflexivity.
  - exact ex_two_transform_returns.
  - exact ex_two_Lpq_covers.
Defined.

Lemma get_k_paths_agree_witness :
  exists vk_fast vk_stream : nat -> Arr2,
    KIntegrals.get_k (KIntegrals.transform (ex_ints 2 (one_chunk 1)) None true true).1
      (fun k i j => mkC (Qc_of_nat (1 + k)) 1) mo false = Ok vk_fast /\
    KIntegrals.get_k
      (KIntegrals.set_store_full
         (KIntegrals.transform (ex_ints 2 (one_chunk 1)) None true true).1 false)
      (fun k i j => mkC (Qc_of_nat (1 + k)) 1) mo false = Ok vk_stream /\
    forall k i j, (k < nkpts (KIntegrals.kpts (ex_ints 2 (one_chunk 1))))%nat ->
      vk_fast k i j
        = exchange_spec (ex_ints 2 (one_chunk 1)) (fun k i j => mkC (Qc_of_nat (1 + k)) 1) k i j /\
      vk_stream k i j
        = exchange_spec (ex_ints 2 (one_chunk 1)) (fun k i j => mkC (Qc_of_nat (1 + k)) 1) k i j.
Proof.
  apply (get_k_paths_agree (ex_ints 2 (one_chunk 1))
           (fun k i j => mkC (Qc_of_nat (1 + k)) 1) true true).
  - reflexivity.
  - exact ex_transform_returns.
  - exact ex_Lpq_covers.
Defined.


















